(** * randomMusicGenerator.py: a shallow embedding and its verified properties

    The Python script builds a random chord progression, four tracks of
    timed note events (drums, bass, harmony, melody) and a delta-time
    encoded multi-track MIDI structure.  Every function of the script is
    translated below as a Rocq function:

    - Python integers are [Z]; [//] and [%] are [Z.div] and [Z.modulo]
      (both floor towards minus infinity, like Python's), with the
      [ZeroDivisionError] written out;
    - Python floats are IEEE binary64 values, [spec_float] of the
      standard library with precision 53 and exponent bound 1024;
    - exceptions are the [Raise] branch of [result];
    - the ambient generator of module [random] is an explicit tape of raw
      draws [nat -> Z] read through a cursor: one tape cell per uniform
      draw, that is per call of [random], [randint] or [choice] and per
      step of [shuffle];
    - lists that the script mutates in place ([track_events]) are threaded
      through the loops as explicit state;
    - the messages of the MIDI library are built through its
      constructors, with their range checks, and saving a file checks the
      delta times and closes every track with one end-of-track marker.

    Part I is the model and the vocabulary of the statements.  Part II
    proves, in this order: rules for reasoning about runs; the L-system
    lengths (C5); the chord progression (C4); the stable sort and the
    delta times of the serializer (C2); empty progressions (C8); the
    melody note (C7); note_on/note_off pairs (C3); the tick grid of Bass
    and Harmony (C1); and, past the claims, the pitch range of a whole
    run, the shuffle as a rearrangement, and the return of the melody
    generator.  Part III proves further properties of the script,
    function by function: note names (X1), the L-system (X2), what the
    events of the four generators carry and how they are laid out (X3 to
    X8), the key of the progression (X9), the melody scale (X10), the
    file written by the merger and its tempo (X11, X12), floats that stay
    finite and the return of the drum generator (X13), the whole run and
    its prompts (X14, X15), what the generators ask of the chords (X16,
    X17), and the name of the file (X18).  Part IV, which rests on the
    lemmas of Part III, settles the zero counts of the chord loops (C6)
    and the pitches out of the MIDI range (C9). *)

From Stdlib Require Import ZArith String Ascii List Bool Lia.
From Stdlib Require Import SpecFloat Permutation Sorted DecimalString.
Import ListNotations.
Local Open Scope Z_scope.

(* ================================================================== *)
(** * Part I: the model *)
(* ================================================================== *)

(** ** Python values and exceptions *)

Inductive PyErr : Type :=
| ValueError
| OverflowError
| ZeroDivisionError
| IndexError
| KeyError.

Inductive result (A : Type) : Type :=
| Ok (a : A)
| Raise (e : PyErr).

Arguments Ok {A} a.
Arguments Raise {A} e.

Definition result_bind {A B} (r : result A) (k : A -> result B) : result B :=
  match r with
  | Ok a => k a
  | Raise e => Raise e
  end.

(** [a // b] *)
Definition py_floordiv (a b : Z) : result Z :=
  if b =? 0 then Raise ZeroDivisionError else Ok (a / b).

(** [a % b] *)
Definition py_mod (a b : Z) : result Z :=
  if b =? 0 then Raise ZeroDivisionError else Ok (a mod b).

(** [l[i]], negative indices counting from the end. *)
Definition py_index {A} (l : list A) (i : Z) : result A :=
  let n := Z.of_nat (length l) in
  let j := if i <? 0 then i + n else i in
  if (j <? 0) || (n <=? j) then Raise IndexError
  else match nth_error l (Z.to_nat j) with
       | Some a => Ok a
       | None => Raise IndexError
       end.

(** [d[k]] on a dict with string keys, kept as an association list in
    insertion order. *)
Fixpoint dict_lookup {A} (d : list (string * A)) (k : string) : option A :=
  match d with
  | [] => None
  | (k', v) :: d' => if String.eqb k k' then Some v else dict_lookup d' k
  end.

Definition dict_getitem {A} (d : list (string * A)) (k : string) : result A :=
  match dict_lookup d k with
  | Some v => Ok v
  | None => Raise KeyError
  end.

(** [d.get(k, default)] *)
Definition dict_get {A} (d : list (string * A)) (k : string) (default : A) : A :=
  match dict_lookup d k with
  | Some v => v
  | None => default
  end.

(** ** Binary64 floats *)

Definition float : Type := spec_float.

Definition fmul : float -> float -> float := SFmul 53 1024.
Definition fdiv : float -> float -> float := SFdiv 53 1024.
Definition fltb : float -> float -> bool := SFltb.

(** [float(z)]: round to nearest even; too large an integer raises. *)
Definition float_of_int (z : Z) : result float :=
  match binary_normalize 53 1024 z 0 false with
  | S754_infinity _ => Raise OverflowError
  | f => Ok f
  end.

(** [int(f)]: truncation towards zero. *)
Definition int_of_float (f : float) : result Z :=
  match f with
  | S754_zero _ => Ok 0
  | S754_infinity _ => Raise OverflowError
  | S754_nan => Raise ValueError
  | S754_finite s m e =>
      Ok (cond_Zopp s (if 0 <=? e then Zpos m * 2 ^ e else Zpos m / 2 ^ (- e)))
  end.

(** The float literals of the script, as mantissa and exponent. *)
Definition f_0_1 : float := S754_finite false 7205759403792794 (-56).
Definition f_0_2 : float := S754_finite false 7205759403792794 (-55).
Definition f_0_5 : float := S754_finite false 4503599627370496 (-53).
Definition f_0_7 : float := S754_finite false 6305039478318694 (-53).
Definition f_1_0 : float := S754_finite false 4503599627370496 (-52).

(** A Python number: the script passes both [int] and [float] where it
    multiplies beats by ticks. *)
Inductive pynum : Type :=
| PyInt (z : Z)
| PyFloat (f : float).

(** [x * y] with the int operand converted when the other is a float. *)
Definition py_mul (x y : pynum) : result pynum :=
  match x, y with
  | PyInt a, PyInt b => Ok (PyInt (a * b))
  | PyFloat a, PyFloat b => Ok (PyFloat (fmul a b))
  | PyFloat a, PyInt b =>
      result_bind (float_of_int b) (fun fb => Ok (PyFloat (fmul a fb)))
  | PyInt a, PyFloat b =>
      result_bind (float_of_int a) (fun fa => Ok (PyFloat (fmul fa b)))
  end.

(** [int(x)] *)
Definition py_int (x : pynum) : result Z :=
  match x with
  | PyInt z => Ok z
  | PyFloat f => int_of_float f
  end.

(** An integer as an exact value: its magnitude as a mantissa at
    exponent 0, not yet rounded to the format. *)
Definition exact_int (z : Z) : float :=
  match z with
  | Z0 => S754_zero false
  | Zpos p => S754_finite false p 0
  | Zneg p => S754_finite true p 0
  end.

(** [a / b] on two ints: true division, the exact quotient rounded once
    to the nearest float; a quotient too large for a float raises, one
    too small is a zero. *)
Definition py_truediv_int (a b : Z) : result float :=
  if b =? 0 then Raise ZeroDivisionError
  else match fdiv (exact_int a) (exact_int b) with
       | S754_infinity _ => Raise OverflowError
       | f => Ok f
       end.

(** [str(z)] as used by an f-string. *)
Definition py_str_int (z : Z) : string := NilZero.string_of_int (Z.to_int z).

(** ** The random tape and its monad *)

Definition tape : Type := nat -> Z.

Definition Rand (A : Type) : Type := tape -> nat -> result (A * nat).

Definition ret {A} (a : A) : Rand A := fun _ c => Ok (a, c).

Definition bind {A B} (m : Rand A) (k : A -> Rand B) : Rand B :=
  fun t c =>
    match m t c with
    | Ok (a, c') => k a t c'
    | Raise e => Raise e
    end.

Definition raise {A} (e : PyErr) : Rand A := fun _ _ => Raise e.

Definition lift {A} (r : result A) : Rand A :=
  fun _ c =>
    match r with
    | Ok a => Ok (a, c)
    | Raise e => Raise e
    end.

(** One raw draw: read the cell under the cursor and advance. *)
Definition draw : Rand Z := fun t c => Ok (t c, S c).

Notation "x <- m ;; k" := (bind m (fun x => k))
  (at level 61, m at next level, right associativity).
Notation "' pat <- m ;; k" := (bind m (fun x => match x with pat => k end))
  (at level 61, pat pattern, m at next level, right associativity).

(** [for _ in range(n): s = body(s)] *)
Fixpoint for_range {S} (n : nat) (body : S -> Rand S) (s : S) : Rand S :=
  match n with
  | O => ret s
  | S n' => s' <- body s ;; for_range n' body s'
  end.

(** [for i in range(n): s = body(i, s)], counting up from [i0]. *)
Fixpoint for_range_from {S} (i0 : Z) (n : nat) (body : Z -> S -> Rand S) (s : S)
  : Rand S :=
  match n with
  | O => ret s
  | S n' => s' <- body i0 s ;; for_range_from (i0 + 1) n' body s'
  end.

(** [for x in xs: s = body(x, s)] *)
Fixpoint for_each {A S} (xs : list A) (body : A -> S -> Rand S) (s : S) : Rand S :=
  match xs with
  | [] => ret s
  | x :: xs' => s' <- body x s ;; for_each xs' body s'
  end.

(** [[m for _ in range(n)]] *)
Fixpoint list_comp {A} (n : nat) (m : Rand A) : Rand (list A) :=
  match n with
  | O => ret []
  | S n' => a <- m ;; l <- list_comp n' m ;; ret (a :: l)
  end.

(** ** Module [random]

    [randbelow n] is the library's uniform integer below [n]; the tape
    cell is reduced modulo [n], so every cell is a legal answer and every
    answer in range is reachable. *)
Definition randbelow (n : Z) : Rand Z :=
  r <- draw ;; ret (r mod n).

(** [random.randint(a, b)] *)
Definition randint (a b : Z) : Rand Z :=
  if b - a + 1 <=? 0 then raise ValueError
  else k <- randbelow (b - a + 1) ;; ret (a + k).

(** [random.choice(seq)] *)
Definition choice {A} (seq : list A) : Rand A :=
  match seq with
  | [] => raise IndexError
  | _ => k <- randbelow (Z.of_nat (length seq)) ;; lift (py_index seq k)
  end.

(** [random.random()]: a multiple of 2^-53 in [0, 1). *)
Definition random : Rand float :=
  r <- draw ;; ret (binary_normalize 53 1024 (r mod 2 ^ 53) (-53) false).

Fixpoint list_set {A} (l : list A) (i : nat) (a : A) : list A :=
  match l, i with
  | [], _ => []
  | _ :: l', O => a :: l'
  | x :: l', S i' => x :: list_set l' i' a
  end.

(** [x[i], x[j] = x[j], x[i]] *)
Definition swap {A} (x : list A) (i j : nat) : list A :=
  match nth_error x i, nth_error x j with
  | Some xi, Some xj => list_set (list_set x i xj) j xi
  | _, _ => x
  end.

(** The loop of [random.shuffle]: [for i in reversed(range(1, len(x)))]
    with [j = randbelow(i + 1)] and a swap of positions [i] and [j]. *)
Fixpoint shuffle_from {A} (i : nat) (x : list A) : Rand (list A) :=
  match i with
  | O => ret x
  | S i' =>
      j <- randbelow (Z.of_nat i + 1) ;;
      shuffle_from i' (swap x i (Z.to_nat j))
  end.

Definition shuffle {A} (x : list A) : Rand (list A) :=
  shuffle_from (length x - 1) x.

(** ** Globals *)

Definition TICKS_PER_BEAT : Z := 480.

Definition RANDOM_INSTRUMENTS : list Z := [0; 17; 52; 56; 80; 30; 19; 73; 42; 13].

Definition DRUM_NOTES : list Z := [35; 36; 38; 40; 41; 42; 43; 46; 49; 51; 57].

(** ** Helper functions *)

Definition note_map : list (string * Z) :=
  [("C", 0); ("C#", 1); ("Db", 1); ("D", 2); ("D#", 3); ("Eb", 3);
   ("E", 4); ("F", 5); ("F#", 6); ("Gb", 6); ("G", 7); ("G#", 8); ("Ab", 8);
   ("A", 9); ("A#", 10); ("Bb", 10); ("B", 11)]%string.

Definition note_name_to_midi (note_name : string) (octave : Z) : Z :=
  let base := dict_get note_map note_name 0 in
  12 * (octave + 1) + base.

(** The tag of an event tuple, ['note_on'] or ['note_off']. *)
Inductive ev_kind : Type := note_on | note_off.

(** The tuple [(tick, type, note, velocity, channel)]. *)
Record event : Type := mk_event {
  ev_tick : Z;
  ev_type : ev_kind;
  ev_note : Z;
  ev_velocity : Z;
  ev_channel : Z
}.

(** [add_note] appends to the list it is given; the updated list is
    returned. *)
Definition add_note (track_events : list event)
  (note velocity start_tick duration_ticks channel : Z) : list event :=
  let track_events :=
    track_events ++ [mk_event start_tick note_on note velocity channel] in
  let off_tick := start_tick + duration_ticks in
  track_events ++ [mk_event off_tick note_off note velocity channel].

Fixpoint rules_lookup (rules : list (ascii * string)) (c : ascii) : option string :=
  match rules with
  | [] => None
  | (c', s) :: rules' => if Ascii.eqb c c' then Some s else rules_lookup rules' c
  end.

(** One pass of the inner loop: the list [new_string]. *)
Fixpoint rewrite_pass (rules : list (ascii * string)) (cur : string) : list string :=
  match cur with
  | EmptyString => []
  | String c cur' =>
      match rules_lookup rules c with
      | Some s => s
      | None => String c EmptyString
      end :: rewrite_pass rules cur'
  end.

Fixpoint l_system_loop (n : nat) (rules : list (ascii * string)) (cur : string)
  : string :=
  match n with
  | O => cur
  | S n' => l_system_loop n' rules (String.concat "" (rewrite_pass rules cur))
  end.

Definition l_system (axiom : string) (rules : list (ascii * string)) (depth : Z)
  : string :=
  l_system_loop (Z.to_nat depth) rules axiom.

(** ** Random chord progressions *)

Definition note_names : list string :=
  ["C"; "C#"; "D"; "D#"; "E"; "F"; "F#"; "G"; "G#"; "A"; "A#"; "B"]%string.

Definition possible_modes : list (string * list Z) :=
  [("major", [0; 2; 4; 5; 7; 9; 11]);
   ("minor", [0; 2; 3; 5; 7; 8; 10]);
   ("phrygian", [0; 1; 3; 5; 7; 8; 10]);
   ("lydian", [0; 2; 4; 6; 7; 9; 11])]%string.

Definition build_triads (base_note_midi : Z) : Rand (list Z) :=
  r <- random ;;
  if fltb r f_0_5
  then ret [base_note_midi; base_note_midi + 4; base_note_midi + 7]
  else ret [base_note_midi; base_note_midi + 3; base_note_midi + 7].

Definition get_random_chord_progression (num_chords : Z)
  : Rand (list (list Z) * string) :=
  root_choice <- choice note_names ;;
  octave_choice <- randint 2 5 ;;
  mode_name <- choice (map fst possible_modes) ;;
  intervals <- lift (dict_getitem possible_modes mode_name) ;;
  let base_root_midi := note_name_to_midi root_choice octave_choice in
  chords <- for_range (Z.to_nat num_chords)
              (fun chords =>
                 interval <- choice intervals ;;
                 let chord_root := base_root_midi + interval in
                 triad <- build_triads chord_root ;;
                 ret (chords ++ [triad]))
              [] ;;
  ret (chords,
       (root_choice ++ py_str_int octave_choice ++ " " ++ mode_name)%string).

(** ** Drums *)

(** [int(0.1 * ticks_per_beat)] *)
Definition tenth_of_beat (ticks_per_beat : Z) : result Z :=
  result_bind (py_mul (PyFloat f_0_1) (PyInt ticks_per_beat)) py_int.

Definition drum_random_hit (measure_start beats_per_measure ticks_per_beat : Z)
  (track_events : list event) : Rand (list event) :=
  random_drum_note <- choice DRUM_NOTES ;;
  r <- random ;;
  random_beat_offset <- lift (py_mul (PyFloat r) (PyInt beats_per_measure)) ;;
  offset_ticks <- lift (result_bind
                          (py_mul random_beat_offset (PyInt ticks_per_beat))
                          py_int) ;;
  let start_t := measure_start + offset_ticks in
  dur_t <- lift (tenth_of_beat ticks_per_beat) ;;
  velocity <- randint 40 120 ;;
  ret (add_note track_events random_drum_note velocity start_t dur_t 9).

Definition drum_measure (beats_per_measure ticks_per_beat : Z)
  (measure_idx : Z) (track_events : list event) : Rand (list event) :=
  let measure_start := measure_idx * beats_per_measure * ticks_per_beat in
  track_events <-
    (if beats_per_measure =? 4 then
       kick_dur <- lift (tenth_of_beat ticks_per_beat) ;;
       let track_events :=
         add_note track_events 36 100 measure_start kick_dur 9 in
       let snare_beat_2 := measure_start + 2 * ticks_per_beat in
       snare_dur <- lift (tenth_of_beat ticks_per_beat) ;;
       ret (add_note track_events 38 100 snare_beat_2 snare_dur 9)
     else ret track_events) ;;
  random_hits <- randint 2 8 ;;
  for_range (Z.to_nat random_hits)
    (drum_random_hit measure_start beats_per_measure ticks_per_beat)
    track_events.

Definition create_drum_track_chaos
  (num_measures beats_per_measure ticks_per_beat : Z) : Rand (list event) :=
  for_range_from 0 (Z.to_nat num_measures)
    (drum_measure beats_per_measure ticks_per_beat) [].

(** ** Bass *)

(** [int(beats_per_chord * ticks_per_beat)] *)
Definition chord_length_ticks (beats_per_chord : pynum) (ticks_per_beat : Z)
  : result Z :=
  result_bind (py_mul beats_per_chord (PyInt ticks_per_beat)) py_int.

(** [chord_length_ticks // subdivs if subdivs > 0 else chord_length_ticks] *)
Definition bass_sub_tick_length (chord_length subdivs : Z) : result Z :=
  if subdivs >? 0 then py_floordiv chord_length subdivs else Ok chord_length.

Definition bass_slot (chord_root chord_fifth sub_tick_length : Z)
  (st : list event * Z) : Rand (list event * Z) :=
  let '(track_events, t_start) := st in
  r <- random ;;
  let note := if fltb r f_0_7 then chord_root else chord_fifth in
  r' <- random ;;
  shift <- (if fltb r' f_0_5 then choice [-12; 0; 12] else ret 0) ;;
  let note := note + shift in
  velocity <- randint 50 100 ;;
  ret (add_note track_events note velocity t_start sub_tick_length 1,
       t_start + sub_tick_length).

Definition bass_chord (beats_per_chord : pynum) (ticks_per_beat : Z)
  (chord : list Z) (st : list event * Z) : Rand (list event * Z) :=
  let '(track_events, current_time) := st in
  chord_root <- lift (py_index chord 0) ;;
  chord_fifth <- lift (py_index chord 2) ;;
  chord_length <- lift (chord_length_ticks beats_per_chord ticks_per_beat) ;;
  subdivs <- randint 1 5 ;;
  sub_tick_length <- lift (bass_sub_tick_length chord_length subdivs) ;;
  let t_start := current_time in
  '(track_events, _) <-
    for_range (Z.to_nat subdivs)
      (bass_slot chord_root chord_fifth sub_tick_length)
      (track_events, t_start) ;;
  ret (track_events, current_time + chord_length).

Definition create_bass_track_chaos (chords : list (list Z))
  (beats_per_chord : pynum) (ticks_per_beat : Z) : Rand (list event) :=
  '(track_events, _) <-
    for_each chords (bass_chord beats_per_chord ticks_per_beat) ([], 0) ;;
  ret track_events.

(** ** Harmony *)

(** [chord_length_ticks // presses] *)
Definition harmony_press_length (chord_length presses : Z) : result Z :=
  py_floordiv chord_length presses.

Definition harmony_note (press_length : Z) (chord_notes : list Z)
  (note : Z) (st : list event * Z) : Rand (list event * Z) :=
  let '(track_events, time_ptr) := st in
  velocity <- randint 40 90 ;;
  note_dur <- lift (py_floordiv press_length (Z.of_nat (length chord_notes))) ;;
  ret (add_note track_events note velocity time_ptr note_dur 2,
       time_ptr + note_dur).

Definition harmony_press (press_length : Z) (chord : list Z)
  (st : list event * Z) : Rand (list event * Z) :=
  chord_notes <- shuffle chord ;;
  for_each chord_notes (harmony_note press_length chord_notes) st.

Definition harmony_chord (beats_per_chord : pynum) (ticks_per_beat : Z)
  (chord : list Z) (st : list event * Z) : Rand (list event * Z) :=
  let '(track_events, current_time) := st in
  chord_length <- lift (chord_length_ticks beats_per_chord ticks_per_beat) ;;
  presses <- randint 1 3 ;;
  press_length <- lift (harmony_press_length chord_length presses) ;;
  let time_ptr := current_time in
  '(track_events, _) <-
    for_range (Z.to_nat presses) (harmony_press press_length chord)
      (track_events, time_ptr) ;;
  ret (track_events, current_time + chord_length).

Definition create_harmony_track_chaos (chords : list (list Z))
  (beats_per_chord : pynum) (ticks_per_beat : Z) : Rand (list event) :=
  '(track_events, _) <-
    for_each chords (harmony_chord beats_per_chord ticks_per_beat) ([], 0) ;;
  ret track_events.

(** ** Melody *)

Definition lsystem_rules : list (ascii * string) :=
  [("A"%char, "AB"%string); ("B"%char, "A"%string)].

Definition lsystem_durations (depth : Z) : list float :=
  let out := l_system "A" lsystem_rules depth in
  map (fun c => if Ascii.eqb c "A" then f_1_0 else f_0_5)
      (list_ascii_of_string out).

(** [chord_length_ticks // n if n else chord_length_ticks] *)
Definition melody_sub_tick (chord_length notes_in_this_chord : Z) : result Z :=
  if negb (notes_in_this_chord =? 0)
  then py_floordiv chord_length notes_in_this_chord
  else Ok chord_length.

(** [int(dur_beats * ticks_per_beat)] *)
Definition note_dur_ticks (dur_beats : float) (ticks_per_beat : Z) : result Z :=
  result_bind (py_mul (PyFloat dur_beats) (PyInt ticks_per_beat)) py_int.

(** The octave shift of a melody note: a second draw is made only when
    the first check fails. *)
Definition melody_octave_shift (note : Z) : Rand Z :=
  r <- random ;;
  if fltb r f_0_2 then ret (note + 12)
  else
    r' <- random ;;
    if fltb r' f_0_2 then ret (note - 12) else ret note.

Definition melody_note (scale_notes phrase : list Z) (durations_list : list float)
  (ticks_per_beat sub_tick : Z) (st : list event * Z * Z)
  : Rand (list event * Z * Z) :=
  let '(track_events, current_time, lsys_idx) := st in
  note_idx <- choice phrase ;;
  note <- lift (py_index scale_notes note_idx) ;;
  note <- melody_octave_shift note ;;
  i <- lift (py_mod lsys_idx (Z.of_nat (length durations_list))) ;;
  dur_beats <- lift (py_index durations_list i) ;;
  let lsys_idx := lsys_idx + 1 in
  note_dur <- lift (note_dur_ticks dur_beats ticks_per_beat) ;;
  let duration := Z.min note_dur sub_tick in
  velocity <- randint 60 127 ;;
  ret (add_note track_events note velocity current_time duration 0,
       current_time + duration,
       lsys_idx).

Definition melody_chord (scale_notes phrase : list Z) (durations_list : list float)
  (beats_per_chord : pynum) (ticks_per_beat : Z)
  (chord : list Z) (st : list event * Z * Z) : Rand (list event * Z * Z) :=
  chord_length <- lift (chord_length_ticks beats_per_chord ticks_per_beat) ;;
  notes_in_this_chord <- randint 2 6 ;;
  sub_tick <- lift (melody_sub_tick chord_length notes_in_this_chord) ;;
  for_range (Z.to_nat notes_in_this_chord)
    (melody_note scale_notes phrase durations_list ticks_per_beat sub_tick) st.

Definition create_melody_track_chaos (chords : list (list Z))
  (scale_notes : list Z) (beats_per_chord : pynum) (ticks_per_beat : Z)
  : Rand (list event) :=
  depth <- randint 2 5 ;;
  let durations_list := lsystem_durations depth in
  phrase_length <- randint 3 7 ;;
  phrase <- list_comp (Z.to_nat phrase_length)
              (randint 0 (Z.of_nat (length scale_notes) - 1)) ;;
  '(track_events, _, _) <-
    for_each chords
      (melody_chord scale_notes phrase durations_list beats_per_chord
         ticks_per_beat)
      ([], 0, 0) ;;
  ret track_events.

(** ** Combine and write *)

(** The messages of a MIDI track; [time] is a delta time. *)
Inductive Message : Type :=
| set_tempo (tempo time : Z)
| program_change (program channel time : Z)
| msg_note_on (note velocity time channel : Z)
| msg_note_off (note velocity time channel : Z)
| end_of_track (time : Z).

Record MidiFile : Type := mk_MidiFile {
  mid_ticks_per_beat : Z;
  mid_tracks : list (list Message)
}.

Definition msg_time (m : Message) : Z :=
  match m with
  | set_tempo _ time => time
  | program_change _ _ time => time
  | msg_note_on _ _ time _ => time
  | msg_note_off _ _ time _ => time
  | end_of_track time => time
  end.

(** *** The checks of the MIDI library

    The script builds every message through the constructors of the
    MIDI library, which raise [ValueError] for a data byte (note,
    velocity, program) outside 0..127, a channel outside 0..15 and a
    tempo outside 0..16777215; saving raises [ValueError] for a negative
    delta time. *)

Definition data_byte (b : Z) : bool := (0 <=? b) && (b <=? 127).

Definition channel_number (ch : Z) : bool := (0 <=? ch) && (ch <=? 15).

Definition tempo_value (tempo : Z) : bool := (0 <=? tempo) && (tempo <=? 16777215).

(** [Message('program_change', program=..., channel=..., time=...)] *)
Definition Message_program_change (program channel time : Z) : result Message :=
  if data_byte program && channel_number channel
  then Ok (program_change program channel time)
  else Raise ValueError.

(** [Message("note_on", note=..., velocity=..., time=..., channel=...)]
    and the same for ["note_off"]. *)
Definition Message_note (type : ev_kind) (note velocity time channel : Z)
  : result Message :=
  if data_byte note && data_byte velocity && channel_number channel
  then Ok (match type with
           | note_on => msg_note_on note velocity time channel
           | note_off => msg_note_off note velocity time channel
           end)
  else Raise ValueError.

(** [MetaMessage('set_tempo', tempo=..., time=...)] *)
Definition MetaMessage_set_tempo (tempo time : Z) : result Message :=
  if tempo_value tempo then Ok (set_tempo tempo time) else Raise ValueError.

(** [msg.copy(time=...)] *)
Definition with_time (m : Message) (time : Z) : Message :=
  match m with
  | set_tempo tempo _ => set_tempo tempo time
  | program_change program channel _ => program_change program channel time
  | msg_note_on note velocity _ channel => msg_note_on note velocity time channel
  | msg_note_off note velocity _ channel =>
      msg_note_off note velocity time channel
  | end_of_track _ => end_of_track time
  end.

(** What saving does to a track before it writes it: every end-of-track
    marker is dropped, its time going to the message after it, and one
    marker is put at the end. *)
Fixpoint fix_end_of_track (accum : Z) (messages : list Message) : list Message :=
  match messages with
  | [] => [end_of_track accum]
  | end_of_track time :: messages' => fix_end_of_track (accum + time) messages'
  | msg :: messages' =>
      (if accum =? 0 then msg else with_time msg (accum + msg_time msg))
      :: fix_end_of_track 0 messages'
  end.

(** The messages of one track as they are written to the file. *)
Definition write_track (track : list Message) : result (list Message) :=
  let messages := fix_end_of_track 0 track in
  if forallb (fun msg => 0 <=? msg_time msg) messages
  then Ok messages
  else Raise ValueError.

Fixpoint write_tracks (tracks : list (list Message))
  : result (list (list Message)) :=
  match tracks with
  | [] => Ok []
  | track :: tracks' =>
      result_bind (write_track track) (fun written =>
      result_bind (write_tracks tracks') (fun written' =>
      Ok (written :: written')))
  end.

(** [mid.save(filename)]: the file as it stands on disk, track by track.
    (Errors of the file system are not modelled.) *)
Definition save (mid : MidiFile) : result MidiFile :=
  result_bind (write_tracks (mid_tracks mid)) (fun written =>
  Ok (mk_MidiFile (mid_ticks_per_beat mid) written)).

(** *** The merger *)

Definition add_program_change (track : list Message)
  (program_num channel time : Z) : result (list Message) :=
  result_bind (Message_program_change program_num channel time) (fun msg =>
  Ok (track ++ [msg])).

(** [sorted(l, key=key)]: Python's sort is stable, and the stable sorted
    arrangement of a list is unique; it is computed here by insertion,
    an element going before the first one whose key is not smaller. *)
Fixpoint insert_by_key {A} (key : A -> Z) (x : A) (l : list A) : list A :=
  match l with
  | [] => [x]
  | y :: l' =>
      if key x <=? key y then x :: y :: l' else y :: insert_by_key key x l'
  end.

Fixpoint sorted {A} (key : A -> Z) (l : list A) : list A :=
  match l with
  | [] => []
  | x :: l' => insert_by_key key x (sorted key l')
  end.

(** The body of [for e in events_sorted], on the state [(track, prev_time)]. *)
Definition encode_event (e : event) (st : list Message * Z)
  : result (list Message * Z) :=
  let '(track, prev_time) := st in
  let abs_time := ev_tick e in
  let delta := abs_time - prev_time in
  result_bind
    (Message_note (ev_type e) (ev_note e) (ev_velocity e) delta (ev_channel e))
    (fun msg => Ok (track ++ [msg], abs_time)).

(** The track of one entry of [tracks_dict]. *)
Definition combine_track (name : string) (events : list event)
  : Rand (list Message) :=
  let track := [] in
  track <-
    (if String.eqb name "Drums" then lift (add_program_change track 0 9 0)
     else
       program_num <- choice RANDOM_INSTRUMENTS ;;
       let chan := 0 in
       let chan :=
         if String.eqb name "Bass" then 1
         else if String.eqb name "Harmony" then 2
         else if String.eqb name "Melody" then 0
         else chan in
       lift (add_program_change track program_num chan 0)) ;;
  let events_sorted := sorted ev_tick events in
  let prev_time := 0 in
  '(track, _) <-
    for_each events_sorted (fun e st => lift (encode_event e st))
      (track, prev_time) ;;
  ret (track ++ [end_of_track 0]).

(** The run returns the file name with the [MidiFile] object that
    [mid.save(filename)] has written; [save mid] is its rendering on
    disk. *)
Definition combine_and_write_midi (tracks_dict : list (string * list event))
  (filename : string) (tempo_bpm : Z) : Rand (string * MidiFile) :=
  let tempo_track := [] in
  microseconds_per_beat <-
    lift (result_bind (py_truediv_int 60000000 tempo_bpm) int_of_float) ;;
  (* [tempo_track] is the object already held by [mid.tracks] when the
     tempo message is appended to it *)
  tempo_msg <- lift (MetaMessage_set_tempo microseconds_per_beat 0) ;;
  let tempo_track := tempo_track ++ [tempo_msg] in
  let tracks := [tempo_track] in
  tracks <-
    for_each tracks_dict
      (fun '(name, events) tracks =>
         track <- combine_track name events ;;
         ret (tracks ++ [track]))
      tracks ;;
  let mid := mk_MidiFile TICKS_PER_BEAT tracks in
  _ <- lift (save mid) ;;
  ret (filename, mid).

(** ** The run of the script, after the three scalars and the file name
    have been read *)

Definition scale_mode_choices : list (list Z) :=
  [[0; 2; 4; 5; 7; 9; 11];
   [0; 2; 3; 5; 7; 8; 10];
   [0; 1; 3; 5; 7; 8; 10];
   [0; 2; 4; 6; 7; 9; 11];
   [0; 2; 4; 7; 9]].

(** The nested loops that fill [scale_notes]. *)
Definition build_scale_notes (random_root_midi : Z) (scale_mode_intervals : list Z)
  : list Z :=
  flat_map (fun oct_shift =>
              map (fun interval => random_root_midi + interval + 12 * oct_shift)
                  scale_mode_intervals)
           [0; 1].

Definition main (total_measures beats_per_measure user_tempo : Z)
  (out_name : string) : Rand (string * MidiFile) :=
  '(chords, scale_info) <- get_random_chord_progression total_measures ;;
  beats_per_chord <- lift (float_of_int beats_per_measure) ;;
  let beats_per_chord := PyFloat beats_per_chord in
  drum_track <-
    create_drum_track_chaos total_measures beats_per_measure TICKS_PER_BEAT ;;
  bass_track <- create_bass_track_chaos chords beats_per_chord TICKS_PER_BEAT ;;
  harmony_track <-
    create_harmony_track_chaos chords beats_per_chord TICKS_PER_BEAT ;;
  scale_mode_intervals <- choice scale_mode_choices ;;
  random_root_name <- choice note_names ;;
  random_root_oct <- randint 3 5 ;;
  let random_root_midi := note_name_to_midi random_root_name random_root_oct in
  let scale_notes := build_scale_notes random_root_midi scale_mode_intervals in
  melody_track <-
    create_melody_track_chaos chords scale_notes beats_per_chord TICKS_PER_BEAT ;;
  let tracks :=
    [("Drums", drum_track); ("Bass", bass_track);
     ("Harmony", harmony_track); ("Melody", melody_track)]%string in
  combine_and_write_midi tracks out_name user_tempo.

(** ** Vocabulary of the specifications *)

(** *** Runs *)

(** A run of [m] from cursor [c] on tape [t] either returns a value and
    a cursor satisfying [Q], or raises and then [R] is required: [R :=
    False] asks for a normal return, [R := True] leaves a raise
    unconstrained. *)
Definition wpx {A} (R : Prop) (m : Rand A) (Q : A -> nat -> Prop)
  (t : tape) (c : nat) : Prop :=
  match m t c with
  | Ok (a, c') => Q a c'
  | Raise _ => R
  end.

(** The float that [random.random()] returns on the cell at [c]. *)
Definition random_at (t : tape) (c : nat) : float :=
  binary_normalize 53 1024 (t c mod 2 ^ 53) (-53) false.

(** The tape that holds the draws of [l] and then zeros. *)
Definition tape_of_list (l : list Z) : tape := fun n => nth n l 0.

(** *** Numbers *)

(** A float that is not negative (a zero of either sign truncates to 0). *)
Definition float_nonneg (f : float) : Prop :=
  match f with
  | S754_finite s _ _ => s = false
  | S754_infinity s => s = false
  | _ => True
  end.

Definition pynum_nonneg (x : pynum) : Prop :=
  match x with
  | PyInt z => 0 <= z
  | PyFloat f => float_nonneg f
  end.

(** [float(4)], the beats of a 4/4 measure as the script passes them. *)
Definition f_4_0 : float := S754_finite false 4503599627370496 (-50).

(** A whole number [b] of beats passed as [float(b)], as the script does:
    does the chord last exactly [b * 480] ticks? *)
Definition float_beats_exact (b : Z) : bool :=
  match float_of_int b with
  | Ok f =>
      match chord_length_ticks (PyFloat f) TICKS_PER_BEAT with
      | Ok L => L =? b * 480
      | Raise _ => false
      end
  | Raise _ => false
  end.

(** *** Chords and pitches *)

(** A triad over a root: major or minor. *)
Definition is_triad (chord : list Z) : Prop :=
  exists root,
    chord = [root; root + 4; root + 7] \/ chord = [root; root + 3; root + 7].

Fixpoint nondecreasing (l : list Z) : Prop :=
  match l with
  | x :: ((y :: _) as l') => x <= y /\ nondecreasing l'
  | _ => True
  end.

(** A pitch that a MIDI data byte can hold. *)
Definition midi_pitch (p : Z) : Prop := 0 <= p <= 127.

(** [note] is [base] itself or [base] an octave up or down. *)
Definition octave_shifted (base note : Z) : Prop :=
  note = base - 12 \/ note = base \/ note = base + 12.

(** The octave shift chosen by the two melody checks. *)
Definition octave_shift_of (up down : bool) : Z :=
  if up then 12 else if down then -12 else 0.

(** Every event of [evs] has its pitch within [lo, hi]. *)
Definition pitches_within (lo hi : Z) (evs : list event) : Prop :=
  Forall (fun e => lo <= ev_note e <= hi) evs.

(** A string over the two symbols of the duration grammar. *)
Definition ab_only (s : string) : Prop :=
  Forall (fun c => c = "A"%char \/ c = "B"%char) (list_ascii_of_string s).

(** *** Notes and their two events *)

(** A sounded note: what one call of [add_note] records. *)
Record note_spec : Type := mk_note {
  n_start : Z;
  n_dur : Z;
  n_pitch : Z;
  n_vel : Z;
  n_chan : Z
}.

Definition note_events (n : note_spec) : list event :=
  [mk_event (n_start n) note_on (n_pitch n) (n_vel n) (n_chan n);
   mk_event (n_start n + n_dur n) note_off (n_pitch n) (n_vel n) (n_chan n)].

(** An event list made of consecutive note_on/note_off pairs, each
    note_off [n_dur] ticks after its note_on. *)
Definition paired_by (notes : list note_spec) (evs : list event) : Prop :=
  evs = flat_map note_events notes.

Definition well_paired (evs : list event) : Prop :=
  exists notes, paired_by notes evs /\ Forall (fun n => 0 <= n_dur n) notes.

(** *** The tick grid *)

(** The last tick reached by a track that starts at tick 0. *)
Definition tick_span (evs : list event) : Z :=
  fold_right Z.max 0 (map ev_tick evs).

(** The first tick of a block of events. *)
Definition first_tick (evs : list event) : option Z :=
  match evs with
  | [] => None
  | e :: _ => Some (ev_tick e)
  end.

(** Blocks of events laid on a grid of step [L]: block [k] starts on
    tick [k * L] and stays within [k * L, (k + 1) * L]. *)
Definition on_grid (L : Z) (blocks : list (list event)) : Prop :=
  forall k block,
    nth_error blocks k = Some block ->
    first_tick block = Some (Z.of_nat k * L)
    /\ Forall (fun e => Z.of_nat k * L <= ev_tick e <= (Z.of_nat k + 1) * L)
         block.

(** The events [blk] written for one chord that began at [cur], with
    the time pointer now at [ts]: nothing yet, or a block that starts on
    [cur], stays within [cur, ts] and reaches [ts]. *)
Definition block_inv (cur ts : Z) (blk : list event) : Prop :=
  cur <= ts
  /\ Forall (fun e => cur <= ev_tick e <= ts) blk
  /\ ((blk = [] /\ ts = cur)
      \/ (first_tick blk = Some cur /\ In ts (map ev_tick blk))).

(** The loop state after [j] notes of [d] ticks each have been written,
    back to back, for the chord that began at [cur] with the events [evs]
    already there. *)
Definition blk_state (evs : list event) (cur j d : Z)
  (st : list event * Z) : Prop :=
  exists blk,
    st = (evs ++ blk, cur + j * d)
    /\ block_inv cur (cur + j * d) blk
    /\ (0 < j -> blk <> []).

(** What one chord adds to the state [(evs, cur)] of a generator that
    lays chords of [L] ticks end to end: a non-empty block that starts on
    [cur] and reaches [cur + used], for some [used] ticks satisfying [P]
    out of the [L] allotted, while the chord cursor moves on by [L]. *)
Definition chord_post (L : Z) (P : Z -> Prop) (evs : list event) (cur : Z)
  (st' : list event * Z) : Prop :=
  exists blk used,
    st' = (evs ++ blk, cur + L)
    /\ 0 <= used <= L
    /\ P used
    /\ first_tick blk = Some cur
    /\ Forall (fun e => cur <= ev_tick e <= cur + used) blk
    /\ In (cur + used) (map ev_tick blk).

(** What a whole progression of [n] chords leaves. *)
Definition grid_post (L : Z) (P : Z -> Prop) (n : nat)
  (st : list event * Z) : Prop :=
  exists blocks,
    fst st = concat blocks
    /\ snd st = Z.of_nat n * L
    /\ length blocks = n
    /\ on_grid L blocks
    /\ ((0 < n)%nat ->
        exists used,
          P used /\ In ((Z.of_nat n - 1) * L + used) (map ev_tick (fst st))).

(** *** Messages and delta times *)

(** What a note message carries besides its delta time. *)
Definition msg_payload (m : Message) : option (ev_kind * Z * Z * Z) :=
  match m with
  | msg_note_on note vel _ chan => Some (note_on, note, vel, chan)
  | msg_note_off note vel _ chan => Some (note_off, note, vel, chan)
  | _ => None
  end.

Definition ev_payload (e : event) : option (ev_kind * Z * Z * Z) :=
  Some (ev_type e, ev_note e, ev_velocity e, ev_channel e).

(** The pitch of a note message is within [lo, hi]. *)
Definition msg_pitch_within (lo hi : Z) (m : Message) : Prop :=
  match m with
  | msg_note_on note _ _ _ => lo <= note <= hi
  | msg_note_off note _ _ _ => lo <= note <= hi
  | _ => True
  end.

(** Absolute times back from delta times, from the time [acc]. *)
Fixpoint accumulate (acc : Z) (deltas : list Z) : list Z :=
  match deltas with
  | [] => []
  | d :: deltas' => (acc + d) :: accumulate (acc + d) deltas'
  end.

(** Delta-time encoding of a sequence of absolute ticks read after the
    time [prev]: each tick minus the one before it. *)
Fixpoint tick_deltas (prev : Z) (ticks : list Z) : list Z :=
  match ticks with
  | [] => []
  | x :: ticks' => (x - prev) :: tick_deltas x ticks'
  end.

(** Ordered by key. *)
Definition key_sorted {A} (key : A -> Z) (l : list A) : Prop :=
  StronglySorted (fun a b => key a <= key b) l.

(** The elements of [l] with key [k], in the order of [l]. *)
Definition with_key {A} (key : A -> Z) (k : Z) (l : list A) : list A :=
  filter (fun a => key a =? k) l.

(** *** Inputs used in the examples *)

(** One C major chord of four beats, and the draw of three presses. *)
Definition one_chord : list (list Z) := [[60; 64; 67]].
Definition three_presses_tape : tape := tape_of_list [2].

(** Four triads, one per measure: C major, D minor, E minor, F major. *)
Definition four_chords : list (list Z) :=
  [[60; 64; 67]; [62; 65; 69]; [64; 67; 71]; [65; 69; 72]].

(** A high C major triad and the draws that send its root an octave up:
    one subdivision, the root, the shift taken, the shift +12, velocity 50. *)
Definition high_chords : list (list Z) := [[120; 124; 127]].
Definition high_bass_tape : tape := tape_of_list [0; 0; 0; 2; 0].

(** A two-octave major scale on pitch 103 and the draws that pick its top
    entry for the whole phrase and take the upward shift. *)
Definition high_scale : list Z := build_scale_notes 103 [0; 2; 4; 5; 7; 9; 11].
Definition high_melody_tape : tape := tape_of_list [0; 0; 13; 13; 13].

(** Three events out of tick order, two of them on tick 480. *)
Definition sample_events : list event :=
  [mk_event 480 note_off 60 70 1;
   mk_event 0 note_on 60 70 1;
   mk_event 480 note_on 62 70 1].

(** The tape of zeros. *)
Definition zero_tape : tape := tape_of_list [].

(** *** Vocabulary of the further properties *)

(** Every event of [evs] carries a pitch, velocity and channel accepted by
    [Q]. *)
Definition events_carry (Q : Z -> Z -> Z -> Prop) (evs : list event) : Prop :=
  Forall (fun e => Q (ev_note e) (ev_velocity e) (ev_channel e)) evs.

(** A track in tick order whose ticks lie between 0 and [ts]. *)
Definition sorted_upto (ts : Z) (evs : list event) : Prop :=
  key_sorted ev_tick evs /\ Forall (fun e => 0 <= ev_tick e <= ts) evs.

(** Notes laid end to end from the tick [t0]: each starts where the one
    before it stops. *)
Fixpoint contiguous_from (t0 : Z) (notes : list note_spec) : Prop :=
  match notes with
  | [] => True
  | n :: notes' =>
      n_start n = t0 /\ contiguous_from (t0 + n_dur n) notes'
  end.

(** The summed durations of a list of notes. *)
Definition total_duration (notes : list note_spec) : Z :=
  fold_right (fun n acc => n_dur n + acc) 0 notes.

(** What a Bass event carries: channel 1, a velocity from 50 to 100, and
    the first or third entry of one of the chords, possibly moved by an
    octave. *)
Definition bass_event_ok (chords : list (list Z)) (note vel chan : Z) : Prop :=
  chan = 1 /\ 50 <= vel <= 100
  /\ exists chord base,
      In chord chords
      /\ (nth_error chord 0 = Some base \/ nth_error chord 2 = Some base)
      /\ octave_shifted base note.

(** What a Harmony event carries: channel 2, a velocity from 40 to 90,
    and a note of one of the chords. *)
Definition harmony_event_ok (chords : list (list Z)) (note vel chan : Z)
  : Prop :=
  chan = 2 /\ 40 <= vel <= 90 /\ exists chord, In chord chords /\ In note chord.

(** What a Melody event carries: channel 0, a velocity from 60 to 127,
    and a note of the scale, possibly moved by an octave. *)
Definition melody_event_ok (scale_notes : list Z) (note vel chan : Z) : Prop :=
  chan = 0 /\ 60 <= vel <= 127
  /\ exists base, In base scale_notes /\ octave_shifted base note.

(** What a drum event carries: channel 9, a velocity from 40 to 120, and
    one of the drum notes. *)
Definition drum_event_ok (note vel chan : Z) : Prop :=
  chan = 9 /\ 40 <= vel <= 120 /\ In note DRUM_NOTES.

(** The shape of a Harmony track: pairs of events whose pitches, read in
    order, are a sequence of presses, each press a rearrangement of one of
    the chords. *)
Definition harmony_shape (chords : list (list Z)) (evs : list event) : Prop :=
  exists notes presses,
    paired_by notes evs
    /\ map n_pitch notes = concat presses
    /\ Forall (fun press => exists chord, In chord chords /\ Permutation chord press)
         presses.

(** The state [(track_events, current_time, lsys_idx)] of the Melody
    loops: the events are the pairs of notes laid end to end from tick 0,
    the cursor stands at their summed duration, which is at most [B]. *)
Definition melody_line (B : Z) (st : list event * Z * Z) : Prop :=
  exists notes,
    fst (fst st) = flat_map note_events notes
    /\ contiguous_from 0 notes
    /\ Forall (fun n => 0 <= n_dur n) notes
    /\ snd (fst st) = total_duration notes
    /\ total_duration notes <= B.

(** The four events of the fixed kick and snare of measure [i] in 4/4,
    each hit lasting [d] ticks. *)
Definition backbone (tpb d i : Z) : list event :=
  [mk_event (i * 4 * tpb) note_on 36 100 9;
   mk_event (i * 4 * tpb + d) note_off 36 100 9;
   mk_event (i * 4 * tpb + 2 * tpb) note_on 38 100 9;
   mk_event (i * 4 * tpb + 2 * tpb + d) note_off 38 100 9].

(** The state of the drum loop after [k] measures. *)
Definition drum_inv (bpm tpb : Z) (k : nat) (evs : list event) : Prop :=
  events_carry drum_event_ok evs
  /\ (if bpm =? 4
      then 8 * Z.of_nat k <= Z.of_nat (length evs) <= 20 * Z.of_nat k
      else 4 * Z.of_nat k <= Z.of_nat (length evs) <= 16 * Z.of_nat k)
  /\ (bpm = 4 ->
      forall i, 0 <= i < Z.of_nat k ->
                exists d, tenth_of_beat tpb = Ok d
                          /\ incl (backbone tpb d i) evs).

(** A chord built on a degree of the key: a triad whose root is the key
    root plus one of the intervals of the mode. *)
Definition chord_in_key (key_root : Z) (intervals : list Z) (chord : list Z)
  : Prop :=
  exists interval,
    In interval intervals
    /\ (chord = [key_root + interval; key_root + interval + 4;
                 key_root + interval + 7]
        \/ chord = [key_root + interval; key_root + interval + 3;
                    key_root + interval + 7]).

(** [int(60000000 / tempo_bpm)], the tempo written to the control track. *)
Definition microseconds_per_beat (tempo_bpm : Z) : result Z :=
  result_bind (py_truediv_int 60000000 tempo_bpm) int_of_float.

(** The channel that [combine_and_write_midi] gives the program change of
    a track, by the track's name. *)
Definition track_channel (name : string) : Z :=
  if String.eqb name "Drums" then 9
  else if String.eqb name "Bass" then 1
  else if String.eqb name "Harmony" then 2
  else 0.

(** The track written for the entry [(name, events)]: a program change
    at time 0 on the channel of the name, with program 0 for the drums and
    one of the listed instruments otherwise; then one note message per
    event, in stable tick order, with delta times; then the end-of-track
    marker. *)
Definition track_of (entry : string * list event) (track : list Message)
  : Prop :=
  let '(name, events) := entry in
  exists program body,
    track = program_change program (track_channel name) 0
            :: body ++ [end_of_track 0]
    /\ (if String.eqb name "Drums" then program = 0
        else In program RANDOM_INSTRUMENTS)
    /\ map msg_payload body = map ev_payload (sorted ev_tick events)
    /\ map msg_time body = tick_deltas 0 (map ev_tick (sorted ev_tick events)).

(** Does [int(60000000 / tempo)] give the floor of the quotient? *)
Definition tempo_exact (tempo : Z) : bool :=
  match microseconds_per_beat tempo with
  | Ok us => us =? 60000000 / tempo
  | Raise _ => false
  end.

(** A float that is a zero or a finite number whose mantissa is below
    [2 ^ K] and whose exponent is at most [E]: neither an infinity nor a
    NaN. *)
Definition float_bounded (K E : Z) (f : float) : Prop :=
  match f with
  | S754_zero _ => True
  | S754_finite _ m e => Z.pos m < 2 ^ K /\ e <= E
  | _ => False
  end.

(** An event on channel [chan] whose data fit a MIDI file: pitch and
    velocity between 0 and 127, on a tick that is not negative. *)
Definition event_valid (chan : Z) (e : event) : Prop :=
  ev_channel e = chan /\ 0 <= ev_note e <= 127 /\ 0 <= ev_velocity e <= 127
  /\ 0 <= ev_tick e.

(** A note message on channel [chan] whose data fit a MIDI file: pitch
    and velocity between 0 and 127, and a delta time that is not
    negative. *)
Definition note_msg_valid (chan : Z) (m : Message) : Prop :=
  match m with
  | msg_note_on note velocity time channel
  | msg_note_off note velocity time channel =>
      channel = chan /\ 0 <= note <= 127 /\ 0 <= velocity <= 127 /\ 0 <= time
  | _ => False
  end.

(** A written track: a program change at time 0 on channel [chan] to one
    of [programs], then valid note messages of that channel only, then
    the end-of-track marker. *)
Definition track_valid (chan : Z) (programs : list Z) (track : list Message)
  : Prop :=
  exists program body,
    track = program_change program chan 0 :: body ++ [end_of_track 0]
    /\ In program programs
    /\ Forall (note_msg_valid chan) body.

(** ** The three prompts of the script

    What is typed at a prompt reaches the script as [typed]: [Some n]
    when the stripped line is not empty and [int(...)] accepts it as [n],
    [None] when the line is empty or [int(...)] raises; the script draws
    at random in both of the latter cases. *)

Definition prompt_measures (typed : option Z) : Rand Z :=
  match typed with
  | Some total_measures => ret total_measures
  | None => randint 4 16
  end.

Definition prompt_beats (typed : option Z) : Rand Z :=
  match typed with
  | Some beats_per_measure => ret beats_per_measure
  | None => randint 3 9
  end.

Definition prompt_tempo (typed : option Z) : Rand Z :=
  match typed with
  | Some user_tempo =>
      if user_tempo <? 1 then randint 60 180 else ret user_tempo
  | None => randint 60 180
  end.

(** The run of the script from its first prompt; [out_name] is the file
    name that the last prompt settles on. *)
Definition script (typed_measures typed_beats typed_tempo : option Z)
  (out_name : string) : Rand (string * MidiFile) :=
  total_measures <- prompt_measures typed_measures ;;
  beats_per_measure <- prompt_beats typed_beats ;;
  user_tempo <- prompt_tempo typed_tempo ;;
  main total_measures beats_per_measure user_tempo out_name.

(** ** The name of the file

    Names are read as ASCII strings: [str.lower] maps the letters A to Z
    to a to z and keeps every other character. *)

Definition ascii_lower (c : ascii) : ascii :=
  let n := nat_of_ascii c in
  if (65 <=? n)%nat && (n <=? 90)%nat then ascii_of_nat (n + 32) else c.

Fixpoint lower (s : string) : string :=
  match s with
  | EmptyString => EmptyString
  | String c s' => String (ascii_lower c) (lower s')
  end.

(** [s.endswith(suffix)] *)
Fixpoint endswith (s suffix : string) : bool :=
  String.eqb s suffix
  || match s with
     | EmptyString => false
     | String _ s' => endswith s' suffix
     end.

(** The file name settled by the last prompt, from the stripped line
    [user_input_name]. *)
Definition out_name_of (user_input_name : string) : string :=
  let default_filename := "holy_random.mid"%string in
  match user_input_name with
  | EmptyString => default_filename
  | _ =>
      if negb (endswith (lower user_input_name) ".mid")
      then (user_input_name ++ ".mid")%string
      else user_input_name
  end.

(** An event whose data fit a note message: pitch and velocity between
    0 and 127, channel between 0 and 15. *)
Definition event_bytes_valid (e : event) : Prop :=
  0 <= ev_note e <= 127 /\ 0 <= ev_velocity e <= 127
  /\ 0 <= ev_channel e <= 15.

(** ** The chord loops after the draw of their count

    Each of the three loop bodies draws a count and then divides the
    chord length by it; these are the rest of each body, from the
    division on, as functions of the count. *)




(** The events of a dict entry can be written to a file: their data fit
    a note message and no tick is negative. *)
Definition entry_writable (entry : string * list event) : Prop :=
  Forall event_bytes_valid (snd entry)
  /\ Forall (fun e => 0 <= ev_tick e) (snd entry).

(** Is the value [int(60000000 / tempo)] refused by the tempo message? *)
Definition tempo_refused (tempo : Z) : bool :=
  match microseconds_per_beat tempo with
  | Ok us => negb (tempo_value us)
  | Raise _ => false
  end.

(* ================================================================== *)
(** * Part II: properties *)
(* ================================================================== *)

(** ** Rules for runs *)

Section WpRules.
Context {A B : Type} (R : Prop).

Lemma wpx_ret (a : A) (Q : A -> nat -> Prop) t c :
  Q a c -> wpx R (ret a) Q t c.
Proof. intro H; exact H. Qed.

Lemma wpx_bind (m : Rand A) (k : A -> Rand B) (Q : B -> nat -> Prop) t c :
  wpx R m (fun a c' => wpx R (k a) Q t c') t c ->
  wpx R (bind m k) Q t c.
Proof.
  unfold wpx, bind. destruct (m t c) as [[a c']|e]; auto.
Qed.

Lemma wpx_mono (m : Rand A) (Q Q' : A -> nat -> Prop) t c :
  wpx R m Q t c -> (forall a c', Q a c' -> Q' a c') -> wpx R m Q' t c.
Proof.
  unfold wpx. destruct (m t c) as [[a c']|e]; auto.
Qed.

Lemma wpx_lift (r : result A) (Q : A -> nat -> Prop) t c :
  match r with Ok a => Q a c | Raise _ => R end ->
  wpx R (lift r) Q t c.
Proof. unfold wpx, lift. destruct r; auto. Qed.

Lemma wpx_lift_ok (r : result A) (a : A) (Q : A -> nat -> Prop) t c :
  r = Ok a -> Q a c -> wpx R (lift r) Q t c.
Proof. intros -> H. exact H. Qed.

Lemma wpx_inv (m : Rand A) (Q : A -> nat -> Prop) t c a c' :
  wpx R m Q t c -> m t c = Ok (a, c') -> Q a c'.
Proof. unfold wpx. intros H E. rewrite E in H. exact H. Qed.
End WpRules.

Lemma wpx_total_inv {A} (m : Rand A) (Q : A -> nat -> Prop) t c :
wpx False m Q t c -> exists a c', m t c = Ok (a, c') /\ Q a c'.
Proof.
unfold wpx. destruct (m t c) as [[a c']|e]; [eauto | tauto].
Qed.

Lemma wpx_weaken {A} (R : Prop) (m : Rand A) (Q : A -> nat -> Prop) t c :
wpx False m Q t c -> wpx R m Q t c.
Proof.
unfold wpx. destruct (m t c) as [[a c']|e]; [auto | tauto].
Qed.

Section WpRandom.
Context (R : Prop).

Lemma wpx_draw (Q : Z -> nat -> Prop) t c :
  Q (t c) (S c) -> wpx R draw Q t c.
Proof. intro H; exact H. Qed.

Lemma wpx_randbelow n (Q : Z -> nat -> Prop) t c :
  0 < n -> (forall k, 0 <= k < n -> Q k (S c)) -> wpx R (randbelow n) Q t c.
Proof.
  intros Hn H. unfold randbelow. apply wpx_bind, wpx_draw, wpx_ret.
  apply H. apply Z.mod_pos_bound; lia.
Qed.

Lemma wpx_randint a b (Q : Z -> nat -> Prop) t c :
  a <= b -> (forall k, a <= k <= b -> Q k (S c)) -> wpx R (randint a b) Q t c.
Proof.
  intros Hab H. unfold randint.
  destruct (Z.leb_spec (b - a + 1) 0); [lia|].
  apply wpx_bind, wpx_randbelow; [lia|].
  intros k Hk. apply wpx_ret, H. lia.
Qed.

Lemma wpx_random (Q : float -> nat -> Prop) t c :
  Q (random_at t c) (S c) -> wpx R random Q t c.
Proof. intro H; exact H. Qed.
End WpRandom.

(** ** Python lists *)

Lemma py_index_ok {A} (l : list A) (i : Z) :
  0 <= i < Z.of_nat (length l) ->
  exists a, py_index l i = Ok a /\ nth_error l (Z.to_nat i) = Some a.
Proof.
  intros Hi. unfold py_index.
  destruct (Z.ltb_spec i 0); [lia|].
  destruct (Z.ltb_spec i 0); [lia|].
  destruct (Z.leb_spec (Z.of_nat (length l)) i); [lia|].
  cbn [orb].
  destruct (nth_error l (Z.to_nat i)) as [a|] eqn:E; [eauto|].
  apply nth_error_None in E. lia.
Qed.

Lemma py_index_In {A} (l : list A) (i : Z) (a : A) :
  py_index l i = Ok a -> In a l.
Proof.
  unfold py_index.
  destruct (_ || _); [discriminate|].
  destruct (nth_error l _) as [x|] eqn:E; [|discriminate].
  intros [= <-]. eapply nth_error_In; eauto.
Qed.

Lemma wpx_choice {A} (R : Prop) (seq : list A) (Q : A -> nat -> Prop) t c :
  seq <> [] -> (forall x, In x seq -> Q x (S c)) -> wpx R (choice seq) Q t c.
Proof.
  intros Hne H. unfold choice. destruct seq as [|x0 seq']; [congruence|].
  set (seq := x0 :: seq') in *.
  apply wpx_bind, wpx_randbelow.
  - subst seq. cbn [length]. lia.
  - intros k Hk. destruct (py_index_ok seq k Hk) as (a & Ea & Hn).
    eapply wpx_lift_ok; [exact Ea|]. apply H. eapply nth_error_In; eauto.
Qed.

(** ** Loops *)

Lemma wpx_for_range_gen {S} (R : Prop) (body : S -> Rand S)
  (I : nat -> S -> Prop) (n : nat) :
  forall k s t c,
    (forall i s t c, (k <= i < k + n)%nat -> I i s ->
                     wpx R (body s) (fun s' _ => I (Datatypes.S i) s') t c) ->
    I k s ->
    wpx R (for_range n body s) (fun s' _ => I (k + n)%nat s') t c.
Proof.
  induction n as [|n IH]; intros k s t c Hbody Hs; cbn [for_range].
  - apply wpx_ret. now rewrite Nat.add_0_r.
  - apply wpx_bind. eapply wpx_mono; [apply (Hbody k); [lia | exact Hs]|].
    intros s' c' Hs'. cbn beta.
    replace (k + Datatypes.S n)%nat with (Datatypes.S k + n)%nat by lia.
    apply IH; [|exact Hs'].
    intros i s0 t0 c0 Hi. apply Hbody. lia.
Qed.

Lemma wpx_for_range {S} (R : Prop) (body : S -> Rand S)
  (I : nat -> S -> Prop) (n : nat) s t c :
  I O s ->
  (forall i s t c, (i < n)%nat -> I i s ->
                   wpx R (body s) (fun s' _ => I (Datatypes.S i) s') t c) ->
  wpx R (for_range n body s) (fun s' _ => I n s') t c.
Proof.
  intros H0 Hbody.
  apply (wpx_for_range_gen R body I n O); [|exact H0].
  intros i s0 t0 c0 Hi. apply Hbody. lia.
Qed.

Lemma wpx_for_range_from {S} (R : Prop) (body : Z -> S -> Rand S)
  (I : S -> Prop) (n : nat) :
  forall i0 s t c,
    I s ->
    (forall i s t c, I s -> wpx R (body i s) (fun s' _ => I s') t c) ->
    wpx R (for_range_from i0 n body s) (fun s' _ => I s') t c.
Proof.
  induction n as [|n IH]; intros i0 s t c Hs Hbody; cbn [for_range_from].
  - now apply wpx_ret.
  - apply wpx_bind. eapply wpx_mono; [apply Hbody, Hs|].
    intros s' c' Hs'. now apply IH.
Qed.

Lemma wpx_for_each_gen {A S} (R : Prop) (body : A -> S -> Rand S)
  (I : nat -> S -> Prop) (xs : list A) :
  forall k s t c,
    (forall i x s t c, nth_error xs i = Some x -> I (k + i)%nat s ->
                       wpx R (body x s) (fun s' _ => I (Datatypes.S (k + i)) s') t c) ->
    I k s ->
    wpx R (for_each xs body s) (fun s' _ => I (k + length xs)%nat s') t c.
Proof.
  induction xs as [|x xs IH]; intros k s t c Hbody Hs; cbn [for_each length].
  - apply wpx_ret. now rewrite Nat.add_0_r.
  - apply wpx_bind. eapply wpx_mono.
    + apply (Hbody O x); [reflexivity|]. now rewrite Nat.add_0_r.
    + intros s' c' Hs'. cbn beta. rewrite Nat.add_0_r in Hs'.
      replace (k + Datatypes.S (length xs))%nat
        with (Datatypes.S k + length xs)%nat by lia.
      apply IH; [|exact Hs'].
      intros i y s0 t0 c0 Hy Hi.
      replace (Datatypes.S k + i)%nat with (k + Datatypes.S i)%nat in * by lia.
      now apply (Hbody (Datatypes.S i) y).
Qed.

Lemma wpx_for_each {A S} (R : Prop) (body : A -> S -> Rand S)
  (I : nat -> S -> Prop) (xs : list A) s t c :
  I O s ->
  (forall i x s t c, nth_error xs i = Some x -> I i s ->
                     wpx R (body x s) (fun s' _ => I (Datatypes.S i) s') t c) ->
  wpx R (for_each xs body s) (fun s' _ => I (length xs) s') t c.
Proof.
  intros H0 Hbody.
  apply (wpx_for_each_gen R body I xs O); [|exact H0].
  intros i x s0 t0 c0 Hx Hi. now apply Hbody.
Qed.

Lemma wpx_list_comp {A} (R : Prop) (m : Rand A) (P : A -> Prop) (n : nat) :
  (forall t c, wpx R m (fun a _ => P a) t c) ->
  forall t c,
    wpx R (list_comp n m) (fun l _ => length l = n /\ Forall P l) t c.
Proof.
  intros Hm. induction n as [|n IH]; intros t c; cbn [list_comp].
  - apply wpx_ret. split; [reflexivity | constructor].
  - apply wpx_bind. eapply wpx_mono; [apply Hm|].
    intros a c' Ha. apply wpx_bind. eapply wpx_mono; [apply IH|].
    intros l c'' [Hl HP]. apply wpx_ret. cbn [length]. split; [lia|].
    now constructor.
Qed.

(** ** The L-system *)

Lemma string_length_app (s1 s2 : string) :
  String.length (s1 ++ s2) = (String.length s1 + String.length s2)%nat.
Proof. induction s1 as [|a s1 IH]; cbn; [reflexivity | now rewrite IH]. Qed.

Lemma string_app_nil_r (s : string) : (s ++ "")%string = s.
Proof. induction s as [|a s IH]; cbn; [reflexivity | now rewrite IH]. Qed.

Lemma string_app_assoc (s1 s2 s3 : string) :
  ((s1 ++ s2) ++ s3)%string = (s1 ++ (s2 ++ s3))%string.
Proof. induction s1 as [|a s1 IH]; cbn; [reflexivity | now rewrite IH]. Qed.

Lemma concat_empty_cons (x : string) (xs : list string) :
  String.concat "" (x :: xs) = (x ++ String.concat "" xs)%string.
Proof.
  destruct xs as [|y ys]; cbn [String.concat].
  - now rewrite string_app_nil_r.
  - reflexivity.
Qed.

Lemma concat_empty_app (l1 l2 : list string) :
  String.concat "" (l1 ++ l2)
  = (String.concat "" l1 ++ String.concat "" l2)%string.
Proof.
  induction l1 as [|x l1 IH].
  - reflexivity.
  - rewrite <- app_comm_cons, !concat_empty_cons, IH.
    now rewrite string_app_assoc.
Qed.

Lemma rewrite_pass_app rules (s1 s2 : string) :
  rewrite_pass rules (s1 ++ s2)
  = rewrite_pass rules s1 ++ rewrite_pass rules s2.
Proof.
  induction s1 as [|a s1 IH]; cbn; [reflexivity | now rewrite IH].
Qed.

Lemma l_system_loop_succ rules (n : nat) (cur : string) :
  l_system_loop (S n) rules cur
  = String.concat "" (rewrite_pass rules (l_system_loop n rules cur)).
Proof.
  revert cur. induction n as [|n IH]; intro cur.
  - reflexivity.
  - change (l_system_loop (S (S n)) rules cur)
      with (l_system_loop (S n) rules (String.concat "" (rewrite_pass rules cur))).
    rewrite IH. reflexivity.
Qed.

(** The expansions are the Fibonacci words: each is the previous one
    followed by the one before. *)
Lemma fibonacci_word (n : nat) :
  l_system_loop (S (S n)) lsystem_rules "A"
  = (l_system_loop (S n) lsystem_rules "A"
     ++ l_system_loop n lsystem_rules "A")%string.
Proof.
  induction n as [|n IH].
  - reflexivity.
  - etransitivity; [apply l_system_loop_succ|].
    etransitivity; [apply f_equal, f_equal, IH|].
    rewrite rewrite_pass_app, concat_empty_app.
    f_equal; symmetry; apply l_system_loop_succ.
Qed.

Lemma list_ascii_of_string_app (s1 s2 : string) :
  list_ascii_of_string (s1 ++ s2)
  = list_ascii_of_string s1 ++ list_ascii_of_string s2.
Proof. induction s1 as [|a s1 IH]; cbn; [reflexivity | now rewrite IH]. Qed.

Lemma l_system_ab_only (n : nat) :
  ab_only (l_system_loop n lsystem_rules "A").
Proof.
  assert (H : ab_only (l_system_loop n lsystem_rules "A")
              /\ ab_only (l_system_loop (S n) lsystem_rules "A")).
  { induction n as [|n [IH1 IH2]].
    - split; unfold ab_only; cbn;
        repeat (apply Forall_cons; [auto|]); apply Forall_nil.
    - split; [exact IH2|]. rewrite fibonacci_word. unfold ab_only.
      rewrite list_ascii_of_string_app. apply Forall_app. now split. }
  apply H.
Qed.

Lemma length_list_ascii_of_string (s : string) :
  length (list_ascii_of_string s) = String.length s.
Proof. induction s as [|a s IH]; cbn; [reflexivity | now rewrite IH]. Qed.

Lemma lsystem_durations_values (depth : Z) :
  length (lsystem_durations depth)
  = String.length (l_system "A" lsystem_rules depth)
  /\ Forall (fun d => d = f_1_0 \/ d = f_0_5) (lsystem_durations depth).
Proof.
  unfold lsystem_durations. rewrite length_map, length_list_ascii_of_string.
  split; [reflexivity|].
  apply Forall_map, Forall_forall. intros c _.
  destruct (Ascii.eqb c "A"); auto.
Qed.

Lemma lsystem_durations_nth (depth : Z) (i : nat) (c : ascii) :
  nth_error (list_ascii_of_string (l_system "A" lsystem_rules depth)) i = Some c ->
  (c = "A"%char /\ nth_error (lsystem_durations depth) i = Some f_1_0)
  \/ (c = "B"%char /\ nth_error (lsystem_durations depth) i = Some f_0_5).
Proof.
  intro Hc. unfold lsystem_durations. rewrite nth_error_map, Hc. cbn [option_map].
  assert (Hab : c = "A"%char \/ c = "B"%char).
  { pose proof (l_system_ab_only (Z.to_nat depth)) as H.
    unfold ab_only in H. rewrite Forall_forall in H.
    apply H. eapply nth_error_In. exact Hc. }
  destruct Hab as [-> | ->]; [left | right]; split; reflexivity.
Qed.

(** ** Runs that may raise *)

Lemma wpx_randint_any a b (Q : Z -> nat -> Prop) t c :
  (forall k, a <= k <= b -> Q k (S c)) -> wpx True (randint a b) Q t c.
Proof.
  intro H. destruct (Z_le_gt_dec a b) as [Hab|Hab].
  - now apply wpx_randint.
  - unfold randint, wpx, raise.
    destruct (Z.leb_spec (b - a + 1) 0); [exact I | lia].
Qed.

Lemma wpx_choice_any {A} (seq : list A) (Q : A -> nat -> Prop) t c :
  (forall x, In x seq -> Q x (S c)) -> wpx True (choice seq) Q t c.
Proof.
  intro H. destruct seq as [|x seq'] eqn:E.
  - exact I.
  - rewrite <- E in *. apply wpx_choice; [congruence | exact H].
Qed.

(** One melody note: what a returning run of the loop body has done. *)
Lemma melody_note_partial scale_notes phrase durations_list tpb sub_tick
  evs cur idx t c :
  wpx True
    (melody_note scale_notes phrase durations_list tpb sub_tick (evs, cur, idx))
    (fun st' _ =>
       exists base note vel d nd,
         In base scale_notes
         /\ octave_shifted base note
         /\ py_index durations_list (idx mod Z.of_nat (length durations_list))
            = Ok d
         /\ note_dur_ticks d tpb = Ok nd
         /\ st' = (add_note evs note vel cur (Z.min nd sub_tick) 0,
                   cur + Z.min nd sub_tick, idx + 1))
    t c.
Proof.
  unfold melody_note.
  apply wpx_bind, wpx_choice_any. intros note_idx _.
  apply wpx_bind, wpx_lift.
  destruct (py_index scale_notes note_idx) as [base|] eqn:Eb; [|exact I].
  apply py_index_In in Eb.
  apply wpx_bind.
  apply wpx_mono with (Q := fun note _ => octave_shifted base note).
  { unfold melody_octave_shift, octave_shifted. apply wpx_bind, wpx_random.
    destruct (fltb _ _); [apply wpx_ret; auto|].
    apply wpx_bind, wpx_random.
    destruct (fltb _ _); apply wpx_ret; auto. }
  intros note c1 Hnote.
  apply wpx_bind, wpx_lift. unfold py_mod.
  destruct (Z.of_nat (length durations_list) =? 0); [exact I|].
  apply wpx_bind, wpx_lift.
  destruct (py_index durations_list _) as [d|] eqn:Ed; [|exact I].
  apply wpx_bind, wpx_lift.
  destruct (note_dur_ticks d tpb) as [nd|] eqn:End; [|exact I].
  apply wpx_bind, wpx_randint_any. intros vel _.
  apply wpx_ret. exists base, note, vel, d, nd. auto.
Qed.

(** C5. Expanding the grammar A -> AB, B -> A from the axiom A gives
    strings of length 1 at depth 0 and 2 at depth 1, and from then on each
    length is the sum of the two before it.  Every symbol of an expansion
    is A or B and is mapped, position by position, to the duration 1.0
    for A and 0.5 for B.  A melody note whose loop body returns has read
    the duration at index [lsys_idx mod len(durations_list)] and left the
    index one higher. *)
Theorem C5_lsystem_fibonacci_lengths_and_cyclic_durations :
  String.length (l_system "A" lsystem_rules 0) = 1%nat
  /\ String.length (l_system "A" lsystem_rules 1) = 2%nat
  /\ (forall d : nat,
        String.length (l_system "A" lsystem_rules (Z.of_nat d + 2))
        = (String.length (l_system "A" lsystem_rules (Z.of_nat d + 1))
           + String.length (l_system "A" lsystem_rules (Z.of_nat d)))%nat)
  /\ (forall depth : Z,
        length (lsystem_durations depth)
        = String.length (l_system "A" lsystem_rules depth)
        /\ forall i c,
            nth_error (list_ascii_of_string (l_system "A" lsystem_rules depth)) i
            = Some c ->
            (c = "A"%char /\ nth_error (lsystem_durations depth) i = Some f_1_0)
            \/ (c = "B"%char
                /\ nth_error (lsystem_durations depth) i = Some f_0_5))
  /\ (forall scale_notes phrase durations_list tpb sub_tick evs cur idx t c
             evs' cur' idx' c',
        melody_note scale_notes phrase durations_list tpb sub_tick
          (evs, cur, idx) t c = Ok ((evs', cur', idx'), c') ->
        idx' = idx + 1
        /\ exists d nd,
            py_index durations_list (idx mod Z.of_nat (length durations_list))
            = Ok d
            /\ note_dur_ticks d tpb = Ok nd
            /\ cur' = cur + Z.min nd sub_tick).
Proof.
  split; [reflexivity|]. split; [reflexivity|].
  split; [|split].
  - intro d. unfold l_system.
    replace (Z.to_nat (Z.of_nat d + 2)) with (S (S d)) by lia.
    replace (Z.to_nat (Z.of_nat d + 1)) with (S d) by lia.
    rewrite Nat2Z.id, fibonacci_word. apply string_length_app.
  - intro depth. split.
    + apply lsystem_durations_values.
    + apply lsystem_durations_nth.
  - intros scale_notes phrase durations_list tpb sub_tick evs cur idx t c
      evs' cur' idx' c' Hrun.
    pose proof (melody_note_partial scale_notes phrase durations_list tpb
                  sub_tick evs cur idx t c) as H.
    eapply wpx_inv in H; [|exact Hrun].
    destruct H as (base & note & vel & d & nd & _ & _ & Hd & Hnd & [= -> -> ->]).
    split; [reflexivity|]. eauto.
Qed.

(** ** The chord progression *)

Lemma build_triads_spec (R : Prop) (b : Z) t c :
  wpx R (build_triads b)
    (fun chord c' =>
       c' = S c
       /\ chord = if fltb (random_at t c) f_0_5
                  then [b; b + 4; b + 7] else [b; b + 3; b + 7])
    t c.
Proof.
  unfold build_triads. apply wpx_bind, wpx_random.
  destruct (fltb _ _); apply wpx_ret; auto.
Qed.

Lemma is_triad_shape (chord : list Z) :
  is_triad chord -> length chord = 3%nat /\ nondecreasing chord.
Proof.
  intros [root [-> | ->]]; cbn; split; auto; lia.
Qed.

Lemma string_app_nonempty (s1 s2 : string) :
  s1 <> ""%string -> (s1 ++ s2)%string <> ""%string.
Proof. destruct s1; [congruence | discriminate]. Qed.

Lemma get_random_chord_progression_spec (num_chords : Z) t c :
  wpx False (get_random_chord_progression num_chords)
    (fun '(chords, label) _ =>
       length chords = Z.to_nat num_chords
       /\ Forall is_triad chords
       /\ exists root octave mode,
           In root note_names /\ 2 <= octave <= 5
           /\ In mode (map fst possible_modes)
           /\ label = (root ++ py_str_int octave ++ " " ++ mode)%string)
    t c.
Proof.
  unfold get_random_chord_progression.
  apply wpx_bind, wpx_choice; [discriminate|]. intros root Hroot.
  apply wpx_bind, wpx_randint; [lia|]. intros octave Hoct.
  apply wpx_bind, wpx_choice; [discriminate|]. intros mode Hmode.
  assert (Hint : exists intervals,
             dict_getitem possible_modes mode = Ok intervals /\ intervals <> []).
  { cbn in Hmode.
    destruct Hmode as [<- | [<- | [<- | [<- | []]]]];
      eexists; (split; [reflexivity | discriminate]). }
  destruct Hint as (intervals & Eint & Hne).
  apply wpx_bind. eapply wpx_lift_ok; [exact Eint|].
  apply wpx_bind.
  eapply wpx_mono.
  - apply (wpx_for_range False _
             (fun i chords => length chords = i /\ Forall is_triad chords)).
    + split; [reflexivity | constructor].
    + intros i chords t0 c0 _ [Hlen Htri].
      apply wpx_bind, wpx_choice; [exact Hne|]. intros interval _.
      apply wpx_bind. eapply wpx_mono; [apply build_triads_spec|].
      intros triad c1 [_ Htriad]. apply wpx_ret. split.
      * rewrite length_app. cbn. lia.
      * apply Forall_app. split; [exact Htri|]. constructor; [|constructor].
        eexists. rewrite Htriad. destruct (fltb _ _); auto.
  - intros chords c1 [Hlen Htri]. apply wpx_ret.
    split; [exact Hlen|]. split; [exact Htri|].
    exists root, octave, mode. auto.
Qed.

(** C4. For every chord count C >= 0 and every random tape, the chord
    builder returns (without raising) exactly C chords, each of them a
    triad [root, root+4, root+7] or [root, root+3, root+7], hence three
    pitches in non-decreasing order, with a non-empty label made of the
    root name, the octave in decimal, a space and the mode name. *)
Theorem C4_progression_has_C_ordered_triads_and_label :
  forall (C : Z) (t : tape) (c : nat),
    0 <= C ->
    exists chords label c',
      get_random_chord_progression C t c = Ok ((chords, label), c')
      /\ Z.of_nat (length chords) = C
      /\ Forall (fun chord =>
                   is_triad chord /\ length chord = 3%nat /\ nondecreasing chord)
                chords
      /\ label <> ""%string
      /\ exists root octave mode,
          In root note_names /\ 2 <= octave <= 5
          /\ In mode (map fst possible_modes)
          /\ label = (root ++ py_str_int octave ++ " " ++ mode)%string.
Proof.
  intros C t c HC.
  destruct (wpx_total_inv _ _ _ _ (get_random_chord_progression_spec C t c))
    as ([chords label] & c' & Erun & Hlen & Htri & root & octave & mode
        & Hroot & Hoct & Hmode & Hlabel).
  exists chords, label, c'. split; [exact Erun|].
  split; [lia|]. split.
  - eapply Forall_impl; [|exact Htri]. intros chord Hc.
    split; [exact Hc | now apply is_triad_shape].
  - split.
    + rewrite Hlabel. apply string_app_nonempty.
      cbn in Hroot. repeat (destruct Hroot as [<- | Hroot]; [discriminate|]).
      destruct Hroot.
    + exists root, octave, mode. auto.
Qed.

(** ** Stable sorting *)

Section StableSort.
Context {A : Type} (key : A -> Z).

Lemma insert_by_key_perm (x : A) (l : list A) :
  Permutation (x :: l) (insert_by_key key x l).
Proof.
  induction l as [|y l IH]; cbn [insert_by_key].
  - reflexivity.
  - destruct (key x <=? key y).
    + reflexivity.
    + rewrite perm_swap. now apply perm_skip.
Qed.

Lemma sorted_perm (l : list A) : Permutation l (sorted key l).
Proof.
  induction l as [|x l IH]; cbn [sorted].
  - constructor.
  - rewrite <- insert_by_key_perm. now apply perm_skip.
Qed.

Lemma insert_by_key_sorted (x : A) (l : list A) :
  key_sorted key l -> key_sorted key (insert_by_key key x l).
Proof.
  unfold key_sorted. induction 1 as [|y l Hs IH Hy]; cbn [insert_by_key].
  - repeat constructor.
  - destruct (Z.leb_spec (key x) (key y)) as [Hle|Hlt].
    + constructor; [now constructor|].
      constructor; [exact Hle|].
      eapply Forall_impl; [|exact Hy]. cbn. intros; lia.
    + constructor; [exact IH|].
      eapply Permutation_Forall; [apply insert_by_key_perm|].
      constructor; [lia | exact Hy].
Qed.

Lemma key_sorted_map (l : list A) :
  key_sorted key l -> StronglySorted Z.le (map key l).
Proof.
  unfold key_sorted. induction 1 as [|x l Hs IH Hx]; cbn [map].
  - constructor.
  - constructor; [exact IH|]. now rewrite Forall_map.
Qed.

Lemma sorted_key_sorted (l : list A) : key_sorted key (sorted key l).
Proof.
  induction l as [|x l IH]; cbn [sorted].
  - constructor.
  - now apply insert_by_key_sorted.
Qed.

(** An inserted element overtakes only elements of strictly smaller
    key, so the elements of any one key stay in their order. *)
Lemma insert_by_key_with_key (k : Z) (x : A) (l : list A) :
  with_key key k (insert_by_key key x l) = with_key key k (x :: l).
Proof.
  unfold with_key. induction l as [|y l IH]; cbn [insert_by_key].
  - reflexivity.
  - destruct (Z.leb_spec (key x) (key y)) as [Hle|Hlt]; [reflexivity|].
    cbn [filter] in *. rewrite IH.
    destruct (Z.eqb_spec (key x) k), (Z.eqb_spec (key y) k);
      try reflexivity; lia.
Qed.

Lemma sorted_stable (k : Z) (l : list A) :
  with_key key k (sorted key l) = with_key key k l.
Proof.
  induction l as [|x l IH]; cbn [sorted].
  - reflexivity.
  - rewrite insert_by_key_with_key. unfold with_key in *. cbn [filter].
    now rewrite IH.
Qed.

Lemma with_key_head (x : A) (l : list A) :
  with_key key (key x) (x :: l) = x :: with_key key (key x) l.
Proof. unfold with_key. cbn [filter]. now rewrite Z.eqb_refl. Qed.

Lemma with_key_In (k : Z) (x : A) (l : list A) :
  In x (with_key key k l) <-> In x l /\ key x = k.
Proof. unfold with_key. rewrite filter_In, Z.eqb_eq. reflexivity. Qed.

(** Two key-ordered lists that hold the same elements of every key in
    the same order are equal: the stable sorted arrangement is unique. *)
Lemma key_sorted_unique (l1 : list A) :
  forall l2,
    key_sorted key l1 -> key_sorted key l2 ->
    (forall k, with_key key k l1 = with_key key k l2) ->
    l1 = l2.
Proof.
  unfold key_sorted.
  induction l1 as [|a l1 IH]; intros l2 H1 H2 Hk.
  - destruct l2 as [|b l2]; [reflexivity|].
    specialize (Hk (key b)). rewrite with_key_head in Hk. discriminate.
  - destruct l2 as [|b l2].
    + specialize (Hk (key a)). rewrite with_key_head in Hk. discriminate.
    + inversion H1 as [|? ? H1s H1a]; subst.
      inversion H2 as [|? ? H2s H2b]; subst.
      rewrite Forall_forall in H1a, H2b.
      assert (Hab : key a = key b).
      { pose proof (Hk (key a)) as Ea. pose proof (Hk (key b)) as Eb.
        rewrite with_key_head in Ea, Eb.
        assert (Ia : In a (with_key key (key a) (b :: l2)))
          by (rewrite <- Ea; now left).
        assert (Ib : In b (with_key key (key b) (a :: l1)))
          by (rewrite Eb; now left).
        apply with_key_In in Ia, Ib.
        destruct Ia as [[<- | Ia] _]; [reflexivity|].
        destruct Ib as [[<- | Ib] _]; [reflexivity|].
        apply H2b in Ia. apply H1a in Ib. lia. }
      pose proof (Hk (key a)) as E.
      rewrite with_key_head in E. rewrite Hab, with_key_head in E.
      injection E as -> E.
      f_equal. apply IH; [assumption | assumption |].
      intro k. specialize (Hk k). unfold with_key in *. cbn [filter] in Hk.
      destruct (key b =? k); [now injection Hk | exact Hk].
Qed.

(** Whatever algorithm a stable sort uses, it returns [sorted key l]. *)
Lemma stable_sort_is_sorted (l l' : list A) :
  key_sorted key l' ->
  (forall k, with_key key k l' = with_key key k l) ->
  l' = sorted key l.
Proof.
  intros Hs Hst. apply key_sorted_unique; [exact Hs | apply sorted_key_sorted |].
  intro k. now rewrite Hst, sorted_stable.
Qed.
End StableSort.

(** ** Delta times *)

Lemma accumulate_tick_deltas (prev : Z) (ticks : list Z) :
  accumulate prev (tick_deltas prev ticks) = ticks.
Proof.
  revert prev. induction ticks as [|x ticks IH]; intro prev; cbn.
  - reflexivity.
  - replace (prev + (x - prev)) with x by lia. now rewrite IH.
Qed.

Lemma tick_deltas_nonneg (prev : Z) (ticks : list Z) :
  StronglySorted Z.le (prev :: ticks) ->
  Forall (fun d => 0 <= d) (tick_deltas prev ticks).
Proof.
  revert prev. induction ticks as [|x ticks IH]; intros prev Hs; cbn.
  - constructor.
  - inversion Hs as [|? ? Hs' Hprev]; subst.
    inversion Hprev; subst. constructor; [lia|]. now apply IH.
Qed.

Lemma Message_note_outcome (type : ev_kind) (note velocity time channel : Z) :
  (0 <= note <= 127 /\ 0 <= velocity <= 127 /\ 0 <= channel <= 15
   /\ Message_note type note velocity time channel
      = Ok (match type with
            | note_on => msg_note_on note velocity time channel
            | note_off => msg_note_off note velocity time channel
            end))
  \/ (~ (0 <= note <= 127 /\ 0 <= velocity <= 127 /\ 0 <= channel <= 15)
      /\ Message_note type note velocity time channel = Raise ValueError).
Proof.
  unfold Message_note, data_byte, channel_number.
  destruct (Z.leb_spec 0 note), (Z.leb_spec note 127),
    (Z.leb_spec 0 velocity), (Z.leb_spec velocity 127),
    (Z.leb_spec 0 channel), (Z.leb_spec channel 15); cbn [andb];
    ((left; repeat split; (assumption || reflexivity))
     || (right; split; [lia | reflexivity])).
Qed.

(** The loop over the sorted events either writes one note message per
    event, after checking each, or stops with ValueError at the first
    event whose data do not fit; it makes no draw. *)
Lemma encode_events_outcome (es : list event) :
  forall track prev t c,
    match for_each es (fun e st => lift (encode_event e st)) (track, prev) t c
    with
    | Ok ((track', last), c') =>
        c' = c /\ Forall event_bytes_valid es
        /\ exists body,
            track' = track ++ body
            /\ map msg_payload body = map ev_payload es
            /\ map msg_time body = tick_deltas prev (map ev_tick es)
    | Raise err =>
        err = ValueError /\ Exists (fun e => ~ event_bytes_valid e) es
    end.
Proof.
  induction es as [|e es IH]; intros track prev t c; cbn [for_each].
  - unfold ret. split; [reflexivity|]. split; [constructor|].
    exists []. now rewrite app_nil_r.
  - unfold bind, lift, encode_event.
    destruct (Message_note_outcome (ev_type e) (ev_note e) (ev_velocity e)
                (ev_tick e - prev) (ev_channel e))
      as [(Hn & Hv & Hc & E) | (Hbad & E)]; rewrite E; cbn [result_bind].
    + specialize (IH (track ++
                        [match ev_type e with
                         | note_on =>
                             msg_note_on (ev_note e) (ev_velocity e)
                               (ev_tick e - prev) (ev_channel e)
                         | note_off =>
                             msg_note_off (ev_note e) (ev_velocity e)
                               (ev_tick e - prev) (ev_channel e)
                         end]) (ev_tick e) t c).
      destruct (for_each es _ _ t c) as [[[track' last] c']|err].
      * destruct IH as (Hc' & Hes & body & -> & Hp & Ht).
        split; [exact Hc'|]. split; [constructor; [repeat split; lia|exact Hes]|].
        eexists (_ :: body). rewrite <- app_assoc. split; [reflexivity|].
        cbn [map tick_deltas]. rewrite Hp, Ht.
        split; [|destruct (ev_type e); reflexivity].
        f_equal. unfold ev_payload. destruct (ev_type e); reflexivity.
      * destruct IH as [Herr Hex]. split; [exact Herr|]. now apply Exists_cons_tl.
    + split; [reflexivity|]. apply Exists_cons_hd. exact Hbad.
Qed.

Lemma not_all_valid (es : list event) :
  Forall event_bytes_valid es -> Exists (fun e => ~ event_bytes_valid e) es ->
  False.
Proof.
  intros Hall Hex. apply Exists_exists in Hex. destruct Hex as (e & Hin & Hbad).
  rewrite Forall_forall in Hall. exact (Hbad (Hall e Hin)).
Qed.

(** The track of one entry: the program change, of the program and on
    the channel of the entry's name, is always accepted; then the notes. *)
Lemma combine_track_outcome (name : string) (events : list event) t c :
  match combine_track name events t c with
  | Ok (track, _) =>
      Forall event_bytes_valid events /\ track_of (name, events) track
  | Raise err =>
      err = ValueError /\ Exists (fun e => ~ event_bytes_valid e) events
  end.
Proof.
  assert (Hhead :
    wpx False
      (if String.eqb name "Drums" then lift (add_program_change [] 0 9 0)
       else
         program_num <- choice RANDOM_INSTRUMENTS ;;
         lift (add_program_change [] program_num
                 (if String.eqb name "Bass" then 1
                  else if String.eqb name "Harmony" then 2
                  else if String.eqb name "Melody" then 0 else 0) 0))
      (fun track _ =>
         exists program,
           track = [program_change program (track_channel name) 0]
           /\ if String.eqb name "Drums" then program = 0
              else In program RANDOM_INSTRUMENTS) t c).
  { unfold track_channel. destruct (String.eqb name "Drums").
    - eapply wpx_lift_ok; [reflexivity|]. exists 0. split; reflexivity.
    - apply wpx_bind, wpx_choice; [discriminate|]. intros program Hp.
      assert (Hb : 0 <= program <= 127).
      { cbn in Hp. repeat (destruct Hp as [<- | Hp]; [lia|]). destruct Hp. }
      assert (Hpc : forall chan,
                 0 <= chan <= 15 ->
                 add_program_change [] program chan 0
                 = Ok [program_change program chan 0]).
      { intros chan Hchan.
        unfold add_program_change, Message_program_change, data_byte,
          channel_number.
        replace (0 <=? program) with true by (symmetry; apply Z.leb_le; lia).
        replace (program <=? 127) with true by (symmetry; apply Z.leb_le; lia).
        replace (0 <=? chan) with true by (symmetry; apply Z.leb_le; lia).
        replace (chan <=? 15) with true by (symmetry; apply Z.leb_le; lia).
        reflexivity. }
      destruct (String.eqb name "Bass");
        [|destruct (String.eqb name "Harmony");
          [|destruct (String.eqb name "Melody")]];
        (eapply wpx_lift_ok; [apply Hpc; lia|]);
        exists program; (split; [reflexivity | exact Hp]). }
  apply wpx_total_inv in Hhead.
  destruct Hhead as (track0 & c1 & E0 & program & -> & Hprog).
  unfold combine_track. unfold bind at 1. cbn zeta. rewrite E0.
  unfold bind at 1.
  pose proof (encode_events_outcome (sorted ev_tick events)
                [program_change program (track_channel name) 0] 0 t c1) as Hloop.
  destruct (for_each (sorted ev_tick events) _ _ t c1)
    as [[[track' last] c']|err].
  - destruct Hloop as (_ & Hval & body & -> & Hp & Ht). unfold ret.
    split.
    + eapply Permutation_Forall; [apply Permutation_sym, sorted_perm|exact Hval].
    + exists program, body. cbn [app]. auto.
  - destruct Hloop as [-> Hex]. split; [reflexivity|].
    apply Exists_exists in Hex. destruct Hex as (e & Hin & Hbad).
    apply Exists_exists. exists e. split; [|exact Hbad].
    eapply Permutation_in; [apply Permutation_sym, sorted_perm | exact Hin].
Qed.

Lemma combine_track_spec (name : string) (events : list event) t c :
  Forall event_bytes_valid events ->
  wpx False (combine_track name events)
    (fun track _ => track_of (name, events) track) t c.
Proof.
  intro Hval. unfold wpx.
  pose proof (combine_track_outcome name events t c) as H.
  destruct (combine_track name events t c) as [[track c']|err].
  - exact (proj2 H).
  - exact (not_all_valid events Hval (proj2 H)).
Qed.

Lemma combine_track_partial (name : string) (events : list event) t c :
  wpx True (combine_track name events)
    (fun track _ =>
       Forall event_bytes_valid events /\ track_of (name, events) track) t c.
Proof.
  unfold wpx.
  pose proof (combine_track_outcome name events t c) as H.
  destruct (combine_track name events t c) as [[track c']|err];
    [exact H | exact I].
Qed.

(** C2. For every track handed to the merger whose events carry data
    that fit a note message (pitch and velocity from 0 to 127, channel
    from 0 to 15) on non-negative ticks, the events are reordered by a
    stable sort on the absolute tick: the sorted list is a permutation, is
    in non-decreasing tick order, and keeps the events of any one tick in
    their original order.  The track then holds one program change, one
    note message per sorted event carrying that event's kind, pitch,
    velocity and channel, and the end-of-track marker; each delta is the
    event's tick minus the previous one's, starting from 0; every delta is
    non-negative; and summing the deltas back up gives the sorted
    absolute ticks. *)
Theorem C2_serializer_stable_sort_and_delta_roundtrip :
  forall (name : string) (events : list event) (t : tape) (c : nat),
    Forall (fun e => 0 <= ev_tick e) events ->
    Forall event_bytes_valid events ->
    let events_sorted := sorted ev_tick events in
    Permutation events events_sorted
    /\ key_sorted ev_tick events_sorted
    /\ (forall k, with_key ev_tick k events_sorted = with_key ev_tick k events)
    /\ exists program chan body c',
        combine_track name events t c
        = Ok (program_change program chan 0 :: body ++ [end_of_track 0], c')
        /\ map msg_payload body = map ev_payload events_sorted
        /\ map msg_time body = tick_deltas 0 (map ev_tick events_sorted)
        /\ Forall (fun d => 0 <= d) (map msg_time body)
        /\ accumulate 0 (map msg_time body) = map ev_tick events_sorted.
Proof.
  intros name events t c Hpos Hval events_sorted.
  split; [apply sorted_perm|].
  split; [apply sorted_key_sorted|].
  split; [intro k; apply sorted_stable|].
  destruct (wpx_total_inv _ _ _ _ (combine_track_spec name events t c Hval))
    as (track & c' & Erun & program & body & -> & _ & Hp & Ht).
  exists program, (track_channel name), body, c'.
  split; [exact Erun|]. split; [exact Hp|]. split; [exact Ht|].
  rewrite Ht. split; [|apply accumulate_tick_deltas].
  apply tick_deltas_nonneg. constructor.
  - apply key_sorted_map, sorted_key_sorted.
  - rewrite Forall_map.
    eapply Permutation_Forall; [apply sorted_perm | exact Hpos].
Qed.

(** ** Empty progressions *)

Lemma create_melody_track_chaos_nil scale_notes bpc tpb t c :
  scale_notes <> [] ->
  wpx False (create_melody_track_chaos [] scale_notes bpc tpb)
    (fun evs _ => evs = []) t c.
Proof.
  intro Hne. unfold create_melody_track_chaos.
  apply wpx_bind, wpx_randint; [lia|]. intros depth _.
  apply wpx_bind, wpx_randint; [lia|]. intros phrase_length _.
  apply wpx_bind. eapply wpx_mono.
  - apply (wpx_list_comp False _ (fun _ => True)).
    intros t0 c0. apply wpx_randint; [|auto].
    destruct scale_notes; [congruence | cbn [length]; lia].
  - intros phrase c1 _. cbn [for_each]. apply wpx_bind, wpx_ret.
    now apply wpx_ret.
Qed.

(** C8. With no chords, Bass and Harmony return the empty event list
    at once, Melody (given a non-empty scale to draw its phrase from)
    returns the empty event list after its preliminary draws, and the
    chord builder asked for zero chords returns the empty progression
    with its label; none of them raises. *)
Theorem C8_zero_chords_give_empty_tracks_without_error :
  forall (scale_notes : list Z) (bpc : pynum) (tpb : Z) (t : tape) (c : nat),
    scale_notes <> [] ->
    create_bass_track_chaos [] bpc tpb t c = Ok ([], c)
    /\ create_harmony_track_chaos [] bpc tpb t c = Ok ([], c)
    /\ (exists c',
          create_melody_track_chaos [] scale_notes bpc tpb t c = Ok ([], c'))
    /\ (exists label c',
          get_random_chord_progression 0 t c = Ok (([], label), c')).
Proof.
  intros scale_notes bpc tpb t c Hne.
  split; [reflexivity|]. split; [reflexivity|]. split.
  - destruct (wpx_total_inv _ _ _ _
                (create_melody_track_chaos_nil scale_notes bpc tpb t c Hne))
      as (evs & c' & E & ->).
    eauto.
  - destruct (wpx_total_inv _ _ _ _ (get_random_chord_progression_spec 0 t c))
      as ([chords label] & c' & E & Hlen & _).
    destruct chords; [eauto | discriminate].
Qed.

(** ** Melody notes *)

Lemma melody_octave_shift_spec (R : Prop) (note : Z) t c :
  wpx R (melody_octave_shift note)
    (fun note' c' =>
       let up := fltb (random_at t c) f_0_2 in
       let down := fltb (random_at t (S c)) f_0_2 in
       note' = note + octave_shift_of up down
       /\ c' = if up then S c else S (S c))
    t c.
Proof.
  unfold melody_octave_shift, octave_shift_of.
  apply wpx_bind, wpx_random.
  destruct (fltb (random_at t c) f_0_2).
  - apply wpx_ret. auto.
  - apply wpx_bind, wpx_random.
    destruct (fltb (random_at t (S c)) f_0_2); apply wpx_ret; split; auto; lia.
Qed.

Lemma melody_note_spec scale_notes phrase durations_list tpb sub_tick
  evs cur idx t c :
  phrase <> [] ->
  (forall i, In i phrase -> 0 <= i < Z.of_nat (length scale_notes)) ->
  durations_list <> [] ->
  (forall d, In d durations_list -> exists n, note_dur_ticks d tpb = Ok n) ->
  wpx False
    (melody_note scale_notes phrase durations_list tpb sub_tick (evs, cur, idx))
    (fun st' c' =>
       exists note_idx base d_beats nd vel,
         In note_idx phrase
         /\ py_index scale_notes note_idx = Ok base
         /\ py_index durations_list (idx mod Z.of_nat (length durations_list))
            = Ok d_beats
         /\ note_dur_ticks d_beats tpb = Ok nd
         /\ 60 <= vel <= 127
         /\ let up := fltb (random_at t (S c)) f_0_2 in
            let down := fltb (random_at t (S (S c))) f_0_2 in
            let duration := Z.min nd sub_tick in
            st' = (add_note evs (base + octave_shift_of up down) vel cur
                     duration 0,
                   cur + duration, idx + 1)
            /\ c' = if up then S (S (S c)) else S (S (S (S c))))
    t c.
Proof.
  intros Hphrase Hidx Hdurs Hticks. unfold melody_note.
  apply wpx_bind, wpx_choice; [exact Hphrase|]. intros note_idx Hin.
  destruct (py_index_ok scale_notes note_idx (Hidx _ Hin)) as (base & Eb & _).
  apply wpx_bind. eapply wpx_lift_ok; [exact Eb|].
  apply wpx_bind. eapply wpx_mono; [apply melody_octave_shift_spec|].
  cbn beta zeta. intros note c1 [-> ->].
  assert (Hlen : 0 < Z.of_nat (length durations_list))
    by (destruct durations_list; [congruence | cbn [length]; lia]).
  apply wpx_bind. eapply wpx_lift_ok.
  { unfold py_mod. destruct (Z.eqb_spec (Z.of_nat (length durations_list)) 0);
      [lia | reflexivity]. }
  destruct (py_index_ok durations_list
              (idx mod Z.of_nat (length durations_list)))
    as (d & Ed & _); [apply Z.mod_pos_bound; lia|].
  apply wpx_bind. eapply wpx_lift_ok; [exact Ed|].
  destruct (Hticks d (py_index_In _ _ _ Ed)) as (nd & End).
  apply wpx_bind. eapply wpx_lift_ok; [exact End|].
  apply wpx_bind, wpx_randint; [lia|]. intros vel Hvel.
  apply wpx_ret. exists note_idx, base, d, nd, vel.
  repeat (split; [assumption || lia|]).
  split; [reflexivity|].
  destruct (fltb (random_at t (S c)) f_0_2); reflexivity.
Qed.

(** C7. A melody note, drawn from a non-empty phrase of valid scale
    indices with a usable duration list, is emitted as follows: its pitch
    is the scale entry at the phrase index chosen, plus a shift that is
    +12 exactly when the first check [random() < 0.2] succeeds, -12
    exactly when the first fails and the second check, made on a further
    draw only in that case, succeeds, and 0 otherwise; its duration is the
    smaller of the duration read cyclically from the L-system list,
    converted to ticks, and the per-note budget [sub_tick]; and the time
    cursor moves on by that duration. *)
Theorem C7_melody_note_pitch_shift_and_clamped_duration :
  forall (scale_notes phrase : list Z) (durations_list : list float)
         (tpb sub_tick : Z) (evs : list event) (cur idx : Z)
         (t : tape) (c : nat),
    phrase <> [] ->
    (forall i, In i phrase -> 0 <= i < Z.of_nat (length scale_notes)) ->
    durations_list <> [] ->
    (forall d, In d durations_list -> exists n, note_dur_ticks d tpb = Ok n) ->
    let up := fltb (random_at t (S c)) f_0_2 in
    let down := fltb (random_at t (S (S c))) f_0_2 in
    exists note_idx base d_beats nd vel shift,
      In note_idx phrase
      /\ py_index scale_notes note_idx = Ok base
      /\ py_index durations_list (idx mod Z.of_nat (length durations_list))
         = Ok d_beats
      /\ note_dur_ticks d_beats tpb = Ok nd
      /\ (shift = 12 \/ shift = 0 \/ shift = -12)
      /\ (shift = 12 <-> up = true)
      /\ (shift = -12 <-> up = false /\ down = true)
      /\ melody_note scale_notes phrase durations_list tpb sub_tick
           (evs, cur, idx) t c
         = Ok ((add_note evs (base + shift) vel cur (Z.min nd sub_tick) 0,
                cur + Z.min nd sub_tick,
                idx + 1),
               if up then S (S (S c)) else S (S (S (S c)))).
Proof.
  intros scale_notes phrase durations_list tpb sub_tick evs cur idx t c
    Hphrase Hidx Hdurs Hticks up down.
  destruct (wpx_total_inv _ _ _ _
              (melody_note_spec scale_notes phrase durations_list tpb sub_tick
                 evs cur idx t c Hphrase Hidx Hdurs Hticks))
    as (st' & c' & Erun & note_idx & base & d & nd & vel
        & Hin & Eb & Ed & End & _ & -> & ->).
  exists note_idx, base, d, nd, vel, (octave_shift_of up down).
  repeat (split; [assumption|]).
  fold up down in Erun. unfold octave_shift_of.
  split; [destruct up, down; auto|].
  split; [destruct up, down; split; intros; (reflexivity || discriminate || lia)|].
  split; [|exact Erun].
  destruct up, down; split; intros; try tauto; try lia;
    try (destruct H; discriminate).
Qed.

(** ** Pitches out of range *)

Lemma combine_track_rejects (name : string) (events : list event) t c :
  Exists (fun e => ~ event_bytes_valid e) events ->
  combine_track name events t c = Raise ValueError.
Proof.
  intro Hex. pose proof (combine_track_outcome name events t c) as H.
  destruct (combine_track name events t c) as [[track c']|err].
  - destruct (not_all_valid events (proj1 H) Hex).
  - now rewrite (proj1 H).
Qed.

Lemma out_of_range_pitch_is_not_valid (events : list event) :
  Exists (fun e => ~ midi_pitch (ev_note e)) events ->
  Exists (fun e => ~ event_bytes_valid e) events.
Proof.
  intro H. eapply Exists_impl; [|exact H].
  intros e Hp (Hn & _). exact (Hp Hn).
Qed.

(** ** Signs of float results *)

Lemma binary_round_aux_sign (sx : bool) (mx ex : Z) (lx : location) :
  match binary_round_aux 53 1024 sx mx ex lx with
  | S754_finite s _ _ => s = sx
  | S754_infinity s => s = sx
  | _ => True
  end.
Proof.
  unfold binary_round_aux.
  destruct (shr_fexp 53 1024 mx ex lx) as [mrs' e'].
  destruct (shr_fexp 53 1024 _ e' loc_Exact) as [mrs'' e''].
  destruct (shr_m mrs''); [exact I | | exact I].
  destruct (e'' <=? 1024 - 53); reflexivity.
Qed.

Lemma float_of_int_nonneg (z : Z) (f : float) :
  0 <= z -> float_of_int z = Ok f -> float_nonneg f.
Proof.
  intros Hz. unfold float_of_int, binary_normalize.
  destruct z as [|m|m]; [intros [= <-]; exact I | | lia].
  unfold binary_round.
  destruct (shl_align m 0 _) as [mz ez].
  pose proof (binary_round_aux_sign false (Z.pos mz) ez loc_Exact) as Hs.
  destruct (binary_round_aux 53 1024 false (Z.pos mz) ez loc_Exact);
    intros [= <-]; exact Hs.
Qed.

Lemma fmul_nonneg (a b : float) :
  float_nonneg a -> float_nonneg b -> float_nonneg (fmul a b).
Proof.
  unfold fmul, SFmul.
  destruct a as [sa|sa| |sa ma ea], b as [sb|sb| |sb mb eb]; cbn;
    intros Ha Hb; subst; try exact I; try reflexivity.
  pose proof (binary_round_aux_sign (xorb false false) (Z.pos (ma * mb))
                (ea + eb) loc_Exact) as Hs.
  destruct (binary_round_aux 53 1024 _ _ _ _); exact Hs || exact I.
Qed.

Lemma int_of_float_nonneg (f : float) (n : Z) :
  float_nonneg f -> int_of_float f = Ok n -> 0 <= n.
Proof.
  destruct f as [s|s| |s m e]; unfold int_of_float, float_nonneg;
    intros Hf; try discriminate.
  - intros [= <-]. lia.
  - subst s. unfold cond_Zopp. intro E.
    assert (H : 0 <= (if 0 <=? e then Z.pos m * 2 ^ e else Z.pos m / 2 ^ (- e))).
    { destruct (Z.leb_spec 0 e).
      - apply Z.mul_nonneg_nonneg; [lia | apply Z.pow_nonneg; lia].
      - apply Z.div_pos; [lia | apply Z.pow_pos_nonneg; lia]. }
    congruence.
Qed.

Lemma py_mul_nonneg (x y z : pynum) :
  pynum_nonneg x -> pynum_nonneg y -> py_mul x y = Ok z -> pynum_nonneg z.
Proof.
  destruct x as [a|a], y as [b|b]; cbn; intros Hx Hy.
  - intros [= <-]. cbn. now apply Z.mul_nonneg_nonneg.
  - destruct (float_of_int a) as [fa|] eqn:E; cbn; [|discriminate].
    intros [= <-]. cbn. apply fmul_nonneg; [|exact Hy].
    eapply float_of_int_nonneg; eauto.
  - destruct (float_of_int b) as [fb|] eqn:E; cbn; [|discriminate].
    intros [= <-]. cbn. apply fmul_nonneg; [exact Hx|].
    eapply float_of_int_nonneg; eauto.
  - intros [= <-]. cbn. now apply fmul_nonneg.
Qed.

Lemma py_int_nonneg (x : pynum) (n : Z) :
  pynum_nonneg x -> py_int x = Ok n -> 0 <= n.
Proof.
  destruct x as [a|f]; cbn.
  - now intros Ha [= <-].
  - apply int_of_float_nonneg.
Qed.

Lemma mul_int_nonneg (x : pynum) (tpb n : Z) :
  pynum_nonneg x -> 0 <= tpb ->
  result_bind (py_mul x (PyInt tpb)) py_int = Ok n -> 0 <= n.
Proof.
  intros Hx Ht. destruct (py_mul x (PyInt tpb)) as [y|] eqn:E; cbn;
    [|discriminate].
  apply py_int_nonneg.
  apply (py_mul_nonneg x (PyInt tpb) y Hx Ht E).
Qed.

Lemma chord_length_ticks_nonneg (bpc : pynum) (tpb L : Z) :
  pynum_nonneg bpc -> 0 <= tpb -> chord_length_ticks bpc tpb = Ok L -> 0 <= L.
Proof. apply mul_int_nonneg. Qed.

Lemma note_dur_ticks_nonneg (d : float) (tpb n : Z) :
  float_nonneg d -> 0 <= tpb -> note_dur_ticks d tpb = Ok n -> 0 <= n.
Proof. intro Hd. now apply (mul_int_nonneg (PyFloat d)). Qed.

Lemma tenth_of_beat_nonneg (tpb n : Z) :
  0 <= tpb -> tenth_of_beat tpb = Ok n -> 0 <= n.
Proof. now apply (mul_int_nonneg (PyFloat f_0_1)). Qed.

Lemma py_floordiv_nonneg (a b q : Z) :
  0 <= a -> 0 <= b -> py_floordiv a b = Ok q -> 0 <= q.
Proof.
  unfold py_floordiv. destruct (Z.eqb_spec b 0); [discriminate|].
  intros Ha Hb [= <-]. apply Z.div_pos; lia.
Qed.

(** ** Paired events *)

Lemma add_note_app (evs : list event) (note vel start dur chan : Z) :
  add_note evs note vel start dur chan
  = evs ++ note_events (mk_note start dur note vel chan).
Proof. unfold add_note, note_events. cbn. now rewrite <- app_assoc. Qed.

Lemma well_paired_nil : well_paired [].
Proof. exists []. split; [reflexivity | constructor]. Qed.

Lemma well_paired_add_note (evs : list event) (note vel start dur chan : Z) :
  well_paired evs -> 0 <= dur ->
  well_paired (add_note evs note vel start dur chan).
Proof.
  intros (notes & Hp & Hd) Hdur. unfold paired_by in Hp. subst evs.
  exists (notes ++ [mk_note start dur note vel chan]). split.
  - unfold paired_by. rewrite add_note_app, flat_map_app. cbn [flat_map].
    now rewrite app_nil_r.
  - apply Forall_app. split; [exact Hd|]. now repeat constructor.
Qed.

(** In a paired list the event at an even position [2 i] is a note_on
    and the next one is its note_off: same pitch, velocity and channel,
    and not earlier. *)
Lemma well_paired_nth (evs : list event) (i : nat) (e : event) :
  well_paired evs ->
  nth_error evs (2 * i) = Some e ->
  ev_type e = note_on
  /\ exists e',
      nth_error evs (2 * i + 1) = Some e'
      /\ ev_type e' = note_off
      /\ ev_note e' = ev_note e
      /\ ev_velocity e' = ev_velocity e
      /\ ev_channel e' = ev_channel e
      /\ ev_tick e <= ev_tick e'.
Proof.
  intros (notes & Hp & Hd). unfold paired_by in Hp. subst evs. revert i e.
  induction notes as [|n notes IH]; intros i e Hi.
  - destruct i; discriminate.
  - inversion Hd as [|? ? Hn Hd']; subst.
    destruct i as [|i].
    + cbn in Hi. injection Hi as <-. split; [reflexivity|].
      eexists. split; [reflexivity|]. cbn. repeat split; lia.
    + replace (2 * S i)%nat with (S (S (2 * i))) in * by lia.
      cbn [flat_map note_events app nth_error Nat.add] in *.
      destruct (IH Hd' i e Hi) as (Hon & e' & He' & H').
      split; [exact Hon|]. exists e'. split; [|exact H'].
      exact He'.
Qed.

Lemma wpx_for_range_inv {S} (R : Prop) (body : S -> Rand S) (I : S -> Prop)
  (n : nat) s t c :
  I s ->
  (forall s t c, I s -> wpx R (body s) (fun s' _ => I s') t c) ->
  wpx R (for_range n body s) (fun s' _ => I s') t c.
Proof.
  intros Hs Hbody. apply (wpx_for_range R body (fun _ => I)); [exact Hs|].
  intros i s0 t0 c0 _. apply Hbody.
Qed.

Lemma wpx_for_each_inv {A S} (R : Prop) (body : A -> S -> Rand S)
  (I : S -> Prop) (xs : list A) s t c :
  I s ->
  (forall x s t c, In x xs -> I s -> wpx R (body x s) (fun s' _ => I s') t c) ->
  wpx R (for_each xs body s) (fun s' _ => I s') t c.
Proof.
  intros Hs Hbody. apply (wpx_for_each R body (fun _ => I)); [exact Hs|].
  intros i x s0 t0 c0 Hx. apply Hbody. eapply nth_error_In; eauto.
Qed.

(** A step [v <- lift r ;; k] of a run that may raise: go on with the
    value of [r] when it has one. *)
Ltac lift_any E :=
  apply wpx_bind, wpx_lift;
  match goal with
  | |- match ?r with Ok a => @?k a | Raise e => @?h e end =>
      destruct r eqn:E; [|exact I]
  | _ => idtac
  end.

Lemma drum_track_paired (num_measures bpm tpb : Z) t c :
  0 <= tpb ->
  wpx True (create_drum_track_chaos num_measures bpm tpb)
    (fun evs _ => well_paired evs) t c.
Proof.
  intro Ht. unfold create_drum_track_chaos.
  apply wpx_for_range_from; [apply well_paired_nil|].
  clear t c. intros idx evs t c Hevs. unfold drum_measure.
  apply wpx_bind.
  apply wpx_mono with (Q := fun evs' _ => well_paired evs').
  { destruct (bpm =? 4); [|now apply wpx_ret].
    lift_any Ek. lift_any Es. apply wpx_ret.
    apply well_paired_add_note; [apply well_paired_add_note|].
    - exact Hevs.
    - eapply tenth_of_beat_nonneg; eauto.
    - eapply tenth_of_beat_nonneg; eauto. }
  clear evs Hevs. intros evs c1 Hevs.
  apply wpx_bind, wpx_randint_any. intros hits _.
  apply wpx_for_range_inv; [exact Hevs|].
  clear - Ht. intros evs t c Hevs. unfold drum_random_hit.
  apply wpx_bind, wpx_choice_any. intros note _.
  apply wpx_bind, wpx_random.
  lift_any Eo. lift_any Et. lift_any Ed.
  apply wpx_bind, wpx_randint_any. intros vel _.
  apply wpx_ret. apply well_paired_add_note; [exact Hevs|].
  eapply tenth_of_beat_nonneg; eauto.
Qed.

Lemma bass_slot_spec (R : Prop) (root fifth stl : Z) evs ts t c :
  wpx R (bass_slot root fifth stl (evs, ts))
    (fun st' _ =>
       exists note vel,
         (octave_shifted root note \/ octave_shifted fifth note)
         /\ st' = (add_note evs note vel ts stl 1, ts + stl))
    t c.
Proof.
  unfold bass_slot.
  apply wpx_bind, wpx_random.
  apply wpx_bind, wpx_random.
  apply wpx_bind.
  apply wpx_mono
    with (Q := fun shift _ => shift = -12 \/ shift = 0 \/ shift = 12).
  { destruct (fltb _ f_0_5); [|apply wpx_ret; auto].
    apply wpx_choice; [discriminate|].
    intros x [<- | [<- | [<- | []]]]; auto. }
  intros shift c1 Hshift.
  apply wpx_bind, wpx_randint; [lia|]. intros vel _.
  apply wpx_ret. eexists _, vel. split; [|reflexivity].
  unfold octave_shifted.
  destruct (fltb (random_at t c) f_0_7); [left | right]; lia.
Qed.

Lemma bass_sub_tick_length_nonneg (L subdivs s : Z) :
  0 <= L -> bass_sub_tick_length L subdivs = Ok s -> 0 <= s.
Proof.
  unfold bass_sub_tick_length. intro HL.
  destruct (Z.gtb_spec subdivs 0).
  - apply py_floordiv_nonneg; lia.
  - now intros [= <-].
Qed.

Lemma bass_track_paired (chords : list (list Z)) (bpc : pynum) (tpb : Z) t c :
  pynum_nonneg bpc -> 0 <= tpb ->
  wpx True (create_bass_track_chaos chords bpc tpb)
    (fun evs _ => well_paired evs) t c.
Proof.
  intros Hb Ht. unfold create_bass_track_chaos.
  apply wpx_bind. eapply wpx_mono.
  - apply (wpx_for_each_inv True _ (fun st => well_paired (fst st)));
      [apply well_paired_nil|].
    clear t c. intros chord [evs cur] t c _ Hevs. cbn [fst] in Hevs.
    unfold bass_chord.
    lift_any Er. lift_any Ef. lift_any EL.
    apply wpx_bind, wpx_randint_any. intros subdivs _.
    lift_any Es.
    apply wpx_bind. eapply wpx_mono.
    + apply (wpx_for_range_inv True _ (fun st => well_paired (fst st)));
        [exact Hevs|].
      clear - Hb Ht EL Es. intros [evs ts] t c Hevs. cbn [fst] in Hevs.
      eapply wpx_mono; [apply bass_slot_spec|].
      intros st' _ (note & vel & _ & ->). cbn [fst].
      apply well_paired_add_note; [exact Hevs|].
      eapply bass_sub_tick_length_nonneg; [|exact Es].
      eapply chord_length_ticks_nonneg; eauto.
    + intros [evs' ts'] c1 Hevs'. now apply wpx_ret.
  - intros [evs cur] c1 Hevs. now apply wpx_ret.
Qed.

Lemma harmony_track_paired (chords : list (list Z)) (bpc : pynum) (tpb : Z) t c :
  pynum_nonneg bpc -> 0 <= tpb ->
  wpx True (create_harmony_track_chaos chords bpc tpb)
    (fun evs _ => well_paired evs) t c.
Proof.
  intros Hb Ht. unfold create_harmony_track_chaos.
  apply wpx_bind. eapply wpx_mono.
  - apply (wpx_for_each_inv True _ (fun st => well_paired (fst st)));
      [apply well_paired_nil|].
    clear t c. intros chord [evs cur] t c _ Hevs. cbn [fst] in Hevs.
    unfold harmony_chord.
    lift_any EL.
    apply wpx_bind, wpx_randint_any. intros presses Hp.
    lift_any Ep.
    match type of Ep with
    | _ = Ok ?pl => assert (Hpl : 0 <= pl)
    end.
    { eapply py_floordiv_nonneg; [| |exact Ep]; [|lia].
      eapply chord_length_ticks_nonneg; eauto. }
    apply wpx_bind. eapply wpx_mono.
    + apply (wpx_for_range_inv True _ (fun st => well_paired (fst st)));
        [exact Hevs|].
      clear - Hpl. intros st t c Hst. unfold harmony_press.
      apply wpx_bind.
      apply wpx_mono with (Q := fun _ _ => True).
      { unfold shuffle. generalize (length chord - 1)%nat as i.
        intro i. revert chord t c.
        induction i as [|i IH]; intros chord t c; cbn [shuffle_from].
        - now apply wpx_ret.
        - apply wpx_bind, wpx_randbelow; [lia|]. intros j _. apply IH. }
      intros chord_notes c1 _.
      apply wpx_for_each_inv; [exact Hst|].
      clear - Hpl. intros note [evs ts] t c _ Hevs. cbn [fst] in Hevs.
      unfold harmony_note.
      apply wpx_bind, wpx_randint_any. intros vel _.
      lift_any En. apply wpx_ret. cbn [fst].
      apply well_paired_add_note; [exact Hevs|].
      eapply py_floordiv_nonneg; [exact Hpl | | exact En]. lia.
    + intros [evs' ts'] c1 Hevs'. now apply wpx_ret.
  - intros [evs cur] c1 Hevs. now apply wpx_ret.
Qed.

Lemma melody_sub_tick_nonneg (L n s : Z) :
  0 <= L -> 0 <= n -> melody_sub_tick L n = Ok s -> 0 <= s.
Proof.
  unfold melody_sub_tick. intros HL Hn.
  destruct (n =? 0); cbn [negb].
  - now intros [= <-].
  - now apply py_floordiv_nonneg.
Qed.

Lemma melody_track_paired (chords : list (list Z)) (scale_notes : list Z)
  (bpc : pynum) (tpb : Z) t c :
  pynum_nonneg bpc -> 0 <= tpb ->
  wpx True (create_melody_track_chaos chords scale_notes bpc tpb)
    (fun evs _ => well_paired evs) t c.
Proof.
  intros Hb Ht. unfold create_melody_track_chaos.
  apply wpx_bind, wpx_randint_any. intros depth _.
  apply wpx_bind, wpx_randint_any. intros phrase_length _.
  apply wpx_bind.
  apply wpx_mono with (Q := fun _ _ => True).
  { eapply wpx_mono; [apply (wpx_list_comp True _ (fun _ => True))|auto].
    intros t0 c0. now apply wpx_randint_any. }
  intros phrase c1 _.
  apply wpx_bind. eapply wpx_mono.
  - apply (wpx_for_each_inv True _ (fun st => well_paired (fst (fst st))));
      [apply well_paired_nil|].
    clear t c c1. intros chord st t c _ Hst. unfold melody_chord.
    lift_any EL.
    apply wpx_bind, wpx_randint_any. intros n Hn.
    lift_any Es.
    apply wpx_for_range_inv; [exact Hst|].
    clear - Hb Ht EL Es Hn. intros [[evs cur] idx] t c Hevs.
    cbn [fst] in Hevs.
    eapply wpx_mono; [apply melody_note_partial|].
    intros st' _ (base & note & vel & d & nd & _ & _ & Ed & End & ->).
    cbn [fst].
    apply well_paired_add_note; [exact Hevs|].
    apply Z.min_glb.
    + eapply note_dur_ticks_nonneg; [|exact Ht|exact End].
      apply py_index_In in Ed.
      pose proof (proj2 (lsystem_durations_values depth)) as Hv.
      rewrite Forall_forall in Hv.
      destruct (Hv _ Ed) as [-> | ->]; reflexivity.
    + eapply melody_sub_tick_nonneg; [| |exact Es]; [|lia].
      eapply chord_length_ticks_nonneg; eauto.
  - intros [[evs cur] idx] c2 Hevs. now apply wpx_ret.
Qed.

(** C3. Whatever list of events one of the four generators returns
    (for a non-negative ticks-per-beat and, where chords are timed, a
    non-negative beats-per-chord), it is the concatenation of the two
    events of its notes: for each note a note_on at the start tick [t]
    immediately followed by its one note_off at [t + d], with the same
    pitch, velocity and channel, where the duration [d] is not negative,
    so that no note_off precedes its note_on. *)
Theorem C3_generators_emit_matching_note_on_note_off_pairs :
  forall (tpb : Z) (bpc : pynum),
    0 <= tpb ->
    pynum_nonneg bpc ->
    (forall num_measures bpm t c evs c',
        create_drum_track_chaos num_measures bpm tpb t c = Ok (evs, c') ->
        well_paired evs)
    /\ (forall chords t c evs c',
          create_bass_track_chaos chords bpc tpb t c = Ok (evs, c') ->
          well_paired evs)
    /\ (forall chords t c evs c',
          create_harmony_track_chaos chords bpc tpb t c = Ok (evs, c') ->
          well_paired evs)
    /\ (forall chords scale_notes t c evs c',
          create_melody_track_chaos chords scale_notes bpc tpb t c
          = Ok (evs, c') ->
          well_paired evs).
Proof.
  intros tpb bpc Ht Hb. repeat split.
  - intros num_measures bpm t c evs c' E.
    exact (wpx_inv _ _ _ _ _ _ _ (drum_track_paired num_measures bpm tpb t c Ht) E).
  - intros chords t c evs c' E.
    exact (wpx_inv _ _ _ _ _ _ _ (bass_track_paired chords bpc tpb t c Hb Ht) E).
  - intros chords t c evs c' E.
    exact (wpx_inv _ _ _ _ _ _ _
             (harmony_track_paired chords bpc tpb t c Hb Ht) E).
  - intros chords scale_notes t c evs c' E.
    exact (wpx_inv _ _ _ _ _ _ _
             (melody_track_paired chords scale_notes bpc tpb t c Hb Ht) E).
Qed.

(** ** Chords on the tick grid *)

Lemma first_tick_app (l1 l2 : list event) :
  l1 <> [] -> first_tick (l1 ++ l2) = first_tick l1.
Proof. destruct l1; [congruence | reflexivity]. Qed.

Lemma blk_state_init (evs : list event) (cur d : Z) :
  blk_state evs cur 0 d (evs, cur).
Proof.
  exists []. rewrite app_nil_r, Z.mul_0_l, Z.add_0_r.
  split; [reflexivity|]. split; [|lia].
  split; [lia|]. split; [constructor | now left].
Qed.

Lemma blk_state_step (evs : list event) (cur j d : Z) evs' ts note vel chan :
  0 <= d -> 0 <= j ->
  blk_state evs cur j d (evs', ts) ->
  blk_state evs cur (j + 1) d (add_note evs' note vel ts d chan, ts + d).
Proof.
  intros Hd Hj (blk & [= -> ->] & (Hle & Hall & Hcase) & Hne).
  exists (blk ++ note_events (mk_note (cur + j * d) d note vel chan)).
  split; [rewrite add_note_app, app_assoc; f_equal; lia|].
  replace (cur + (j + 1) * d) with (cur + j * d + d) by lia.
  split; [|intros _ E; apply app_eq_nil in E; destruct E; discriminate].
  split; [lia|]. split.
  - apply Forall_app. split.
    + eapply Forall_impl; [|exact Hall]. cbn. intros; lia.
    + unfold note_events. cbn. repeat constructor; cbn; lia.
  - right. rewrite map_app, in_app_iff. split; [|right; cbn; auto].
    destruct Hcase as [[-> E] | [Hf _]].
    + cbn. f_equal. lia.
    + rewrite first_tick_app; [exact Hf|]. intros ->. discriminate.
Qed.

Lemma blk_state_final (evs : list event) (cur j d L : Z) (P : Z -> Prop) st :
  0 < j -> 0 <= d -> j * d <= L -> P (j * d) ->
  blk_state evs cur j d st ->
  chord_post L P evs cur (fst st, cur + L).
Proof.
  intros Hj Hd HL HP (blk & -> & (Hle & Hall & Hcase) & Hne).
  exists blk, (j * d). cbn [fst].
  split; [reflexivity|]. split; [nia|]. split; [exact HP|].
  destruct Hcase as [[-> _] | [Hf Hin]]; [now specialize (Hne Hj)|].
  auto.
Qed.

Lemma on_grid_snoc (L : Z) (blocks : list (list event)) (blk : list event) :
  on_grid L blocks ->
  first_tick blk = Some (Z.of_nat (length blocks) * L) ->
  Forall (fun e => Z.of_nat (length blocks) * L <= ev_tick e
                   <= (Z.of_nat (length blocks) + 1) * L) blk ->
  on_grid L (blocks ++ [blk]).
Proof.
  intros Hg Hf Hall k block Hk.
  destruct (Nat.lt_ge_cases k (length blocks)) as [Hlt|Hge].
  - rewrite nth_error_app1 in Hk by exact Hlt. now apply Hg.
  - rewrite nth_error_app2 in Hk by exact Hge.
    destruct (k - length blocks)%nat as [|m] eqn:E.
    + cbn in Hk. injection Hk as <-.
      replace k with (length blocks) by lia. auto.
    + cbn in Hk. destruct m; discriminate.
Qed.

(** A loop over the chords whose body satisfies [chord_post] lays its
    blocks on the grid. *)
Lemma grid_loop (body : list Z -> list event * Z -> Rand (list event * Z))
  (L : Z) (P : Z -> Prop) (chords : list (list Z)) :
  0 <= L ->
  (forall chord evs cur t c,
      In chord chords ->
      wpx False (body chord (evs, cur))
        (fun st' _ => chord_post L P evs cur st') t c) ->
  forall t c,
    wpx False (for_each chords body ([], 0))
      (fun st' _ => grid_post L P (length chords) st') t c.
Proof.
  intros HL Hbody t c.
  apply (wpx_for_each False body (grid_post L P)).
  - exists []. cbn [fst snd concat length].
    split; [reflexivity|]. split; [lia|]. split; [reflexivity|].
    split; [|lia].
    intros k block Hk. destruct k; discriminate.
  - clear t c. intros i chord [evs cur] t c Hnth
      (blocks & Hevs & Hcur & Hlen & Hg & _).
    cbn [fst snd] in Hevs, Hcur. subst evs cur.
    eapply wpx_mono; [apply Hbody; eapply nth_error_In; eauto|].
    intros st' _ (blk & used & -> & Hused & HP & Hf & Hall & Hin).
    exists (blocks ++ [blk]). cbn [fst snd].
    split; [rewrite concat_app; cbn; now rewrite app_nil_r|].
    split; [lia|]. split; [rewrite length_app; cbn; lia|].
    split.
    + apply on_grid_snoc; [exact Hg | rewrite Hlen; exact Hf | rewrite Hlen].
      eapply Forall_impl; [|exact Hall]. cbn. intros; lia.
    + intros _. exists used. split; [exact HP|].
      rewrite map_app, in_app_iff. right.
      replace ((Z.of_nat (S i) - 1) * L + used) with (Z.of_nat i * L + used)
        by lia.
      exact Hin.
Qed.

(** ** Tick spans *)

Lemma tick_span_nonneg (evs : list event) : 0 <= tick_span evs.
Proof.
  unfold tick_span. induction evs as [|e evs IH]; cbn; lia.
Qed.

Lemma tick_span_le (evs : list event) (M : Z) :
  0 <= M -> Forall (fun e => ev_tick e <= M) evs -> tick_span evs <= M.
Proof.
  intros HM. unfold tick_span. induction 1 as [|e evs He _ IH]; cbn; lia.
Qed.

Lemma tick_span_ge (evs : list event) (x : Z) :
  In x (map ev_tick evs) -> x <= tick_span evs.
Proof.
  unfold tick_span. induction evs as [|e evs IH]; cbn; [tauto|].
  intros [<- | Hin]; [lia|]. specialize (IH Hin). lia.
Qed.

Lemma on_grid_bound (L : Z) (blocks : list (list event)) :
  0 <= L -> on_grid L blocks ->
  Forall (fun e => 0 <= ev_tick e <= Z.of_nat (length blocks) * L)
         (concat blocks).
Proof.
  intros HL Hg. apply Forall_forall. intros e He.
  apply in_concat in He. destruct He as (block & Hb & He).
  apply In_nth_error in Hb. destruct Hb as (k & Hk).
  assert (Hlt : (k < length blocks)%nat)
    by (apply nth_error_Some; congruence).
  destruct (Hg k block Hk) as [_ Hall].
  rewrite Forall_forall in Hall. specialize (Hall e He). nia.
Qed.

Lemma bass_chord_grid (bpc : pynum) (tpb L : Z) (chord : list Z) evs cur t c :
  (3 <= length chord)%nat ->
  chord_length_ticks bpc tpb = Ok L -> 0 <= L ->
  wpx False (bass_chord bpc tpb chord (evs, cur))
    (fun st' _ =>
       chord_post L (fun used => exists s, 1 <= s <= 5 /\ used = s * (L / s))
         evs cur st')
    t c.
Proof.
  intros Hlen EL HL. unfold bass_chord.
  destruct (py_index_ok chord 0) as (root & Er & _); [lia|].
  destruct (py_index_ok chord 2) as (fifth & Ef & _); [lia|].
  apply wpx_bind. eapply wpx_lift_ok; [exact Er|].
  apply wpx_bind. eapply wpx_lift_ok; [exact Ef|].
  apply wpx_bind. eapply wpx_lift_ok; [exact EL|].
  apply wpx_bind, wpx_randint; [lia|]. intros subdivs Hs.
  apply wpx_bind. eapply wpx_lift_ok.
  { unfold bass_sub_tick_length, py_floordiv.
    destruct (Z.gtb_spec subdivs 0); [|lia].
    destruct (Z.eqb_spec subdivs 0); [lia | reflexivity]. }
  assert (Hd : 0 <= L / subdivs) by (apply Z.div_pos; lia).
  apply wpx_bind. eapply wpx_mono.
  - apply (wpx_for_range False _
             (fun i st => blk_state evs cur (Z.of_nat i) (L / subdivs) st)).
    + apply blk_state_init.
    + clear t c. intros i [evs' ts] t c _ Hst.
      eapply wpx_mono; [apply bass_slot_spec|].
      intros st' _ (note & vel & _ & ->).
      replace (Z.of_nat (S i)) with (Z.of_nat i + 1) by lia.
      apply blk_state_step; [exact Hd | lia | exact Hst].
  - intros [evs' ts] c1 Hst. apply wpx_ret.
    rewrite Z2Nat.id in Hst by lia.
    apply (blk_state_final evs cur subdivs (L / subdivs) L _ (evs', ts));
      [lia | exact Hd | | | exact Hst].
    + rewrite Z.mul_comm at 1. rewrite Z.mul_comm. apply Z.mul_div_le. lia.
    + exists subdivs. split; [lia | reflexivity].
Qed.

Lemma list_set_length {A} (l : list A) (i : nat) (a : A) :
  length (list_set l i a) = length l.
Proof.
  revert i. induction l as [|x l IH]; intros [|i]; cbn; auto.
Qed.

Lemma swap_length {A} (x : list A) (i j : nat) :
  length (swap x i j) = length x.
Proof.
  unfold swap. destruct (nth_error x i), (nth_error x j); auto.
  now rewrite !list_set_length.
Qed.

Lemma shuffle_spec {A} (R : Prop) (x : list A) t c :
  wpx R (shuffle x) (fun x' _ => length x' = length x) t c.
Proof.
  unfold shuffle. generalize (length x - 1)%nat as i. intro i.
  revert x t c. induction i as [|i IH]; intros x t c; cbn [shuffle_from].
  - now apply wpx_ret.
  - apply wpx_bind, wpx_randbelow; [lia|]. intros j _.
    eapply wpx_mono; [apply IH|]. cbn beta. intros x' _ ->.
    apply swap_length.
Qed.

Lemma harmony_used_bounds (L p : Z) :
  0 <= L -> 1 <= p <= 3 ->
  L - 8 <= p * 3 * (L / p / 3) <= L.
Proof.
  intros HL Hp.
  assert (p = 1 \/ p = 2 \/ p = 3) as [-> | [-> | ->]] by lia;
    Z.div_mod_to_equations; lia.
Qed.

Lemma harmony_chord_grid (bpc : pynum) (tpb L : Z) (chord : list Z)
  evs cur t c :
  length chord = 3%nat ->
  chord_length_ticks bpc tpb = Ok L -> 0 <= L ->
  wpx False (harmony_chord bpc tpb chord (evs, cur))
    (fun st' _ => chord_post L (fun used => L - 8 <= used) evs cur st')
    t c.
Proof.
  intros Hlen EL HL. unfold harmony_chord.
  apply wpx_bind. eapply wpx_lift_ok; [exact EL|].
  apply wpx_bind, wpx_randint; [lia|]. intros presses Hp.
  apply wpx_bind. eapply wpx_lift_ok.
  { unfold harmony_press_length, py_floordiv.
    destruct (Z.eqb_spec presses 0); [lia | reflexivity]. }
  set (pl := L / presses).
  assert (Hpl : 0 <= pl) by (apply Z.div_pos; lia).
  assert (Hd : 0 <= pl / 3) by (apply Z.div_pos; lia).
  apply wpx_bind. eapply wpx_mono.
  - apply (wpx_for_range False _
             (fun i st => blk_state evs cur (Z.of_nat i * 3) (pl / 3) st)).
    + apply blk_state_init.
    + clear t c. intros i st t c _ Hst. unfold harmony_press.
      apply wpx_bind. eapply wpx_mono; [apply shuffle_spec|].
      cbn beta. intros chord_notes c1 Hcn. rewrite Hlen in Hcn.
      eapply wpx_mono.
      * apply (wpx_for_each False _
                 (fun k st =>
                    blk_state evs cur (Z.of_nat i * 3 + Z.of_nat k) (pl / 3) st)).
        -- now rewrite Z.add_0_r.
        -- clear t c c1 st Hst. intros k note [evs' ts] t c _ Hst.
           unfold harmony_note.
           apply wpx_bind, wpx_randint; [lia|]. intros vel _.
           apply wpx_bind. eapply wpx_lift_ok.
           { unfold py_floordiv. rewrite Hcn. reflexivity. }
           apply wpx_ret.
           replace (Z.of_nat i * 3 + Z.of_nat (S k))
             with (Z.of_nat i * 3 + Z.of_nat k + 1) by lia.
           apply blk_state_step; [exact Hd | lia | exact Hst].
      * cbn beta. intros st' _ Hst'. rewrite Hcn in Hst'.
        replace (Z.of_nat (S i) * 3) with (Z.of_nat i * 3 + Z.of_nat 3) by lia.
        exact Hst'.
  - intros [evs' ts] c1 Hst. apply wpx_ret.
    rewrite Z2Nat.id in Hst by lia.
    pose proof (harmony_used_bounds L presses HL Hp) as Hb. fold pl in Hb.
    apply (blk_state_final evs cur (presses * 3) (pl / 3) L _ (evs', ts));
      [lia | exact Hd | lia | lia | exact Hst].
Qed.

Lemma triads_length (chords : list (list Z)) :
  Forall is_triad chords -> Forall (fun chord => length chord = 3%nat) chords.
Proof.
  apply Forall_impl. intros chord H. now apply is_triad_shape.
Qed.

Lemma bass_track_grid (chords : list (list Z)) (bpc : pynum) (tpb L : Z) t c :
  Forall is_triad chords ->
  chord_length_ticks bpc tpb = Ok L -> 0 <= L ->
  wpx False (create_bass_track_chaos chords bpc tpb)
    (fun evs _ =>
       grid_post L (fun used => exists s, 1 <= s <= 5 /\ used = s * (L / s))
         (length chords) (evs, Z.of_nat (length chords) * L))
    t c.
Proof.
  intros Htri EL HL. apply triads_length in Htri.
  rewrite Forall_forall in Htri.
  unfold create_bass_track_chaos. apply wpx_bind. eapply wpx_mono.
  - apply (grid_loop (bass_chord bpc tpb) L
             (fun used => exists s, 1 <= s <= 5 /\ used = s * (L / s))
             chords HL).
    intros chord evs cur t0 c0 Hin.
    apply bass_chord_grid; [rewrite (Htri _ Hin); lia | exact EL | exact HL].
  - intros [evs cur] c1 Hpost. apply wpx_ret.
    destruct Hpost as (blocks & H1 & H2 & H3). cbn [fst snd] in *. subst cur.
    exists blocks. auto.
Qed.

Lemma harmony_track_grid (chords : list (list Z)) (bpc : pynum) (tpb L : Z)
  t c :
  Forall is_triad chords ->
  chord_length_ticks bpc tpb = Ok L -> 0 <= L ->
  wpx False (create_harmony_track_chaos chords bpc tpb)
    (fun evs _ =>
       grid_post L (fun used => L - 8 <= used)
         (length chords) (evs, Z.of_nat (length chords) * L))
    t c.
Proof.
  intros Htri EL HL. apply triads_length in Htri.
  rewrite Forall_forall in Htri.
  unfold create_harmony_track_chaos. apply wpx_bind. eapply wpx_mono.
  - apply (grid_loop (harmony_chord bpc tpb) L (fun used => L - 8 <= used)
             chords HL).
    intros chord evs cur t0 c0 Hin.
    apply harmony_chord_grid; [exact (Htri _ Hin) | exact EL | exact HL].
  - intros [evs cur] c1 Hpost. apply wpx_ret.
    destruct Hpost as (blocks & H1 & H2 & H3). cbn [fst snd] in *. subst cur.
    exists blocks. auto.
Qed.

(** From the grid to the span of the track. *)
Lemma grid_post_span (L : Z) (P : Z -> Prop) (n : nat) (evs : list event)
  (cur : Z) :
  0 <= L ->
  grid_post L P n (evs, cur) ->
  exists blocks,
    evs = concat blocks /\ length blocks = n /\ on_grid L blocks
    /\ tick_span evs <= Z.of_nat n * L
    /\ ((0 < n)%nat ->
        exists used, P used /\ (Z.of_nat n - 1) * L + used <= tick_span evs).
Proof.
  intros HL (blocks & Hevs & _ & Hlen & Hg & Hlast). cbn [fst snd] in *.
  exists blocks. repeat (split; [assumption|]). split.
  - apply tick_span_le; [lia|]. subst evs n.
    eapply Forall_impl; [|apply on_grid_bound; eassumption].
    cbn. intros; lia.
  - intro Hn. destruct (Hlast Hn) as (used & HP & Hin).
    exists used. split; [exact HP|]. now apply tick_span_ge.
Qed.

Lemma ticks_480_divisible (b s : Z) : 1 <= s <= 5 -> (b * 480) mod s = 0.
Proof.
  intro Hs.
  assert (s = 1 \/ s = 2 \/ s = 3 \/ s = 4 \/ s = 5)
    as [-> | [-> | [-> | [-> | ->]]]] by lia.
  - apply Z.mod_1_r.
  - replace (b * 480) with (b * 240 * 2) by lia. apply Z_mod_mult.
  - replace (b * 480) with (b * 160 * 3) by lia. apply Z_mod_mult.
  - replace (b * 480) with (b * 120 * 4) by lia. apply Z_mod_mult.
  - replace (b * 480) with (b * 96 * 5) by lia. apply Z_mod_mult.
Qed.

Lemma bass_span_exact (chords : list (list Z)) (bpc : pynum) (tpb L : Z) t c :
  Forall is_triad chords ->
  chord_length_ticks bpc tpb = Ok L -> 0 <= L ->
  (forall s, 1 <= s <= 5 -> L mod s = 0) ->
  exists evs c',
    create_bass_track_chaos chords bpc tpb t c = Ok (evs, c')
    /\ tick_span evs = Z.of_nat (length chords) * L.
Proof.
  intros Htri EL HL Hdiv.
  destruct (wpx_total_inv _ _ _ _ (bass_track_grid chords bpc tpb L t c Htri EL HL))
    as (evs & c' & Erun & Hpost).
  exists evs, c'. split; [exact Erun|].
  destruct (grid_post_span _ _ _ _ _ HL Hpost)
    as (blocks & _ & _ & _ & Hle & Hlast).
  destruct chords as [|chord chords'] eqn:Ech.
  - cbn [length] in *. pose proof (tick_span_nonneg evs). lia.
  - rewrite <- Ech in *.
    destruct Hlast as (used & (s & Hs & ->) & Hge);
      [rewrite Ech; cbn [length]; lia|].
    assert (s * (L / s) = L).
    { symmetry. apply Z_div_exact_full_2; [lia | now apply Hdiv]. }
    lia.
Qed.

(** Checked by evaluation for every count of beats from 0 to 1000. *)
Lemma float_beats_exact_upto_1000 (b : Z) :
  0 <= b <= 1000 ->
  exists f,
    float_of_int b = Ok f
    /\ chord_length_ticks (PyFloat f) TICKS_PER_BEAT = Ok (b * 480).
Proof.
  intro Hb.
  assert (Hall : forallb float_beats_exact (map Z.of_nat (seq 0 1001)) = true)
    by (vm_compute; reflexivity).
  rewrite forallb_forall in Hall.
  assert (Hin : In b (map Z.of_nat (seq 0 1001))).
  { apply in_map_iff. exists (Z.to_nat b). split; [lia|].
    apply in_seq. lia. }
  specialize (Hall b Hin). unfold float_beats_exact in Hall.
  destruct (float_of_int b) as [f|]; [|discriminate].
  exists f. split; [reflexivity|].
  destruct (chord_length_ticks (PyFloat f) TICKS_PER_BEAT) as [L|];
    [|discriminate].
  apply Z.eqb_eq in Hall. now subst L.
Qed.

(** C1, as amended.  Let the chords be triads and let each chord last
    [L = int(beats_per_chord * ticks_per_beat) >= 0] ticks.  Bass and
    Harmony both return, and their events come in one block per chord
    laid on the grid of step [L]: the block of chord [k] starts on tick
    [k * L] and stays within [k * L, (k + 1) * L], so nothing drifts and
    the span of the track is at most the sum [n * L] of the chord
    durations.  Within a chord the slots are floor divisions of [L]: the
    Bass span is exactly [n * L] whenever 1, ..., 5 all divide [L], which
    holds for every whole number [b] of beats at 480 ticks per beat
    ([L = b * 480] for [b] passed as an int, and for [b] passed as a
    float as checked from 0 to 1000), while
    the Harmony span may fall short of [n * L], by at most 8 ticks.  With
    four chords of four beats at 480 ticks per beat the Bass span is
    7680. *)
Theorem C1_bass_and_harmony_chords_stay_on_the_tick_grid :
  forall (chords : list (list Z)) (bpc : pynum) (tpb L : Z) (t : tape) (c : nat),
    Forall is_triad chords ->
    chord_length_ticks bpc tpb = Ok L ->
    0 <= L ->
    let n := Z.of_nat (length chords) in
    (exists evs c' blocks,
        create_bass_track_chaos chords bpc tpb t c = Ok (evs, c')
        /\ evs = concat blocks
        /\ length blocks = length chords
        /\ on_grid L blocks
        /\ tick_span evs <= n * L
        /\ ((forall s, 1 <= s <= 5 -> L mod s = 0) -> tick_span evs = n * L))
    /\ (exists evs c' blocks,
          create_harmony_track_chaos chords bpc tpb t c = Ok (evs, c')
          /\ evs = concat blocks
          /\ length blocks = length chords
          /\ on_grid L blocks
          /\ tick_span evs <= n * L
          /\ (chords <> [] -> n * L - 8 <= tick_span evs))
    /\ (forall b,
          chord_length_ticks (PyInt b) TICKS_PER_BEAT = Ok (b * 480)
          /\ (0 <= b <= 1000 ->
              exists f,
                float_of_int b = Ok f
                /\ chord_length_ticks (PyFloat f) TICKS_PER_BEAT
                   = Ok (b * 480))
          /\ forall s, 1 <= s <= 5 -> (b * 480) mod s = 0)
    /\ (length chords = 4%nat ->
        forall beats,
          beats = PyInt 4 \/ beats = PyFloat f_4_0 ->
          exists evs c',
            create_bass_track_chaos chords beats TICKS_PER_BEAT t c
            = Ok (evs, c')
            /\ tick_span evs = 7680).
Proof.
  intros chords bpc tpb L t c Htri EL HL n. split; [|split; [|split]].
  - destruct (wpx_total_inv _ _ _ _
                (bass_track_grid chords bpc tpb L t c Htri EL HL))
      as (evs & c' & Erun & Hpost).
    destruct (grid_post_span _ _ _ _ _ HL Hpost)
      as (blocks & Hevs & Hlen & Hg & Hle & _).
    exists evs, c', blocks. repeat (split; [assumption|]).
    intro Hdiv.
    destruct (bass_span_exact chords bpc tpb L t c Htri EL HL Hdiv)
      as (evs2 & c2 & Erun2 & Hspan).
    rewrite Erun in Erun2. injection Erun2 as <- <-. exact Hspan.
  - destruct (wpx_total_inv _ _ _ _
                (harmony_track_grid chords bpc tpb L t c Htri EL HL))
      as (evs & c' & Erun & Hpost).
    destruct (grid_post_span _ _ _ _ _ HL Hpost)
      as (blocks & Hevs & Hlen & Hg & Hle & Hlast).
    exists evs, c', blocks. repeat (split; [assumption|]).
    intro Hne. destruct Hlast as (used & Hused & Hge).
    + destruct chords; [congruence | cbn [length]; lia].
    + subst n. lia.
  - intro b. split; [reflexivity|].
    split; [apply float_beats_exact_upto_1000 | apply ticks_480_divisible].
  - intros H4 beats Hbeats.
    destruct (bass_span_exact chords beats TICKS_PER_BEAT 1920 t c Htri)
      as (evs & c' & Erun & Hspan).
    + destruct Hbeats as [-> | ->]; reflexivity.
    + lia.
    + apply (ticks_480_divisible 4).
    + exists evs, c'. split; [exact Erun|]. rewrite Hspan, H4. reflexivity.
Qed.

(** C1 as first stated fails for Harmony: one chord of four beats lasts
    1920 ticks, but with three presses each note lasts
    [1920 // 3 // 3 = 213] ticks and the last note_off falls on tick
    1917. *)
Lemma C1_harmony_span_falls_short_of_chord_duration :
  chord_length_ticks (PyFloat f_4_0) TICKS_PER_BEAT = Ok 1920
  /\ exists evs c',
      create_harmony_track_chaos one_chord (PyFloat f_4_0) TICKS_PER_BEAT
        three_presses_tape 0%nat = Ok (evs, c')
      /\ tick_span evs = 1917
      /\ tick_span evs <> Z.of_nat (length one_chord) * 1920.
Proof.
  split; [reflexivity|].
  eexists _, _. split; [vm_compute; reflexivity|].
  split; [vm_compute; reflexivity | vm_compute; discriminate].
Qed.

(** ** Pitches of a whole run

    The generators do not clamp pitches (C9), but the chords and the
    scale that the script builds for them are low enough for every pitch
    of a run to stay a valid MIDI pitch. *)

Lemma pitches_within_add_note lo hi evs note vel start dur chan :
  pitches_within lo hi evs -> lo <= note <= hi ->
  pitches_within lo hi (add_note evs note vel start dur chan).
Proof.
  intros Hevs Hn. rewrite add_note_app. apply Forall_app. split; [exact Hevs|].
  repeat constructor; cbn; lia.
Qed.

Lemma note_name_to_midi_range (root : string) (octave : Z) :
  In root note_names ->
  12 * (octave + 1) <= note_name_to_midi root octave <= 12 * (octave + 1) + 11.
Proof.
  intro Hroot. unfold note_name_to_midi.
  assert (H : 0 <= dict_get note_map root 0 <= 11).
  { cbn in Hroot.
    repeat (destruct Hroot as [<- | Hroot]; [vm_compute; split; discriminate|]).
    destruct Hroot. }
  lia.
Qed.

Lemma progression_pitches (num_chords : Z) t c :
  wpx False (get_random_chord_progression num_chords)
    (fun '(chords, _) _ =>
       Forall (Forall (fun p => 36 <= p <= 101)) chords)
    t c.
Proof.
  unfold get_random_chord_progression.
  apply wpx_bind, wpx_choice; [discriminate|]. intros root Hroot.
  apply wpx_bind, wpx_randint; [lia|]. intros octave Hoct.
  pose proof (note_name_to_midi_range root octave Hroot) as Hbase.
  apply wpx_bind, wpx_choice; [discriminate|]. intros mode Hmode.
  assert (Hint : exists intervals,
             dict_getitem possible_modes mode = Ok intervals
             /\ intervals <> []
             /\ Forall (fun i => 0 <= i <= 11) intervals).
  { cbn in Hmode.
    destruct Hmode as [<- | [<- | [<- | [<- | []]]]];
      eexists; (split; [reflexivity|]); (split; [discriminate|]);
      repeat constructor; lia. }
  destruct Hint as (intervals & Eint & Hne & Hrange).
  rewrite Forall_forall in Hrange.
  apply wpx_bind. eapply wpx_lift_ok; [exact Eint|].
  apply wpx_bind. eapply wpx_mono.
  - apply (wpx_for_range_inv False _
             (fun chords => Forall (Forall (fun p => 36 <= p <= 101)) chords));
      [constructor|].
    intros chords t0 c0 Hch.
    apply wpx_bind, wpx_choice; [exact Hne|]. intros interval Hin.
    specialize (Hrange _ Hin).
    apply wpx_bind. eapply wpx_mono; [apply build_triads_spec|].
    intros triad c1 [_ ->]. apply wpx_ret.
    apply Forall_app. split; [exact Hch|]. constructor; [|constructor].
    destruct (fltb _ _); repeat constructor; lia.
  - intros chords c1 Hch. now apply wpx_ret.
Qed.

Lemma bass_pitches lo hi chords bpc tpb t c :
  Forall (Forall (fun p => lo <= p <= hi)) chords ->
  wpx True (create_bass_track_chaos chords bpc tpb)
    (fun evs _ => pitches_within (lo - 12) (hi + 12) evs) t c.
Proof.
  intro Hch. rewrite Forall_forall in Hch.
  unfold create_bass_track_chaos. apply wpx_bind. eapply wpx_mono.
  - apply (wpx_for_each_inv True _
             (fun st => pitches_within (lo - 12) (hi + 12) (fst st)));
      [constructor|].
    clear t c. intros chord [evs cur] t c Hin Hevs. cbn [fst] in Hevs.
    specialize (Hch _ Hin). rewrite Forall_forall in Hch.
    unfold bass_chord.
    lift_any Er. lift_any Ef. lift_any EL.
    apply py_index_In, Hch in Er. apply py_index_In, Hch in Ef.
    apply wpx_bind, wpx_randint_any. intros subdivs _.
    lift_any Es.
    apply wpx_bind. eapply wpx_mono.
    + apply (wpx_for_range_inv True _
               (fun st => pitches_within (lo - 12) (hi + 12) (fst st)));
        [exact Hevs|].
      clear - Er Ef. intros [evs ts] t c Hevs. cbn [fst] in Hevs.
      eapply wpx_mono; [apply bass_slot_spec|].
      intros st' _ (note & vel & Hnote & ->). cbn [fst].
      apply pitches_within_add_note; [exact Hevs|].
      unfold octave_shifted in Hnote. lia.
    + intros [evs' ts'] c1 Hevs'. now apply wpx_ret.
  - intros [evs cur] c1 Hevs. now apply wpx_ret.
Qed.

Lemma list_set_In {A} (l : list A) (i : nat) (a y : A) :
  In y (list_set l i a) -> y = a \/ In y l.
Proof.
  revert i. induction l as [|x l IH]; intros [|i]; cbn; try tauto.
  - intros [<- | H]; auto.
  - intros [<- | H]; auto. destruct (IH i H); auto.
Qed.

Lemma swap_In {A} (x : list A) (i j : nat) (y : A) :
  In y (swap x i j) -> In y x.
Proof.
  unfold swap.
  destruct (nth_error x i) as [xi|] eqn:Ei; [|auto].
  destruct (nth_error x j) as [xj|] eqn:Ej; [|auto].
  apply nth_error_In in Ei, Ej. intro H.
  apply list_set_In in H. destruct H as [-> | H]; [exact Ei|].
  apply list_set_In in H. destruct H as [-> | H]; [exact Ej | exact H].
Qed.

Lemma shuffle_In {A} (R : Prop) (x : list A) t c :
  wpx R (shuffle x) (fun x' _ => forall y, In y x' -> In y x) t c.
Proof.
  unfold shuffle. generalize (length x - 1)%nat as i. intro i.
  revert x t c. induction i as [|i IH]; intros x t c; cbn [shuffle_from].
  - now apply wpx_ret.
  - apply wpx_bind, wpx_randbelow; [lia|]. intros j _.
    eapply wpx_mono; [apply IH|]. cbn beta. intros x' _ H y Hy.
    eapply swap_In, H, Hy.
Qed.

Lemma harmony_pitches lo hi chords bpc tpb t c :
  Forall (Forall (fun p => lo <= p <= hi)) chords ->
  wpx True (create_harmony_track_chaos chords bpc tpb)
    (fun evs _ => pitches_within lo hi evs) t c.
Proof.
  intro Hch. rewrite Forall_forall in Hch.
  unfold create_harmony_track_chaos. apply wpx_bind. eapply wpx_mono.
  - apply (wpx_for_each_inv True _ (fun st => pitches_within lo hi (fst st)));
      [constructor|].
    clear t c. intros chord [evs cur] t c Hin Hevs. cbn [fst] in Hevs.
    specialize (Hch _ Hin). rewrite Forall_forall in Hch.
    unfold harmony_chord.
    lift_any EL.
    apply wpx_bind, wpx_randint_any. intros presses _.
    lift_any Ep.
    apply wpx_bind. eapply wpx_mono.
    + apply (wpx_for_range_inv True _
               (fun st => pitches_within lo hi (fst st))); [exact Hevs|].
      clear - Hch. intros st t c Hst. unfold harmony_press.
      apply wpx_bind. eapply wpx_mono; [apply shuffle_In|].
      cbn beta. intros chord_notes c1 Hcn.
      apply wpx_for_each_inv; [exact Hst|].
      clear - Hch Hcn. intros note [evs ts] t c Hin Hevs. cbn [fst] in Hevs.
      unfold harmony_note.
      apply wpx_bind, wpx_randint_any. intros vel _.
      lift_any En. apply wpx_ret. cbn [fst].
      apply pitches_within_add_note; [exact Hevs|]. apply Hch, Hcn, Hin.
    + intros [evs' ts'] c1 Hevs'. now apply wpx_ret.
  - intros [evs cur] c1 Hevs. now apply wpx_ret.
Qed.

Lemma melody_pitches lo hi chords scale_notes bpc tpb t c :
  Forall (fun p => lo <= p <= hi) scale_notes ->
  wpx True (create_melody_track_chaos chords scale_notes bpc tpb)
    (fun evs _ => pitches_within (lo - 12) (hi + 12) evs) t c.
Proof.
  intro Hsc. rewrite Forall_forall in Hsc.
  unfold create_melody_track_chaos.
  apply wpx_bind, wpx_randint_any. intros depth _.
  apply wpx_bind, wpx_randint_any. intros phrase_length _.
  apply wpx_bind.
  apply wpx_mono with (Q := fun _ _ => True).
  { eapply wpx_mono; [apply (wpx_list_comp True _ (fun _ => True))|auto].
    intros t0 c0. now apply wpx_randint_any. }
  intros phrase c1 _.
  apply wpx_bind. eapply wpx_mono.
  - apply (wpx_for_each_inv True _
             (fun st => pitches_within (lo - 12) (hi + 12) (fst (fst st))));
      [constructor|].
    clear t c c1. intros chord st t c _ Hst. unfold melody_chord.
    lift_any EL.
    apply wpx_bind, wpx_randint_any. intros n _.
    lift_any Es.
    apply wpx_for_range_inv; [exact Hst|].
    clear - Hsc. intros [[evs cur] idx] t c Hevs. cbn [fst] in Hevs.
    eapply wpx_mono; [apply melody_note_partial|].
    intros st' _ (base & note & vel & d & nd & Hb & Hn & _ & _ & ->).
    cbn [fst].
    apply pitches_within_add_note; [exact Hevs|].
    specialize (Hsc _ Hb). unfold octave_shifted in Hn. lia.
  - intros [[evs cur] idx] c2 Hevs. now apply wpx_ret.
Qed.

Lemma drum_pitches num_measures bpm tpb t c :
  wpx True (create_drum_track_chaos num_measures bpm tpb)
    (fun evs _ => pitches_within 35 57 evs) t c.
Proof.
  unfold create_drum_track_chaos.
  apply wpx_for_range_from; [constructor|].
  clear t c. intros idx evs t c Hevs. unfold drum_measure.
  apply wpx_bind.
  apply wpx_mono with (Q := fun evs' _ => pitches_within 35 57 evs').
  { destruct (bpm =? 4); [|now apply wpx_ret].
    lift_any Ek. lift_any Es. apply wpx_ret.
    repeat apply pitches_within_add_note; (exact Hevs || lia). }
  clear evs Hevs. intros evs c1 Hevs.
  apply wpx_bind, wpx_randint_any. intros hits _.
  apply wpx_for_range_inv; [exact Hevs|].
  clear. intros evs t c Hevs. unfold drum_random_hit.
  apply wpx_bind, wpx_choice_any. intros note Hnote.
  apply wpx_bind, wpx_random.
  lift_any Eo. lift_any Et. lift_any Ed.
  apply wpx_bind, wpx_randint_any. intros vel _.
  apply wpx_ret. apply pitches_within_add_note; [exact Hevs|].
  cbn in Hnote.
  repeat (destruct Hnote as [<- | Hnote]; [lia|]). destruct Hnote.
Qed.

Lemma pitches_within_weaken lo hi lo' hi' evs :
  lo' <= lo -> hi <= hi' ->
  pitches_within lo hi evs -> pitches_within lo' hi' evs.
Proof.
  intros Hlo Hhi. apply Forall_impl. intros e He. lia.
Qed.

Lemma payload_pitches lo hi (body : list Message) :
  forall evs,
    map msg_payload body = map ev_payload evs ->
    pitches_within lo hi evs ->
    Forall (msg_pitch_within lo hi) body.
Proof.
  induction body as [|m body IH]; intros [|e evs] E Hevs;
    try discriminate; [constructor|].
  cbn [map] in E. injection E as Em E.
  inversion Hevs as [|? ? He Hevs']; subst.
  constructor; [|now apply (IH evs)].
  unfold ev_payload in Em.
  destruct m; cbn in Em; try discriminate; injection Em as _ -> _ _;
    exact He.
Qed.

Lemma combine_track_pitches lo hi name events t c :
  pitches_within lo hi events ->
  wpx True (combine_track name events)
    (fun track _ => Forall (msg_pitch_within lo hi) track) t c.
Proof.
  intro Hevs. eapply wpx_mono; [apply combine_track_partial|].
  intros track _ (_ & program & body & -> & _ & Hp & _).
  constructor; [exact I|]. apply Forall_app. split.
  - apply (payload_pitches lo hi body _ Hp).
    eapply Permutation_Forall; [apply sorted_perm | exact Hevs].
  - constructor; [exact I | constructor].
Qed.

Lemma combine_and_write_midi_pitches lo hi tracks_dict filename tempo_bpm t c :
  Forall (fun entry => pitches_within lo hi (snd entry)) tracks_dict ->
  wpx True (combine_and_write_midi tracks_dict filename tempo_bpm)
    (fun '(_, mid) _ =>
       Forall (Forall (msg_pitch_within lo hi)) (mid_tracks mid))
    t c.
Proof.
  intro Hd. rewrite Forall_forall in Hd. unfold combine_and_write_midi.
  lift_any Em.
  apply wpx_bind, wpx_lift. unfold MetaMessage_set_tempo.
  destruct (tempo_value _); [|exact I].
  apply wpx_bind. eapply wpx_mono.
  - apply (wpx_for_each_inv True _
             (fun tracks => Forall (Forall (msg_pitch_within lo hi)) tracks)).
    + repeat constructor.
    + clear t c. intros [name events] tracks t c Hin Htr.
      specialize (Hd _ Hin). cbn [snd] in Hd.
      apply wpx_bind. eapply wpx_mono; [apply combine_track_pitches, Hd|].
      intros track c1 Htrack. apply wpx_ret.
      apply Forall_app. split; [exact Htr | now constructor].
  - intros tracks c1 Htr. lift_any Es. now apply wpx_ret.
Qed.

Lemma build_scale_notes_range (root : Z) (intervals : list Z) :
  In intervals scale_mode_choices ->
  Forall (fun p => root <= p <= root + 23) (build_scale_notes root intervals).
Proof.
  intro Hin. cbn in Hin.
  repeat (destruct Hin as [<- | Hin];
          [unfold build_scale_notes; cbn; repeat constructor; lia|]).
  destruct Hin.
Qed.

(** Every note message of a file written by a run carries a pitch
    between 24 and 118. *)
Lemma main_pitches_stay_valid total_measures beats_per_measure user_tempo
  out_name t c :
  wpx True (main total_measures beats_per_measure user_tempo out_name)
    (fun '(_, mid) _ =>
       Forall (Forall (msg_pitch_within 24 118)) (mid_tracks mid))
    t c.
Proof.
  unfold main.
  apply wpx_bind. eapply wpx_mono;
    [apply wpx_weaken, progression_pitches|].
  intros [chords scale_info] c1 Hch.
  lift_any Eb.
  apply wpx_bind. eapply wpx_mono; [apply drum_pitches|].
  intros drum_track c2 Hdrum.
  apply wpx_bind. eapply wpx_mono; [apply (bass_pitches 36 101), Hch|].
  intros bass_track c3 Hbass.
  apply wpx_bind. eapply wpx_mono; [apply (harmony_pitches 36 101), Hch|].
  intros harmony_track c4 Hharm.
  apply wpx_bind, wpx_choice_any. intros intervals Hint.
  apply wpx_bind, wpx_choice_any. intros root_name Hroot.
  apply wpx_bind, wpx_randint_any. intros root_oct Hoct.
  pose proof (note_name_to_midi_range root_name root_oct Hroot) as Hmidi.
  pose proof (build_scale_notes_range
                (note_name_to_midi root_name root_oct) intervals Hint) as Hsc.
  apply wpx_bind. eapply wpx_mono.
  { apply (melody_pitches 48 106).
    eapply Forall_impl; [|exact Hsc]. cbn. intros; lia. }
  intros melody_track c5 Hmel.
  apply combine_and_write_midi_pitches.
  repeat constructor; cbn [snd].
  - eapply pitches_within_weaken; [| |exact Hdrum]; lia.
  - eapply pitches_within_weaken; [| |exact Hbass]; lia.
  - eapply pitches_within_weaken; [| |exact Hharm]; lia.
  - eapply pitches_within_weaken; [| |exact Hmel]; lia.
Qed.

(** ** The shuffle is a rearrangement *)

Lemma list_set_perm {A} (l : list A) (i : nat) (a b : A) :
  nth_error l i = Some a ->
  Permutation (b :: l) (a :: list_set l i b).
Proof.
  revert i. induction l as [|x l IH]; intros [|i] H; cbn in H |- *;
    try discriminate.
  - injection H as ->. apply perm_swap.
  - rewrite perm_swap. rewrite (IH i H). apply perm_swap.
Qed.

Lemma nth_error_list_set {A} (l : list A) (i j : nat) (a y : A) :
  nth_error l j = Some y ->
  nth_error (list_set l i a) j = Some (if Nat.eqb j i then a else y).
Proof.
  revert i j. induction l as [|x l IH]; intros [|i] [|j] H; cbn in H |- *;
    try discriminate; first [reflexivity | exact H | now apply IH].
Qed.

Lemma swap_perm {A} (x : list A) (i j : nat) : Permutation x (swap x i j).
Proof.
  unfold swap.
  destruct (nth_error x i) as [xi|] eqn:Ei; [|reflexivity].
  destruct (nth_error x j) as [xj|] eqn:Ej; [|reflexivity].
  pose proof (list_set_perm x i xi xj Ei) as H1.
  pose proof (nth_error_list_set x i j xj xj Ej) as Ej'.
  assert (Ej'' : nth_error (list_set x i xj) j = Some xj)
    by (rewrite Ej'; destruct (Nat.eqb j i); reflexivity).
  pose proof (list_set_perm (list_set x i xj) j xj xi Ej'') as H2.
  eapply Permutation_cons_inv. rewrite H1. exact H2.
Qed.

Lemma shuffle_perm {A} (R : Prop) (x : list A) t c :
  wpx R (shuffle x) (fun x' _ => Permutation x x') t c.
Proof.
  unfold shuffle. generalize (length x - 1)%nat as i. intro i.
  revert x t c. induction i as [|i IH]; intros x t c; cbn [shuffle_from].
  - now apply wpx_ret.
  - apply wpx_bind, wpx_randbelow; [lia|]. intros j _.
    eapply wpx_mono; [apply IH|]. cbn beta. intros x' _ H.
    now rewrite <- H, <- swap_perm.
Qed.

(** ** The melody generator returns *)

Lemma l_system_nonempty (n : nat) :
  l_system_loop n lsystem_rules "A" <> ""%string.
Proof.
  assert (H : l_system_loop n lsystem_rules "A" <> ""%string
              /\ l_system_loop (S n) lsystem_rules "A" <> ""%string).
  { induction n as [|n [IH1 IH2]].
    - split; discriminate.
    - split; [exact IH2|]. rewrite fibonacci_word.
      now apply string_app_nonempty. }
  apply H.
Qed.

Lemma lsystem_durations_nonempty (depth : Z) : lsystem_durations depth <> [].
Proof.
  unfold lsystem_durations, l_system.
  pose proof (l_system_nonempty (Z.to_nat depth)) as H.
  destruct (l_system_loop (Z.to_nat depth) lsystem_rules "A");
    [congruence | discriminate].
Qed.

Lemma melody_track_returns chords scale_notes bpc tpb L t c :
  scale_notes <> [] ->
  chord_length_ticks bpc tpb = Ok L ->
  (exists n, note_dur_ticks f_1_0 tpb = Ok n) ->
  (exists n, note_dur_ticks f_0_5 tpb = Ok n) ->
  wpx False (create_melody_track_chaos chords scale_notes bpc tpb)
    (fun _ _ => True) t c.
Proof.
  intros Hsc EL H1 H05. unfold create_melody_track_chaos.
  assert (Hlen : 0 < Z.of_nat (length scale_notes))
    by (destruct scale_notes; [congruence | cbn [length]; lia]).
  apply wpx_bind, wpx_randint; [lia|]. intros depth _.
  apply wpx_bind, wpx_randint; [lia|]. intros phrase_length Hpl.
  apply wpx_bind. eapply wpx_mono.
  - apply (wpx_list_comp False _
             (fun i => 0 <= i < Z.of_nat (length scale_notes))).
    intros t0 c0. apply wpx_randint; [lia|]. intros; lia.
  - cbn beta. intros phrase c1 [Hphl Hph]. rewrite Forall_forall in Hph.
    assert (Hne : phrase <> [])
      by (destruct phrase; [cbn in Hphl; lia | discriminate]).
    apply wpx_bind. eapply wpx_mono.
    + apply (wpx_for_each_inv False _ (fun _ => True)); [exact I|].
      clear t c c1. intros chord st t c _ _. unfold melody_chord.
      apply wpx_bind. eapply wpx_lift_ok; [exact EL|].
      apply wpx_bind, wpx_randint; [lia|]. intros n Hn.
      apply wpx_bind. eapply wpx_lift_ok.
      { unfold melody_sub_tick, py_floordiv.
        destruct (Z.eqb_spec n 0); [lia | reflexivity]. }
      apply wpx_for_range_inv; [exact I|].
      clear t c st. intros [[evs cur] idx] t c _.
      eapply wpx_mono.
      * apply melody_note_spec;
          [exact Hne | exact Hph | apply lsystem_durations_nonempty |].
        intros d Hd.
        pose proof (proj2 (lsystem_durations_values depth)) as Hv.
        rewrite Forall_forall in Hv.
        destruct (Hv _ Hd) as [-> | ->]; assumption.
      * auto.
    + intros [[evs cur] idx] c2 _. now apply wpx_ret.
Qed.

(** ** The statements at concrete inputs *)

Lemma C1_witness :
  Forall is_triad four_chords
  /\ chord_length_ticks (PyFloat f_4_0) TICKS_PER_BEAT = Ok 1920
  /\ 0 <= 1920
  /\ exists evs c',
      create_bass_track_chaos four_chords (PyFloat f_4_0) TICKS_PER_BEAT
        zero_tape 0%nat = Ok (evs, c')
      /\ tick_span evs = 7680.
Proof.
  assert (H1 : Forall is_triad four_chords)
    by (repeat constructor;
        [exists 60 | exists 62 | exists 64 | exists 65]; auto).
  assert (H2 : chord_length_ticks (PyFloat f_4_0) TICKS_PER_BEAT = Ok 1920)
    by reflexivity.
  assert (H3 : 0 <= 1920) by lia.
  split; [exact H1|]. split; [exact H2|]. split; [exact H3|].
  destruct (C1_bass_and_harmony_chords_stay_on_the_tick_grid
              four_chords (PyFloat f_4_0) TICKS_PER_BEAT 1920 zero_tape 0%nat
              H1 H2 H3) as (_ & _ & _ & H).
  apply H; [reflexivity | right; reflexivity].
Defined.

Lemma C2_witness :
  Forall (fun e => 0 <= ev_tick e) sample_events
  /\ Forall event_bytes_valid sample_events
  /\ with_key ev_tick 480 (sorted ev_tick sample_events)
     = with_key ev_tick 480 sample_events
  /\ exists program chan body c',
      combine_track "Bass" sample_events zero_tape 0%nat
      = Ok (program_change program chan 0 :: body ++ [end_of_track 0], c')
      /\ accumulate 0 (map msg_time body)
         = map ev_tick (sorted ev_tick sample_events).
Proof.
  assert (H : Forall (fun e => 0 <= ev_tick e) sample_events)
    by (repeat constructor; cbn; lia).
  assert (Hv : Forall event_bytes_valid sample_events)
    by (repeat constructor; cbn; lia).
  split; [exact H|]. split; [exact Hv|].
  destruct (C2_serializer_stable_sort_and_delta_roundtrip
              "Bass" sample_events zero_tape 0%nat H Hv)
    as (_ & _ & Hst & program & chan & body & c' & E & _ & _ & _ & Hacc).
  split; [apply Hst|].
  exists program, chan, body, c'. split; [exact E | exact Hacc].
Defined.

Lemma C3_witness :
  0 <= 480
  /\ pynum_nonneg (PyFloat f_4_0)
  /\ (exists evs c',
        create_drum_track_chaos 1 4 480 zero_tape 0%nat = Ok (evs, c')
        /\ well_paired evs)
  /\ (exists evs c',
        create_bass_track_chaos four_chords (PyFloat f_4_0) 480 zero_tape 0%nat
        = Ok (evs, c')
        /\ well_paired evs)
  /\ (exists evs c',
        create_harmony_track_chaos four_chords (PyFloat f_4_0) 480 zero_tape
          0%nat = Ok (evs, c')
        /\ well_paired evs)
  /\ (exists evs c',
        create_melody_track_chaos four_chords high_scale (PyFloat f_4_0) 480
          zero_tape 0%nat = Ok (evs, c')
        /\ well_paired evs).
Proof.
  assert (H1 : 0 <= 480) by lia.
  assert (H2 : pynum_nonneg (PyFloat f_4_0)) by reflexivity.
  split; [exact H1|]. split; [exact H2|].
  destruct (C3_generators_emit_matching_note_on_note_off_pairs
              480 (PyFloat f_4_0) H1 H2) as (Hd & Hb & Hh & Hm).
  split; [|split; [|split]].
  - destruct (create_drum_track_chaos 1 4 480 zero_tape 0%nat)
      as [[evs c']|e] eqn:E; [|vm_compute in E; discriminate].
    exists evs, c'. split; [reflexivity|]. exact (Hd _ _ _ _ _ _ E).
  - destruct (create_bass_track_chaos four_chords (PyFloat f_4_0) 480
                zero_tape 0%nat)
      as [[evs c']|e] eqn:E; [|vm_compute in E; discriminate].
    exists evs, c'. split; [reflexivity|]. exact (Hb _ _ _ _ _ E).
  - destruct (create_harmony_track_chaos four_chords (PyFloat f_4_0) 480
                zero_tape 0%nat)
      as [[evs c']|e] eqn:E; [|vm_compute in E; discriminate].
    exists evs, c'. split; [reflexivity|]. exact (Hh _ _ _ _ _ E).
  - destruct (create_melody_track_chaos four_chords high_scale (PyFloat f_4_0)
                480 zero_tape 0%nat)
      as [[evs c']|e] eqn:E; [|vm_compute in E; discriminate].
    exists evs, c'. split; [reflexivity|]. exact (Hm _ _ _ _ _ _ E).
Defined.

Lemma C4_witness :
  0 <= 3
  /\ exists chords label c',
      get_random_chord_progression 3 zero_tape 0%nat
      = Ok ((chords, label), c')
      /\ Z.of_nat (length chords) = 3
      /\ label <> ""%string.
Proof.
  assert (H : 0 <= 3) by lia.
  split; [exact H|].
  destruct (C4_progression_has_C_ordered_triads_and_label 3 zero_tape 0%nat H)
    as (chords & label & c' & E & Hlen & _ & Hlabel & _).
  exists chords, label, c'. auto.
Defined.

Lemma C5_witness :
  melody_note high_scale [0; 2] (lsystem_durations 2) 480 300 ([], 0, 4)
    zero_tape 0%nat
  = Ok ((add_note [] 115 60 0 240 0, 240, 5), 3%nat)
  /\ exists d nd,
      py_index (lsystem_durations 2)
        (4 mod Z.of_nat (length (lsystem_durations 2))) = Ok d
      /\ note_dur_ticks d 480 = Ok nd
      /\ 240 = 0 + Z.min nd 300.
Proof.
  assert (E : melody_note high_scale [0; 2] (lsystem_durations 2) 480 300
                ([], 0, 4) zero_tape 0%nat
              = Ok ((add_note [] 115 60 0 240 0, 240, 5), 3%nat))
    by (vm_compute; reflexivity).
  split; [exact E|].
  destruct C5_lsystem_fibonacci_lengths_and_cyclic_durations
    as (_ & _ & _ & _ & H).
  exact (proj2 (H _ _ _ _ _ _ _ _ _ _ _ _ _ _ E)).
Defined.

Lemma C7_witness :
  [0; 2] <> []
  /\ (forall i, In i [0; 2] -> 0 <= i < Z.of_nat (length high_scale))
  /\ lsystem_durations 2 <> []
  /\ (forall d, In d (lsystem_durations 2) ->
                exists n, note_dur_ticks d 480 = Ok n)
  /\ exists note_idx base d_beats nd vel shift,
      In note_idx [0; 2]
      /\ py_index high_scale note_idx = Ok base
      /\ note_dur_ticks d_beats 480 = Ok nd
      /\ (shift = 12 <-> fltb (random_at zero_tape 1) f_0_2 = true)
      /\ melody_note high_scale [0; 2] (lsystem_durations 2) 480 300
           ([], 0, 4) zero_tape 0%nat
         = Ok ((add_note [] (base + shift) vel 0 (Z.min nd 300) 0,
                0 + Z.min nd 300, 4 + 1),
               if fltb (random_at zero_tape 1) f_0_2
               then 3%nat else 4%nat).
Proof.
  assert (H1 : [0; 2] <> []) by discriminate.
  assert (H2 : forall i, In i [0; 2] ->
                         0 <= i < Z.of_nat (length high_scale)).
  { intros i [<- | [<- | []]]; vm_compute; split; congruence. }
  assert (H3 : lsystem_durations 2 <> []) by (vm_compute; discriminate).
  assert (H4 : forall d, In d (lsystem_durations 2) ->
                         exists n, note_dur_ticks d 480 = Ok n).
  { intros d Hd. vm_compute in Hd.
    destruct Hd as [<- | [<- | [<- | []]]]; eexists; vm_compute; reflexivity. }
  split; [exact H1|]. split; [exact H2|]. split; [exact H3|].
  split; [exact H4|].
  destruct (C7_melody_note_pitch_shift_and_clamped_duration
              high_scale [0; 2] (lsystem_durations 2) 480 300 [] 0 4
              zero_tape 0%nat H1 H2 H3 H4)
    as (note_idx & base & d & nd & vel & shift
        & Hin & Eb & _ & End & _ & Hup & _ & Erun).
  exists note_idx, base, d, nd, vel, shift. auto.
Defined.

Lemma C8_witness :
  high_scale <> []
  /\ create_bass_track_chaos [] (PyFloat f_4_0) 480 zero_tape 0%nat
     = Ok ([], 0%nat)
  /\ create_harmony_track_chaos [] (PyFloat f_4_0) 480 zero_tape 0%nat
     = Ok ([], 0%nat)
  /\ exists c',
      create_melody_track_chaos [] high_scale (PyFloat f_4_0) 480 zero_tape
        0%nat = Ok ([], c').
Proof.
  assert (H : high_scale <> []) by (vm_compute; discriminate).
  split; [exact H|].
  destruct (C8_zero_chords_give_empty_tracks_without_error
              high_scale (PyFloat f_4_0) 480 zero_tape 0%nat H)
    as (Hb & Hh & Hm & _).
  auto.
Defined.

(* ================================================================== *)
(** * Part III: further properties of the script *)
(* ================================================================== *)

(** ** Note names *)

Lemma dict_get_range {A} (d : list (string * A)) (P : A -> Prop)
  (name : string) (default : A) :
  Forall (fun kv => P (snd kv)) d -> P default -> P (dict_get d name default).
Proof.
  intros Hd Hdef. unfold dict_get.
  induction Hd as [|[k v] d Hv _ IH]; cbn [dict_lookup]; [exact Hdef|].
  destruct (String.eqb name k); [exact Hv | exact IH].
Qed.

Lemma note_map_pitch_class (name : string) :
  0 <= dict_get note_map name 0 <= 11.
Proof.
  apply (dict_get_range note_map (fun v => 0 <= v <= 11)); [|lia].
  unfold note_map. repeat constructor; cbn [snd]; lia.
Qed.

(** X1. For every note name, known or not, and every octave, the MIDI
    number splits back into its parts: dividing by 12 gives the octave
    plus one and the remainder is the pitch class, which is between 0 and
    11; one octave up is 12 semitones up; a name that is not in the table
    counts as C; and the sharp and flat spellings of a black key give the
    same number. *)
Theorem X1_note_name_to_midi_splits_into_octave_and_pitch_class :
  forall (name : string) (octave : Z),
    0 <= dict_get note_map name 0 <= 11
    /\ note_name_to_midi name octave / 12 - 1 = octave
    /\ note_name_to_midi name octave mod 12 = dict_get note_map name 0
    /\ note_name_to_midi name (octave + 1) = note_name_to_midi name octave + 12
    /\ (dict_lookup note_map name = None ->
        note_name_to_midi name octave = note_name_to_midi "C" octave)
    /\ note_name_to_midi "C#" octave = note_name_to_midi "Db" octave
    /\ note_name_to_midi "D#" octave = note_name_to_midi "Eb" octave
    /\ note_name_to_midi "F#" octave = note_name_to_midi "Gb" octave
    /\ note_name_to_midi "G#" octave = note_name_to_midi "Ab" octave
    /\ note_name_to_midi "A#" octave = note_name_to_midi "Bb" octave.
Proof.
  intros name octave. pose proof (note_map_pitch_class name) as Hpc.
  unfold note_name_to_midi.
  split; [exact Hpc|]. split; [|split; [|split; [|split]]].
  - Z.div_mod_to_equations. lia.
  - Z.div_mod_to_equations. lia.
  - lia.
  - intro Hnone. unfold dict_get. rewrite Hnone. reflexivity.
  - repeat split.
Qed.

Lemma X1_witness :
  dict_lookup note_map "H" = None
  /\ note_name_to_midi "H" 4 = 60
  /\ note_name_to_midi "A" 4 / 12 - 1 = 4
  /\ note_name_to_midi "A" 4 mod 12 = 9.
Proof.
  assert (H : dict_lookup note_map "H" = None) by reflexivity.
  split; [exact H|].
  destruct (X1_note_name_to_midi_splits_into_octave_and_pitch_class "H" 4)
    as (_ & _ & _ & _ & Hc & _).
  destruct (X1_note_name_to_midi_splits_into_octave_and_pitch_class "A" 4)
    as (_ & Hd & Hm & _).
  split; [rewrite (Hc H); reflexivity|].
  split; [exact Hd|]. rewrite Hm. reflexivity.
Defined.

(** ** The L-system in general *)

Lemma l_system_loop_app rules (n : nat) (s1 s2 : string) :
  l_system_loop n rules (s1 ++ s2)
  = (l_system_loop n rules s1 ++ l_system_loop n rules s2)%string.
Proof.
  revert s1 s2. induction n as [|n IH]; intros s1 s2; cbn [l_system_loop].
  - reflexivity.
  - now rewrite rewrite_pass_app, concat_empty_app, IH.
Qed.

Lemma l_system_loop_add rules (n m : nat) (s : string) :
  l_system_loop (n + m) rules s
  = l_system_loop m rules (l_system_loop n rules s).
Proof.
  revert s. induction n as [|n IH]; intro s; cbn [l_system_loop Nat.add].
  - reflexivity.
  - apply IH.
Qed.

Lemma rewrite_pass_no_rules (s : string) :
  String.concat "" (rewrite_pass [] s) = s.
Proof.
  induction s as [|a s IH]; [reflexivity|].
  cbn [rewrite_pass rules_lookup]. rewrite concat_empty_cons, IH. reflexivity.
Qed.

Lemma l_system_loop_no_rules (n : nat) (s : string) :
  l_system_loop n [] s = s.
Proof.
  induction n as [|n IH]; cbn [l_system_loop]; [reflexivity|].
  now rewrite rewrite_pass_no_rules.
Qed.

Lemma l_system_loop_empty rules (n : nat) :
  l_system_loop n rules "" = ""%string.
Proof. induction n as [|n IH]; cbn; [reflexivity | exact IH]. Qed.

(** X2. For any rules, the expansion works symbol by symbol and pass
    by pass: expanding a concatenation gives the concatenation of the
    expansions; expanding to depth d1 + d2 is expanding the depth-d1
    result by d2 more passes; a depth that is zero or negative returns
    the axiom itself; with no rules every string is left unchanged; and the
    empty axiom stays empty. *)
Theorem X2_l_system_expands_symbolwise_and_composes_over_depths :
  forall (rules : list (ascii * string)) (s1 s2 : string) (d1 d2 : nat),
    l_system (s1 ++ s2) rules (Z.of_nat d1)
    = (l_system s1 rules (Z.of_nat d1) ++ l_system s2 rules (Z.of_nat d1))%string
    /\ l_system s1 rules (Z.of_nat d1 + Z.of_nat d2)
       = l_system (l_system s1 rules (Z.of_nat d1)) rules (Z.of_nat d2)
    /\ l_system s1 rules (- Z.of_nat d1) = s1
    /\ l_system s1 [] (Z.of_nat d1) = s1
    /\ l_system "" rules (Z.of_nat d1) = ""%string.
Proof.
  intros rules s1 s2 d1 d2. unfold l_system.
  rewrite !Nat2Z.id.
  replace (Z.to_nat (Z.of_nat d1 + Z.of_nat d2)) with (d1 + d2)%nat by lia.
  replace (Z.to_nat (- Z.of_nat d1)) with O by lia.
  split; [apply l_system_loop_app|].
  split; [apply l_system_loop_add|].
  split; [reflexivity|].
  split; [apply l_system_loop_no_rules | apply l_system_loop_empty].
Qed.

(** ** What the generators emit *)

Lemma py_index_nth {A} (l : list A) (i : Z) (a : A) :
  0 <= i -> py_index l i = Ok a -> nth_error l (Z.to_nat i) = Some a.
Proof.
  intros Hi. unfold py_index.
  destruct (Z.ltb_spec i 0); [lia|].
  destruct (_ || _); [discriminate|].
  destruct (nth_error l (Z.to_nat i)); [|discriminate].
  now intros [= <-].
Qed.

Lemma events_carry_add_note (Q : Z -> Z -> Z -> Prop) evs note vel start dur
  chan :
  events_carry Q evs -> Q note vel chan ->
  events_carry Q (add_note evs note vel start dur chan).
Proof.
  intros Hevs HQ. rewrite add_note_app. apply Forall_app.
  split; [exact Hevs|]. repeat constructor; exact HQ.
Qed.

Lemma length_add_note evs note vel start dur chan :
  length (add_note evs note vel start dur chan) = S (S (length evs)).
Proof. rewrite add_note_app, length_app. cbn. lia. Qed.

Lemma bass_slot_full (R : Prop) (root fifth stl : Z) evs ts t c :
  wpx R (bass_slot root fifth stl (evs, ts))
    (fun st' _ =>
       exists note vel,
         (octave_shifted root note \/ octave_shifted fifth note)
         /\ 50 <= vel <= 100
         /\ st' = (add_note evs note vel ts stl 1, ts + stl))
    t c.
Proof.
  unfold bass_slot.
  apply wpx_bind, wpx_random.
  apply wpx_bind, wpx_random.
  apply wpx_bind.
  apply wpx_mono
    with (Q := fun shift _ => shift = -12 \/ shift = 0 \/ shift = 12).
  { destruct (fltb _ f_0_5); [|apply wpx_ret; auto].
    apply wpx_choice; [discriminate|].
    intros x [<- | [<- | [<- | []]]]; auto. }
  intros shift c1 Hshift.
  apply wpx_bind, wpx_randint; [lia|]. intros vel Hvel.
  apply wpx_ret. eexists _, vel. split; [|split; [exact Hvel | reflexivity]].
  unfold octave_shifted.
  destruct (fltb (random_at t c) f_0_7); [left | right]; lia.
Qed.

Lemma bass_track_emits chords bpc tpb t c :
  wpx True (create_bass_track_chaos chords bpc tpb)
    (fun evs _ =>
       events_carry (bass_event_ok chords) evs
       /\ 2 * Z.of_nat (length chords) <= Z.of_nat (length evs)
          <= 10 * Z.of_nat (length chords))
    t c.
Proof.
  unfold create_bass_track_chaos. apply wpx_bind. eapply wpx_mono.
  - apply (wpx_for_each True _
             (fun k st =>
                events_carry (bass_event_ok chords) (fst st)
                /\ 2 * Z.of_nat k <= Z.of_nat (length (fst st))
                   <= 10 * Z.of_nat k)).
    { split; [constructor | cbn; lia]. }
    clear t c. intros k chord [evs cur] t c Hnth [Hevs Hlen].
    cbn [fst] in Hevs, Hlen. apply nth_error_In in Hnth.
    unfold bass_chord.
    lift_any Er. lift_any Ef. lift_any EL.
    apply py_index_nth in Er; [|lia]. apply py_index_nth in Ef; [|lia].
    apply wpx_bind, wpx_randint_any. intros subdivs Hs.
    lift_any Es.
    apply wpx_bind. eapply wpx_mono.
    + apply (wpx_for_range True _
               (fun i st =>
                  events_carry (bass_event_ok chords) (fst st)
                  /\ length (fst st) = (length evs + 2 * i)%nat)).
      { split; [exact Hevs | cbn [fst]; lia]. }
      clear t c. intros i [evs' ts] t c _ [Hevs' Hlen']. cbn [fst] in *.
      eapply wpx_mono; [apply bass_slot_full|].
      intros st' _ (note & vel & Hnote & Hvel & ->). cbn [fst]. split.
      * apply events_carry_add_note; [exact Hevs'|].
        split; [reflexivity|]. split; [exact Hvel|].
        destruct Hnote as [Hn | Hn]; eexists chord, _; eauto.
      * rewrite length_add_note. lia.
    + intros [evs' ts'] c1 [Hevs' Hlen']. apply wpx_ret. cbn [fst] in *.
      split; [exact Hevs'|]. rewrite Hlen'. lia.
  - intros [evs cur] c1 H. now apply wpx_ret.
Qed.

(** X3. Every event of a list returned by the Bass generator is on
    channel 1, has a velocity from 50 to 100, and sounds the root
    ([chord[0]]) or the fifth ([chord[2]]) of one of the chords, at pitch
    or exactly one octave above or below; and a progression of n chords
    gives between 2 n and 10 n events (one to five notes per chord). *)
Theorem X3_bass_events_channel_velocity_pitch_and_count :
  forall chords bpc tpb t c evs c',
    create_bass_track_chaos chords bpc tpb t c = Ok (evs, c') ->
    events_carry (bass_event_ok chords) evs
    /\ 2 * Z.of_nat (length chords) <= Z.of_nat (length evs)
       <= 10 * Z.of_nat (length chords).
Proof.
  intros chords bpc tpb t c evs c' E.
  exact (wpx_inv _ _ _ _ _ _ _ (bass_track_emits chords bpc tpb t c) E).
Qed.

Lemma X3_witness :
  exists evs c',
    create_bass_track_chaos four_chords (PyFloat f_4_0) 480 zero_tape 0%nat
    = Ok (evs, c')
    /\ events_carry (bass_event_ok four_chords) evs
    /\ 8 <= Z.of_nat (length evs) <= 40.
Proof.
  destruct (create_bass_track_chaos four_chords (PyFloat f_4_0) 480
              zero_tape 0%nat) as [[evs c']|e] eqn:E;
    [|vm_compute in E; discriminate].
  exists evs, c'. split; [reflexivity|].
  exact (X3_bass_events_channel_velocity_pitch_and_count _ _ _ _ _ _ _ E).
Defined.

Lemma firstn_succ_nth {A} (l : list A) (k : nat) (x : A) :
  nth_error l k = Some x -> firstn (S k) l = firstn k l ++ [x].
Proof.
  revert k. induction l as [|y l IH]; intros [|k] H; cbn in H |- *;
    try discriminate.
  - now injection H as ->.
  - f_equal. now apply IH.
Qed.

Lemma harmony_press_emits chords chord pl evs ts t c :
  In chord chords ->
  events_carry (harmony_event_ok chords) evs ->
  harmony_shape chords evs ->
  wpx True (harmony_press pl chord (evs, ts))
    (fun st' _ =>
       events_carry (harmony_event_ok chords) (fst st')
       /\ harmony_shape chords (fst st')
       /\ length (fst st') = (length evs + 2 * length chord)%nat)
    t c.
Proof.
  intros Hin Hevs (notes & presses & Hp & Hpitch & Hperm).
  unfold paired_by in Hp. subst evs. unfold harmony_press.
  apply wpx_bind. eapply wpx_mono; [apply shuffle_perm|].
  cbn beta. intros chord_notes c1 Hcn.
  eapply wpx_mono.
  - apply (wpx_for_each True _
             (fun j st =>
                events_carry (harmony_event_ok chords) (fst st)
                /\ exists nj,
                    fst st = flat_map note_events (notes ++ nj)
                    /\ map n_pitch nj = firstn j chord_notes)).
    { split; [exact Hevs|]. exists []. now rewrite app_nil_r. }
    clear t c c1. intros j note [evs' ts'] t c Hnth (Hevs' & nj & Hfst & Hnj).
    cbn [fst] in *. subst evs'. unfold harmony_note.
    apply wpx_bind, wpx_randint_any. intros vel Hvel.
    lift_any En. apply wpx_ret. cbn [fst]. split.
    + apply events_carry_add_note; [exact Hevs'|].
      split; [reflexivity|]. split; [exact Hvel|].
      exists chord. split; [exact Hin|].
      eapply Permutation_in; [symmetry; exact Hcn|].
      eapply nth_error_In; eauto.
    + eexists (nj ++ [mk_note ts' _ note vel 2]). split.
      * rewrite add_note_app, app_assoc, !flat_map_app. cbn [flat_map].
        now rewrite app_nil_r.
      * rewrite map_app, Hnj. cbn [map n_pitch].
        symmetry. now apply firstn_succ_nth.
  - cbn beta. intros [evs' ts'] _ (Hevs' & nj & Hfst & Hnj). cbn [fst] in *.
    subst evs'. rewrite firstn_all in Hnj.
    split; [exact Hevs'|]. split.
    + exists (notes ++ nj), (presses ++ [chord_notes]).
      split; [reflexivity|]. split.
      * rewrite map_app, concat_app, Hpitch, Hnj. cbn. now rewrite app_nil_r.
      * apply Forall_app. split; [exact Hperm|].
        constructor; [|constructor]. exists chord. auto.
    + rewrite !flat_map_app, length_app.
      f_equal.
      assert (Hl : length nj = length chord).
      { rewrite (Permutation_length Hcn), <- Hnj. now rewrite length_map. }
      rewrite <- Hl. clear. induction nj as [|n nj IH]; cbn; [reflexivity|].
      rewrite IH. lia.
Qed.

Lemma harmony_track_emits chords bpc tpb t c :
  wpx True (create_harmony_track_chaos chords bpc tpb)
    (fun evs _ =>
       events_carry (harmony_event_ok chords) evs
       /\ harmony_shape chords evs
       /\ 2 * Z.of_nat (length (concat chords)) <= Z.of_nat (length evs)
          <= 6 * Z.of_nat (length (concat chords)))
    t c.
Proof.
  unfold create_harmony_track_chaos. apply wpx_bind. eapply wpx_mono.
  - apply (wpx_for_each True _
             (fun k st =>
                events_carry (harmony_event_ok chords) (fst st)
                /\ harmony_shape chords (fst st)
                /\ 2 * Z.of_nat (length (concat (firstn k chords)))
                   <= Z.of_nat (length (fst st))
                   <= 6 * Z.of_nat (length (concat (firstn k chords))))).
    { split; [constructor|]. split; [|cbn; lia].
      exists [], []. repeat split; constructor. }
    clear t c. intros k chord [evs cur] t c Hnth (Hevs & Hshape & Hlen).
    cbn [fst] in *.
    rewrite (firstn_succ_nth _ _ _ Hnth), concat_app, length_app.
    cbn [concat]. rewrite app_nil_r.
    apply nth_error_In in Hnth.
    unfold harmony_chord.
    lift_any EL.
    apply wpx_bind, wpx_randint_any. intros presses Hp.
    lift_any Ep.
    apply wpx_bind. eapply wpx_mono.
    + apply (wpx_for_range True _
               (fun i st =>
                  events_carry (harmony_event_ok chords) (fst st)
                  /\ harmony_shape chords (fst st)
                  /\ length (fst st)
                     = (length evs + 2 * (i * length chord))%nat)).
      { split; [exact Hevs|]. split; [exact Hshape | cbn [fst]; lia]. }
      clear t c. intros i [evs' ts] t c _ (Hevs' & Hshape' & Hlen').
      cbn [fst] in *.
      eapply wpx_mono; [apply (harmony_press_emits chords); assumption|].
      cbn beta. intros st' _ (H1 & H2 & H3).
      split; [exact H1|]. split; [exact H2|]. rewrite H3, Hlen'. lia.
    + intros [evs' ts'] c1 (H1 & H2 & H3). apply wpx_ret. cbn [fst] in *.
      split; [exact H1|]. split; [exact H2|]. rewrite H3. nia.
  - intros [evs cur] c1 (H1 & H2 & H3). apply wpx_ret. cbn [fst] in *.
    rewrite firstn_all in H3. auto.
Qed.

(** X4. Every event of a list returned by the Harmony generator is on
    channel 2, has a velocity from 40 to 90 and sounds a note of one of
    the chords.  The track is made of note_on/note_off pairs whose
    pitches, in order, form a sequence of presses, each press playing
    every note of its chord exactly once in some order.  With one to
    three presses per chord, the number of events is between twice and
    six times the number of chord notes. *)
Theorem X4_harmony_presses_rearrange_the_chord :
  forall chords bpc tpb t c evs c',
    create_harmony_track_chaos chords bpc tpb t c = Ok (evs, c') ->
    events_carry (harmony_event_ok chords) evs
    /\ harmony_shape chords evs
    /\ 2 * Z.of_nat (length (concat chords)) <= Z.of_nat (length evs)
       <= 6 * Z.of_nat (length (concat chords)).
Proof.
  intros chords bpc tpb t c evs c' E.
  exact (wpx_inv _ _ _ _ _ _ _ (harmony_track_emits chords bpc tpb t c) E).
Qed.

Lemma X4_witness :
  exists evs c',
    create_harmony_track_chaos four_chords (PyFloat f_4_0) 480 zero_tape 0%nat
    = Ok (evs, c')
    /\ harmony_shape four_chords evs
    /\ 24 <= Z.of_nat (length evs) <= 72.
Proof.
  destruct (create_harmony_track_chaos four_chords (PyFloat f_4_0) 480
              zero_tape 0%nat) as [[evs c']|e] eqn:E;
    [|vm_compute in E; discriminate].
  exists evs, c'. split; [reflexivity|].
  exact (proj2 (X4_harmony_presses_rearrange_the_chord _ _ _ _ _ _ _ E)).
Defined.

Lemma melody_note_full scale_notes phrase durations_list tpb sub_tick
  evs cur idx t c :
  wpx True
    (melody_note scale_notes phrase durations_list tpb sub_tick (evs, cur, idx))
    (fun st' _ =>
       exists base note vel d nd,
         In base scale_notes
         /\ octave_shifted base note
         /\ 60 <= vel <= 127
         /\ In d durations_list
         /\ note_dur_ticks d tpb = Ok nd
         /\ st' = (add_note evs note vel cur (Z.min nd sub_tick) 0,
                   cur + Z.min nd sub_tick, idx + 1))
    t c.
Proof.
  unfold melody_note.
  apply wpx_bind, wpx_choice_any. intros note_idx _.
  lift_any Eb. apply py_index_In in Eb.
  match type of Eb with In ?b _ => set (base := b) in * end.
  apply wpx_bind.
  apply wpx_mono with (Q := fun note _ => octave_shifted base note).
  { eapply wpx_mono; [apply melody_octave_shift_spec|].
    cbn beta zeta. intros note c1 [-> _]. unfold octave_shifted, octave_shift_of.
    destruct (fltb _ _); [lia|]. destruct (fltb _ _); lia. }
  intros note c1 Hnote.
  lift_any Ei. lift_any Ed. lift_any End.
  apply py_index_In in Ed.
  apply wpx_bind, wpx_randint_any. intros vel Hvel.
  apply wpx_ret. eexists base, note, vel, _, _.
  repeat (split; [eassumption|]). reflexivity.
Qed.

Lemma melody_track_emits chords scale_notes bpc tpb t c :
  wpx True (create_melody_track_chaos chords scale_notes bpc tpb)
    (fun evs _ =>
       events_carry (melody_event_ok scale_notes) evs
       /\ 4 * Z.of_nat (length chords) <= Z.of_nat (length evs)
          <= 12 * Z.of_nat (length chords))
    t c.
Proof.
  unfold create_melody_track_chaos.
  apply wpx_bind, wpx_randint_any. intros depth _.
  apply wpx_bind, wpx_randint_any. intros phrase_length _.
  apply wpx_bind.
  apply wpx_mono with (Q := fun _ _ => True).
  { eapply wpx_mono; [apply (wpx_list_comp True _ (fun _ => True))|auto].
    intros t0 c0. now apply wpx_randint_any. }
  intros phrase c1 _.
  apply wpx_bind. eapply wpx_mono.
  - apply (wpx_for_each True _
             (fun k st =>
                events_carry (melody_event_ok scale_notes) (fst (fst st))
                /\ 4 * Z.of_nat k <= Z.of_nat (length (fst (fst st)))
                   <= 12 * Z.of_nat k)).
    { split; [constructor | cbn; lia]. }
    clear t c c1. intros k chord [[evs cur] idx] t c _ [Hevs Hlen].
    cbn [fst] in *. unfold melody_chord.
    lift_any EL.
    apply wpx_bind, wpx_randint_any. intros n Hn.
    lift_any Es.
    eapply wpx_mono.
    + apply (wpx_for_range True _
               (fun i st =>
                  events_carry (melody_event_ok scale_notes) (fst (fst st))
                  /\ length (fst (fst st)) = (length evs + 2 * i)%nat)).
      { split; [exact Hevs | cbn [fst]; lia]. }
      clear t c. intros i [[evs' cur'] idx'] t c _ [Hevs' Hlen'].
      cbn [fst] in *.
      eapply wpx_mono; [apply melody_note_full|].
      intros st' _ (base & note & vel & d & nd & Hb & Hn' & Hv & _ & _ & ->).
      cbn [fst]. split.
      * apply events_carry_add_note; [exact Hevs'|].
        split; [reflexivity|]. split; [exact Hv|]. eauto.
      * rewrite length_add_note. lia.
    + cbn beta. intros [[evs' cur'] idx'] _ [Hevs' Hlen']. cbn [fst] in *.
      split; [exact Hevs'|]. rewrite Hlen'. lia.
  - intros [[evs cur] idx] c2 H. now apply wpx_ret.
Qed.

(** X5. Every event of a list returned by the Melody generator is on
    channel 0, has a velocity from 60 to 127 and sounds a note of the
    scale at pitch or exactly one octave above or below; and a
    progression of n chords gives between 4 n and 12 n events (two to six
    notes per chord). *)
Theorem X5_melody_events_channel_velocity_pitch_and_count :
  forall chords scale_notes bpc tpb t c evs c',
    create_melody_track_chaos chords scale_notes bpc tpb t c = Ok (evs, c') ->
    events_carry (melody_event_ok scale_notes) evs
    /\ 4 * Z.of_nat (length chords) <= Z.of_nat (length evs)
       <= 12 * Z.of_nat (length chords).
Proof.
  intros chords scale_notes bpc tpb t c evs c' E.
  exact (wpx_inv _ _ _ _ _ _ _
           (melody_track_emits chords scale_notes bpc tpb t c) E).
Qed.

Lemma X5_witness :
  exists evs c',
    create_melody_track_chaos four_chords high_scale (PyFloat f_4_0) 480
      zero_tape 0%nat = Ok (evs, c')
    /\ events_carry (melody_event_ok high_scale) evs
    /\ 16 <= Z.of_nat (length evs) <= 48.
Proof.
  destruct (create_melody_track_chaos four_chords high_scale (PyFloat f_4_0)
              480 zero_tape 0%nat) as [[evs c']|e] eqn:E;
    [|vm_compute in E; discriminate].
  exists evs, c'. split; [reflexivity|].
  exact (X5_melody_events_channel_velocity_pitch_and_count _ _ _ _ _ _ _ _ E).
Defined.

(** ** The melody is one unbroken line *)

Lemma total_duration_app (l1 l2 : list note_spec) :
  total_duration (l1 ++ l2) = total_duration l1 + total_duration l2.
Proof.
  unfold total_duration. induction l1 as [|n l1 IH]; cbn; [reflexivity|].
  fold (total_duration (l1 ++ l2)) in *. fold (total_duration l1) in *.
  fold (total_duration l2) in *. lia.
Qed.

Lemma contiguous_snoc (t0 : Z) (notes : list note_spec) (n : note_spec) :
  contiguous_from t0 notes ->
  n_start n = t0 + total_duration notes ->
  contiguous_from t0 (notes ++ [n]).
Proof.
  revert t0. induction notes as [|m notes IH]; intros t0 Hc Hn.
  - cbn in *. split; [lia | exact I].
  - cbn [app contiguous_from] in *. destruct Hc as [Hm Hc].
    split; [exact Hm|]. apply IH; [exact Hc|].
    rewrite Hn. unfold total_duration. cbn. lia.
Qed.

Lemma contiguous_span (notes : list note_spec) :
  forall t0,
    0 <= t0 ->
    contiguous_from t0 notes ->
    Forall (fun n => 0 <= n_dur n) notes ->
    Z.max t0 (tick_span (flat_map note_events notes))
    = t0 + total_duration notes.
Proof.
  induction notes as [|n notes IH]; intros t0 Ht Hc Hd.
  - cbn. lia.
  - cbn [contiguous_from] in Hc. destruct Hc as [Hn Hc].
    inversion Hd as [|? ? Hdn Hd']; subst.
    assert (Ht' : 0 <= n_start n + n_dur n) by lia.
    specialize (IH _ Ht' Hc Hd').
    unfold tick_span in *. cbn [flat_map note_events app map fold_right ev_tick].
    unfold total_duration in *. cbn [fold_right]. lia.
Qed.

Lemma melody_line_step (B s d : Z) evs cur idx idx' note vel :
  melody_line B (evs, cur, idx) -> 0 <= d <= s ->
  melody_line (B + s) (add_note evs note vel cur d 0, cur + d, idx').
Proof.
  intros (notes & Hevs & Hc & Hd & Hcur & HB) Hds. cbn [fst snd] in *.
  subst evs cur.
  exists (notes ++ [mk_note (total_duration notes) d note vel 0]).
  cbn [fst snd].
  split; [rewrite add_note_app, flat_map_app; cbn [flat_map];
          now rewrite app_nil_r|].
  split; [apply contiguous_snoc; [exact Hc | cbn; lia]|].
  split; [apply Forall_app; split; [exact Hd|]; repeat constructor; cbn; lia|].
  rewrite total_duration_app.
  change (total_duration [mk_note (total_duration notes) d note vel 0])
    with (d + 0).
  lia.
Qed.

Lemma melody_track_line chords scale_notes bpc tpb L t c :
  chord_length_ticks bpc tpb = Ok L -> 0 <= L -> 0 <= tpb ->
  wpx True (create_melody_track_chaos chords scale_notes bpc tpb)
    (fun evs _ =>
       melody_line (Z.of_nat (length chords) * L)
         (evs, tick_span evs, 0))
    t c.
Proof.
  intros EL HL Ht. unfold create_melody_track_chaos.
  apply wpx_bind, wpx_randint_any. intros depth _.
  apply wpx_bind, wpx_randint_any. intros phrase_length _.
  apply wpx_bind.
  apply wpx_mono with (Q := fun _ _ => True).
  { eapply wpx_mono; [apply (wpx_list_comp True _ (fun _ => True))|auto].
    intros t0 c0. now apply wpx_randint_any. }
  intros phrase c1 _.
  apply wpx_bind. eapply wpx_mono.
  - apply (wpx_for_each True _ (fun k st => melody_line (Z.of_nat k * L) st)).
    { exists []. cbn. repeat split; try constructor; lia. }
    clear t c c1. intros k chord st t c _ Hst. unfold melody_chord.
    apply wpx_bind. eapply wpx_lift_ok; [exact EL|].
    apply wpx_bind, wpx_randint_any. intros n Hn.
    lift_any Es.
    match type of Es with _ = Ok ?x => set (sub_tick := x) in * end.
    assert (Hsub : sub_tick = L / n).
    { unfold melody_sub_tick, py_floordiv in Es.
      destruct (Z.eqb_spec n 0); [lia|]. cbn [negb] in Es. congruence. }
    assert (Hsub0 : 0 <= sub_tick) by (rewrite Hsub; apply Z.div_pos; lia).
    eapply wpx_mono.
    + apply (wpx_for_range True _
               (fun i st =>
                  melody_line (Z.of_nat k * L + Z.of_nat i * sub_tick) st)).
      { now rewrite Z.add_0_r. }
      clear t c st Hst. intros i [[evs cur] idx] t c _ Hst.
      eapply wpx_mono; [apply melody_note_full|].
      intros st' _ (base & note & vel & d & nd & _ & _ & _ & Hd & End & ->).
      replace (Z.of_nat k * L + Z.of_nat (S i) * sub_tick)
        with (Z.of_nat k * L + Z.of_nat i * sub_tick + sub_tick) by lia.
      eapply melody_line_step; [exact Hst|].
      assert (0 <= nd).
      { eapply note_dur_ticks_nonneg; [|exact Ht|exact End].
        pose proof (proj2 (lsystem_durations_values depth)) as Hv.
        rewrite Forall_forall in Hv.
        destruct (Hv _ Hd) as [-> | ->]; reflexivity. }
      lia.
    + cbn beta. intros st' _ (notes & H1 & H2 & H3 & H4 & H5).
      exists notes. repeat (split; [assumption|]).
      rewrite Z2Nat.id in H5 by lia.
      assert (n * (L / n) <= L) by (apply Z.mul_div_le; lia).
      rewrite Hsub in H5. lia.
  - intros [[evs cur] idx] c2 (notes & H1 & H2 & H3 & H4 & H5).
    apply wpx_ret. cbn [fst snd] in *. exists notes. cbn [fst snd].
    repeat (split; [assumption|]). split; [|exact H5].
    pose proof (contiguous_span notes 0 (Z.le_refl 0) H2 H3) as Hs.
    rewrite <- H1 in Hs. pose proof (tick_span_nonneg evs). lia.
Qed.

(** X6. The melody is one unbroken line that never outruns the chords.
    For a chord length of [L >= 0] ticks and a non-negative ticks-per-beat,
    a track returned by the Melody generator is a sequence of notes of
    non-negative duration, the first starting on tick 0 and each next one
    starting on the very tick where the one before stops; its span is the
    sum of the note durations, and that is at most [n * L] for n chords:
    clamping a note to its share of the chord can only make the melody end
    early, never late. *)
Theorem X6_melody_is_contiguous_and_ends_within_the_progression :
  forall chords scale_notes bpc tpb L t c evs c',
    chord_length_ticks bpc tpb = Ok L ->
    0 <= L ->
    0 <= tpb ->
    create_melody_track_chaos chords scale_notes bpc tpb t c = Ok (evs, c') ->
    exists notes,
      paired_by notes evs
      /\ contiguous_from 0 notes
      /\ Forall (fun n => 0 <= n_dur n) notes
      /\ tick_span evs = total_duration notes
      /\ tick_span evs <= Z.of_nat (length chords) * L.
Proof.
  intros chords scale_notes bpc tpb L t c evs c' EL HL Ht E.
  pose proof (wpx_inv _ _ _ _ _ _ _
                (melody_track_line chords scale_notes bpc tpb L t c EL HL Ht) E)
    as (notes & H1 & H2 & H3 & H4 & H5).
  cbn [fst snd] in *. exists notes.
  split; [exact H1|]. split; [exact H2|]. split; [exact H3|].
  split; [exact H4 | lia].
Qed.

Lemma X6_witness :
  chord_length_ticks (PyFloat f_4_0) 480 = Ok 1920
  /\ 0 <= 1920
  /\ 0 <= 480
  /\ exists evs c' notes,
      create_melody_track_chaos four_chords high_scale (PyFloat f_4_0) 480
        zero_tape 0%nat = Ok (evs, c')
      /\ paired_by notes evs
      /\ contiguous_from 0 notes
      /\ tick_span evs <= 4 * 1920.
Proof.
  assert (H1 : chord_length_ticks (PyFloat f_4_0) 480 = Ok 1920) by reflexivity.
  assert (H2 : 0 <= 1920) by lia.
  assert (H3 : 0 <= 480) by lia.
  split; [exact H1|]. split; [exact H2|]. split; [exact H3|].
  destruct (create_melody_track_chaos four_chords high_scale (PyFloat f_4_0)
              480 zero_tape 0%nat) as [[evs c']|e] eqn:E;
    [|vm_compute in E; discriminate].
  destruct (X6_melody_is_contiguous_and_ends_within_the_progression
              _ _ _ _ _ _ _ _ _ H1 H2 H3 E)
    as (notes & Hp & Hc & _ & _ & Hs).
  exists evs, c', notes. auto.
Defined.

(** ** Tracks that are already in tick order *)

Lemma key_sorted_snoc {A} (key : A -> Z) (l : list A) (x : A) :
  key_sorted key l -> Forall (fun a => key a <= key x) l ->
  key_sorted key (l ++ [x]).
Proof.
  unfold key_sorted. induction 1 as [|a l Hs IH Ha]; intro Hx; cbn [app].
  - repeat constructor.
  - inversion Hx as [|? ? Hax Hx']; subst.
    constructor; [now apply IH|].
    apply Forall_app. split; [exact Ha | now repeat constructor].
Qed.

Lemma sorted_upto_nil (ts : Z) : sorted_upto ts [].
Proof. split; constructor. Qed.

Lemma sorted_upto_weaken (ts ts' : Z) evs :
  ts <= ts' -> sorted_upto ts evs -> sorted_upto ts' evs.
Proof.
  intros Hle [Hs Hb]. split; [exact Hs|].
  eapply Forall_impl; [|exact Hb]. cbn. intros; lia.
Qed.

Lemma sorted_upto_add_note (ts : Z) evs note vel start dur chan :
  sorted_upto ts evs -> 0 <= ts <= start -> 0 <= dur ->
  sorted_upto (start + dur) (add_note evs note vel start dur chan).
Proof.
  intros [Hs Hb] Hstart Hdur. unfold add_note. split.
  - apply key_sorted_snoc; [apply key_sorted_snoc; [exact Hs|]|].
    + eapply Forall_impl; [|exact Hb]. cbn. intros; lia.
    + apply Forall_app. split.
      * eapply Forall_impl; [|exact Hb]. cbn. intros; lia.
      * repeat constructor; cbn; lia.
  - apply Forall_app. split; [apply Forall_app; split|].
    + eapply Forall_impl; [|exact Hb]. cbn. intros; lia.
    + repeat constructor; cbn; lia.
    + repeat constructor; cbn; lia.
Qed.

Lemma sorted_of_key_sorted {A} (key : A -> Z) (l : list A) :
  key_sorted key l -> sorted key l = l.
Proof.
  intro Hs. symmetry. now apply stable_sort_is_sorted.
Qed.

Lemma bass_track_in_order chords bpc tpb t c :
  pynum_nonneg bpc -> 0 <= tpb ->
  wpx True (create_bass_track_chaos chords bpc tpb)
    (fun evs _ => exists ts, sorted_upto ts evs) t c.
Proof.
  intros Hb Ht. unfold create_bass_track_chaos.
  apply wpx_bind. eapply wpx_mono.
  - apply (wpx_for_each_inv True _
             (fun st => sorted_upto (snd st) (fst st) /\ 0 <= snd st));
      [split; [apply sorted_upto_nil | cbn; lia]|].
    clear t c. intros chord [evs cur] t c _ [Hevs Hcur].
    cbn [fst snd] in Hevs, Hcur. unfold bass_chord.
    lift_any Er. lift_any Ef. lift_any EL.
    match type of EL with _ = Ok ?x => set (L := x) in * end.
    assert (HL : 0 <= L) by exact (chord_length_ticks_nonneg bpc tpb L Hb Ht EL).
    apply wpx_bind, wpx_randint_any. intros subdivs Hs.
    lift_any Es.
    match type of Es with _ = Ok ?x => set (s := x) in * end.
    assert (Hs' : s = L / subdivs).
    { unfold bass_sub_tick_length, py_floordiv in Es.
      destruct (Z.gtb_spec subdivs 0); [|lia].
      destruct (Z.eqb_spec subdivs 0); [lia | congruence]. }
    assert (Hs0 : 0 <= s) by (rewrite Hs'; apply Z.div_pos; lia).
    apply wpx_bind. eapply wpx_mono.
    + apply (wpx_for_range True _
               (fun i st =>
                  sorted_upto (snd st) (fst st)
                  /\ snd st = cur + Z.of_nat i * s)).
      { split; [exact Hevs | cbn [snd]; lia]. }
      clear t c. intros i [evs' ts] t c _ [Hevs' Hts]. cbn [fst snd] in *.
      eapply wpx_mono; [apply bass_slot_spec|].
      intros st' _ (note & vel & _ & ->). cbn [fst snd]. split.
      * apply (sorted_upto_add_note ts); [exact Hevs' | nia | exact Hs0].
      * lia.
    + intros [evs' ts'] c1 [Hevs' Hts]. apply wpx_ret. cbn [fst snd] in *.
      split; [|lia].
      eapply sorted_upto_weaken; [|exact Hevs'].
      rewrite Z2Nat.id in Hts by lia.
      assert (subdivs * (L / subdivs) <= L) by (apply Z.mul_div_le; lia).
      rewrite Hs' in Hts. lia.
  - intros [evs cur] c1 [Hs _]. apply wpx_ret. now exists cur.
Qed.

Lemma harmony_track_in_order chords bpc tpb t c :
  pynum_nonneg bpc -> 0 <= tpb ->
  wpx True (create_harmony_track_chaos chords bpc tpb)
    (fun evs _ => exists ts, sorted_upto ts evs) t c.
Proof.
  intros Hb Ht. unfold create_harmony_track_chaos.
  apply wpx_bind. eapply wpx_mono.
  - apply (wpx_for_each_inv True _
             (fun st => sorted_upto (snd st) (fst st) /\ 0 <= snd st));
      [split; [apply sorted_upto_nil | cbn; lia]|].
    clear t c. intros chord [evs cur] t c _ [Hevs Hcur].
    cbn [fst snd] in Hevs, Hcur. unfold harmony_chord.
    lift_any EL.
    match type of EL with _ = Ok ?x => set (L := x) in * end.
    assert (HL : 0 <= L) by exact (chord_length_ticks_nonneg bpc tpb L Hb Ht EL).
    apply wpx_bind, wpx_randint_any. intros presses Hp.
    lift_any Ep.
    match type of Ep with _ = Ok ?x => set (pl := x) in * end.
    assert (Hpl : pl = L / presses).
    { unfold harmony_press_length, py_floordiv in Ep.
      destruct (Z.eqb_spec presses 0); [lia | congruence]. }
    assert (Hpl0 : 0 <= pl) by (rewrite Hpl; apply Z.div_pos; lia).
    apply wpx_bind. eapply wpx_mono.
    + apply (wpx_for_range True _
               (fun i st =>
                  sorted_upto (snd st) (fst st)
                  /\ cur <= snd st <= cur + Z.of_nat i * pl)).
      { split; [exact Hevs | cbn [snd]; lia]. }
      clear t c. intros i [evs' ts] t c _ [Hevs' Hts]. cbn [fst snd] in *.
      unfold harmony_press.
      apply wpx_bind. eapply wpx_mono; [apply shuffle_spec|].
      cbn beta. intros chord_notes c1 _.
      eapply wpx_mono.
      * apply (wpx_for_each True _
                 (fun j st =>
                    sorted_upto (snd st) (fst st)
                    /\ ts <= snd st
                       <= ts + Z.of_nat j
                               * (pl / Z.of_nat (length chord_notes)))).
        { split; [exact Hevs' | cbn [snd]; lia]. }
        clear t c c1. intros j note [evs'' ts''] t c _ [Hevs'' Hts''].
        cbn [fst snd] in *. unfold harmony_note.
        apply wpx_bind, wpx_randint_any. intros vel _.
        lift_any En.
        match type of En with _ = Ok ?x => set (nd := x) in * end.
        assert (Hnd : nd = pl / Z.of_nat (length chord_notes) /\ 0 <= nd).
        { unfold py_floordiv in En.
          destruct (Z.eqb_spec (Z.of_nat (length chord_notes)) 0);
            [discriminate|].
          injection En as En. split; [congruence|].
          rewrite <- En. apply Z.div_pos; lia. }
        destruct Hnd as [Hnd Hnd0].
        apply wpx_ret. cbn [fst snd]. split.
        -- apply (sorted_upto_add_note ts''); [exact Hevs'' | lia | exact Hnd0].
        -- lia.
      * cbn beta. intros [evs'' ts''] _ [Hevs'' Hts'']. cbn [fst snd] in *.
        split; [exact Hevs''|].
        assert (Z.of_nat (length chord_notes)
                * (pl / Z.of_nat (length chord_notes)) <= pl).
        { destruct (Z.eq_dec (Z.of_nat (length chord_notes)) 0) as [E0|E0].
          - rewrite E0. lia.
          - apply Z.mul_div_le. lia. }
        lia.
    + intros [evs' ts'] c1 [Hevs' Hts]. apply wpx_ret. cbn [fst snd] in *.
      split; [|lia].
      eapply sorted_upto_weaken; [|exact Hevs'].
      rewrite Z2Nat.id in Hts by lia.
      assert (presses * (L / presses) <= L) by (apply Z.mul_div_le; lia).
      rewrite Hpl in Hts. lia.
  - intros [evs cur] c1 [Hs _]. apply wpx_ret. now exists cur.
Qed.

Lemma melody_track_in_order chords scale_notes bpc tpb t c :
  pynum_nonneg bpc -> 0 <= tpb ->
  wpx True (create_melody_track_chaos chords scale_notes bpc tpb)
    (fun evs _ => exists ts, sorted_upto ts evs) t c.
Proof.
  intros Hb Ht. unfold create_melody_track_chaos.
  apply wpx_bind, wpx_randint_any. intros depth _.
  apply wpx_bind, wpx_randint_any. intros phrase_length _.
  apply wpx_bind.
  apply wpx_mono with (Q := fun _ _ => True).
  { eapply wpx_mono; [apply (wpx_list_comp True _ (fun _ => True))|auto].
    intros t0 c0. now apply wpx_randint_any. }
  intros phrase c1 _.
  apply wpx_bind. eapply wpx_mono.
  - apply (wpx_for_each_inv True _
             (fun st => sorted_upto (snd (fst st)) (fst (fst st))
                        /\ 0 <= snd (fst st)));
      [split; [apply sorted_upto_nil | cbn; lia]|].
    clear t c c1. intros chord st t c _ Hst. unfold melody_chord.
    lift_any EL.
    apply wpx_bind, wpx_randint_any. intros n Hn.
    lift_any Es.
    apply wpx_for_range_inv; [exact Hst|].
    clear - Hb Ht EL Es Hn. intros [[evs cur] idx] t c [Hevs Hcur].
    cbn [fst snd] in Hevs, Hcur.
    eapply wpx_mono; [apply melody_note_full|].
    intros st' _ (base & note & vel & d & nd & _ & _ & _ & Hd & End & ->).
    cbn [fst snd].
    match type of Es with
    | _ = Ok ?sub => assert (0 <= Z.min nd sub)
    end.
    { apply Z.min_glb.
      - eapply note_dur_ticks_nonneg; [|exact Ht|exact End].
        pose proof (proj2 (lsystem_durations_values depth)) as Hv.
        rewrite Forall_forall in Hv.
        destruct (Hv _ Hd) as [-> | ->]; reflexivity.
      - eapply melody_sub_tick_nonneg; [| |exact Es]; [|lia].
        exact (chord_length_ticks_nonneg bpc tpb _ Hb Ht EL). }
    split; [|lia].
    apply (sorted_upto_add_note cur); [exact Hevs | lia | assumption].
  - intros [[evs cur] idx] c2 [Hs _]. apply wpx_ret. now exists cur.
Qed.

(** X7. For a non-negative beats-per-chord and ticks-per-beat, the
    lists returned by the Bass, Harmony and Melody generators are already
    in non-decreasing tick order, on ticks that are not negative, so the
    stable sort of the serializer returns them unchanged: their messages
    are written in the order in which the notes were generated. *)
Theorem X7_bass_harmony_melody_tracks_are_already_sorted :
  forall (bpc : pynum) (tpb : Z),
    pynum_nonneg bpc ->
    0 <= tpb ->
    (forall chords t c evs c',
        create_bass_track_chaos chords bpc tpb t c = Ok (evs, c') ->
        key_sorted ev_tick evs
        /\ Forall (fun e => 0 <= ev_tick e) evs
        /\ sorted ev_tick evs = evs)
    /\ (forall chords t c evs c',
          create_harmony_track_chaos chords bpc tpb t c = Ok (evs, c') ->
          key_sorted ev_tick evs
          /\ Forall (fun e => 0 <= ev_tick e) evs
          /\ sorted ev_tick evs = evs)
    /\ (forall chords scale_notes t c evs c',
          create_melody_track_chaos chords scale_notes bpc tpb t c
          = Ok (evs, c') ->
          key_sorted ev_tick evs
          /\ Forall (fun e => 0 <= ev_tick e) evs
          /\ sorted ev_tick evs = evs).
Proof.
  intros bpc tpb Hb Ht.
  assert (Hfin : forall evs, (exists ts, sorted_upto ts evs) ->
                             key_sorted ev_tick evs
                             /\ Forall (fun e => 0 <= ev_tick e) evs
                             /\ sorted ev_tick evs = evs).
  { intros evs (ts & Hs & Hbd). split; [exact Hs|]. split.
    - eapply Forall_impl; [|exact Hbd]. cbn. intros; lia.
    - now apply sorted_of_key_sorted. }
  split; [|split].
  - intros chords t c evs c' E. apply Hfin.
    exact (wpx_inv _ _ _ _ _ _ _ (bass_track_in_order chords bpc tpb t c Hb Ht) E).
  - intros chords t c evs c' E. apply Hfin.
    exact (wpx_inv _ _ _ _ _ _ _
             (harmony_track_in_order chords bpc tpb t c Hb Ht) E).
  - intros chords scale_notes t c evs c' E. apply Hfin.
    exact (wpx_inv _ _ _ _ _ _ _
             (melody_track_in_order chords scale_notes bpc tpb t c Hb Ht) E).
Qed.

Lemma X7_witness :
  pynum_nonneg (PyFloat f_4_0)
  /\ 0 <= 480
  /\ exists evs c',
      create_bass_track_chaos four_chords (PyFloat f_4_0) 480 zero_tape 0%nat
      = Ok (evs, c')
      /\ sorted ev_tick evs = evs.
Proof.
  assert (H1 : pynum_nonneg (PyFloat f_4_0)) by reflexivity.
  assert (H2 : 0 <= 480) by lia.
  split; [exact H1|]. split; [exact H2|].
  destruct (create_bass_track_chaos four_chords (PyFloat f_4_0) 480
              zero_tape 0%nat) as [[evs c']|e] eqn:E;
    [|vm_compute in E; discriminate].
  exists evs, c'. split; [reflexivity|].
  destruct (X7_bass_harmony_melody_tracks_are_already_sorted
              (PyFloat f_4_0) 480 H1 H2) as (Hb & _).
  exact (proj2 (proj2 (Hb _ _ _ _ _ E))).
Defined.

(** ** Drums *)

Lemma wpx_for_range_from_idx {S} (R : Prop) (body : Z -> S -> Rand S)
  (I : nat -> S -> Prop) (n : nat) :
  forall (k0 : nat) (i0 : Z) s t c,
    I k0 s ->
    (forall k s t c, (k0 <= k < k0 + n)%nat -> I k s ->
       wpx R (body (i0 + Z.of_nat (k - k0)) s)
         (fun s' _ => I (Datatypes.S k) s') t c) ->
    wpx R (for_range_from i0 n body s) (fun s' _ => I (k0 + n)%nat s') t c.
Proof.
  induction n as [|n IH]; intros k0 i0 s t c Hs Hbody; cbn [for_range_from].
  - apply wpx_ret. now rewrite Nat.add_0_r.
  - apply wpx_bind. eapply wpx_mono.
    + specialize (Hbody k0 s t c). rewrite Nat.sub_diag, Z.add_0_r in Hbody.
      apply Hbody; [lia | exact Hs].
    + intros s' c' Hs'. cbn beta.
      replace (k0 + Datatypes.S n)%nat with (Datatypes.S k0 + n)%nat by lia.
      apply IH; [exact Hs'|].
      intros k s0 t0 c0 Hk Hk'.
      replace (i0 + 1 + Z.of_nat (k - Datatypes.S k0))
        with (i0 + Z.of_nat (k - k0)) by lia.
      apply Hbody; [lia | exact Hk'].
Qed.

Lemma drum_random_hit_emits ms bpm tpb evs t c :
  wpx True (drum_random_hit ms bpm tpb evs)
    (fun evs' _ =>
       exists note vel start dur,
         In note DRUM_NOTES /\ 40 <= vel <= 120
         /\ evs' = add_note evs note vel start dur 9)
    t c.
Proof.
  unfold drum_random_hit.
  apply wpx_bind, wpx_choice_any. intros note Hnote.
  apply wpx_bind, wpx_random.
  lift_any Eo. lift_any Et. lift_any Ed.
  apply wpx_bind, wpx_randint_any. intros vel Hvel.
  apply wpx_ret. eexists note, vel, _, _. eauto.
Qed.

Lemma incl_add_note evs0 evs note vel start dur chan :
  incl evs0 evs -> incl evs0 (add_note evs note vel start dur chan).
Proof.
  intros H e He. rewrite add_note_app. apply in_or_app. left. now apply H.
Qed.

Lemma drum_track_emits num_measures bpm tpb t c :
  wpx True (create_drum_track_chaos num_measures bpm tpb)
    (fun evs _ => drum_inv bpm tpb (Z.to_nat num_measures) evs) t c.
Proof.
  unfold create_drum_track_chaos.
  apply (wpx_for_range_from_idx True _ (drum_inv bpm tpb)
           (Z.to_nat num_measures) O 0).
  { split; [constructor|]. split; [destruct (bpm =? 4); cbn; lia|].
    intros _ i Hi. lia. }
  clear t c. intros k evs t c _ (Hevs & Hlen & Hback).
  rewrite Nat.sub_0_r, Z.add_0_l. unfold drum_measure.
  apply wpx_bind.
  apply wpx_mono
    with (Q := fun evs' _ =>
                 events_carry drum_event_ok evs'
                 /\ incl evs evs'
                 /\ if bpm =? 4
                    then length evs' = (length evs + 4)%nat
                         /\ exists d, tenth_of_beat tpb = Ok d
                                      /\ incl (backbone tpb d (Z.of_nat k)) evs'
                    else evs' = evs).
  { destruct (Z.eqb_spec bpm 4) as [E4|E4].
    - lift_any Ek. lift_any Es. apply wpx_ret. subst bpm.
      split; [|split; [|split]].
      + repeat apply events_carry_add_note; try exact Hevs;
          (split; [reflexivity|]; split; [lia|]; cbn; tauto).
      + now repeat apply incl_add_note.
      + rewrite !length_add_note. lia.
      + eexists. split; [reflexivity|].
        rewrite !add_note_app, <- app_assoc.
        apply incl_appr. unfold backbone, note_events. cbn [app n_start n_dur
          n_pitch n_vel n_chan].
        apply incl_refl.
    - apply wpx_ret. split; [exact Hevs|]. split; [apply incl_refl | reflexivity]. }
  intros evs1 c1 (Hevs1 & Hincl & H4).
  apply wpx_bind, wpx_randint_any. intros hits Hhits.
  eapply wpx_mono.
  - apply (wpx_for_range True _
             (fun j evs' =>
                events_carry drum_event_ok evs'
                /\ incl evs1 evs'
                /\ length evs' = (length evs1 + 2 * j)%nat)).
    { split; [exact Hevs1|]. split; [apply incl_refl | lia]. }
    clear t c c1. intros j evs' t c _ (He & Hi & Hl).
    eapply wpx_mono; [apply drum_random_hit_emits|].
    intros evs'' _ (note & vel & start & dur & Hn & Hv & ->).
    split; [|split].
    + apply events_carry_add_note; [exact He|].
      split; [reflexivity|]. split; [exact Hv | exact Hn].
    + now apply incl_add_note.
    + rewrite length_add_note. lia.
  - cbn beta. intros evs2 _ (He & Hi & Hl).
    split; [exact He|]. split.
    + destruct (bpm =? 4).
      * destruct H4 as [H4 _]. rewrite Hl, H4. lia.
      * subst evs1. rewrite Hl. lia.
    + intros E4 i Hi4.
      destruct (Z.eq_dec i (Z.of_nat k)) as [-> | Hne].
      * rewrite E4 in H4. cbn in H4. destruct H4 as (_ & d & Ed & Hb).
        exists d. split; [exact Ed|].
        eapply incl_tran; [exact Hb | exact Hi].
      * destruct (Hback E4 i) as (d & Ed & Hb); [lia|].
        exists d. split; [exact Ed|].
        eapply incl_tran; [exact Hb|]. eapply incl_tran; eassumption.
Qed.

(** X8. Every event of a list returned by the drum generator is on
    channel 9, has a velocity from 40 to 120 and sounds one of the eleven
    drum notes.  Each measure adds two to eight random hits, and in 4/4
    also the fixed kick and snare, so m measures give between 8 m and
    20 m events in 4/4 and between 4 m and 16 m otherwise; a measure
    count that is zero or negative gives no event.  In 4/4 every measure
    i holds a kick (note 36, velocity 100) on its first tick
    [i * 4 * tpb] and a snare (note 38, velocity 100) two beats later,
    each released [int(0.1 * tpb)] ticks after it is struck. *)
Theorem X8_drum_events_backbone_and_count :
  forall num_measures bpm tpb t c evs c',
    create_drum_track_chaos num_measures bpm tpb t c = Ok (evs, c') ->
    let m := Z.max 0 num_measures in
    events_carry drum_event_ok evs
    /\ (if bpm =? 4
        then 8 * m <= Z.of_nat (length evs) <= 20 * m
        else 4 * m <= Z.of_nat (length evs) <= 16 * m)
    /\ (bpm = 4 ->
        forall i, 0 <= i < num_measures ->
                  exists d, tenth_of_beat tpb = Ok d
                            /\ incl (backbone tpb d i) evs).
Proof.
  intros num_measures bpm tpb t c evs c' E m.
  pose proof (wpx_inv _ _ _ _ _ _ _
                (drum_track_emits num_measures bpm tpb t c) E)
    as (H1 & H2 & H3).
  replace (Z.of_nat (Z.to_nat num_measures)) with m in H2 by (subst m; lia).
  split; [exact H1|]. split; [exact H2|].
  intros E4 i Hi. apply (H3 E4). lia.
Qed.

Lemma X8_witness :
  exists evs c',
    create_drum_track_chaos 2 4 480 zero_tape 0%nat = Ok (evs, c')
    /\ events_carry drum_event_ok evs
    /\ 16 <= Z.of_nat (length evs) <= 40
    /\ In (mk_event 2880 note_on 38 100 9) evs.
Proof.
  destruct (create_drum_track_chaos 2 4 480 zero_tape 0%nat)
    as [[evs c']|e] eqn:E; [|vm_compute in E; discriminate].
  exists evs, c'. split; [reflexivity|].
  destruct (X8_drum_events_backbone_and_count _ _ _ _ _ _ _ E)
    as (H1 & H2 & H3).
  split; [exact H1|]. split; [exact H2|].
  destruct (H3 eq_refl 1) as (d & Ed & Hb); [lia|].
  apply Hb. right. right. now left.
Defined.

(** ** The key of a progression and the scale of a melody *)

Lemma progression_in_key (num_chords : Z) t c :
  wpx False (get_random_chord_progression num_chords)
    (fun '(chords, label) _ =>
       exists root octave mode intervals,
         In root note_names /\ 2 <= octave <= 5
         /\ In (mode, intervals) possible_modes
         /\ label = (root ++ py_str_int octave ++ " " ++ mode)%string
         /\ Forall (chord_in_key (note_name_to_midi root octave) intervals)
              chords)
    t c.
Proof.
  unfold get_random_chord_progression.
  apply wpx_bind, wpx_choice; [discriminate|]. intros root Hroot.
  apply wpx_bind, wpx_randint; [lia|]. intros octave Hoct.
  apply wpx_bind, wpx_choice; [discriminate|]. intros mode Hmode.
  assert (Hint : exists intervals,
             dict_getitem possible_modes mode = Ok intervals
             /\ intervals <> []
             /\ In (mode, intervals) possible_modes).
  { cbn in Hmode.
    destruct Hmode as [<- | [<- | [<- | [<- | []]]]];
      eexists; (split; [reflexivity|]); (split; [discriminate|]);
      cbn; tauto. }
  destruct Hint as (intervals & Eint & Hne & Hin).
  apply wpx_bind. eapply wpx_lift_ok; [exact Eint|].
  apply wpx_bind. eapply wpx_mono.
  - apply (wpx_for_range_inv False _
             (Forall (chord_in_key (note_name_to_midi root octave) intervals)));
      [constructor|].
    intros chords t0 c0 Hch.
    apply wpx_bind, wpx_choice; [exact Hne|]. intros interval Hi.
    apply wpx_bind. eapply wpx_mono; [apply build_triads_spec|].
    intros triad c1 [_ ->]. apply wpx_ret.
    apply Forall_app. split; [exact Hch|]. constructor; [|constructor].
    exists interval. split; [exact Hi|].
    destruct (fltb _ _); [left | right]; reflexivity.
  - intros chords c1 Hch. apply wpx_ret.
    exists root, octave, mode, intervals. auto.
Qed.

Lemma possible_modes_intervals (mode : string) (intervals : list Z) :
  In (mode, intervals) possible_modes ->
  Forall (fun i => 0 <= i <= 11) intervals /\ length intervals = 7%nat.
Proof.
  intro H. cbn in H.
  repeat (destruct H as [[= <- <-] | H];
          [split; [repeat constructor; lia | reflexivity]|]).
  destruct H.
Qed.

(** X9. Every progression is written in one key, and the label names
    it.  For any chord count and any draws, the builder returns chords
    and a label such that, for the root name, octave (2 to 5) and mode
    (one of major, minor, phrygian and lydian, of seven degrees each)
    spelled out in the label, every chord is a major or minor triad
    whose root is the key root [note_name_to_midi root octave] plus a
    degree of that mode; hence all chord pitches lie between 36 and 101.
    A negative chord count gives the empty progression. *)
Theorem X9_progression_is_in_the_key_named_by_its_label :
  forall (num_chords : Z) (t : tape) (c : nat),
    exists chords label c' root octave mode intervals,
      get_random_chord_progression num_chords t c = Ok ((chords, label), c')
      /\ In root note_names
      /\ 2 <= octave <= 5
      /\ In (mode, intervals) possible_modes
      /\ length intervals = 7%nat
      /\ label = (root ++ py_str_int octave ++ " " ++ mode)%string
      /\ Forall (chord_in_key (note_name_to_midi root octave) intervals) chords
      /\ Forall (Forall (fun p => 36 <= p <= 101)) chords
      /\ (num_chords <= 0 -> chords = []).
Proof.
  intros num_chords t c.
  destruct (wpx_total_inv _ _ _ _ (progression_in_key num_chords t c))
    as ([chords label] & c' & E & root & octave & mode & intervals
        & Hroot & Hoct & Hmode & Hlabel & Hkey).
  exists chords, label, c', root, octave, mode, intervals.
  destruct (possible_modes_intervals _ _ Hmode) as [Hint Hlen].
  rewrite Forall_forall in Hint.
  pose proof (note_name_to_midi_range root octave Hroot) as Hbase.
  repeat (split; [assumption|]). split.
  - eapply Forall_impl; [|exact Hkey].
    intros chord (interval & Hi & Hc). specialize (Hint _ Hi).
    destruct Hc as [-> | ->]; repeat constructor; lia.
  - intro Hn.
    pose proof (wpx_total_inv _ _ _ _
                  (get_random_chord_progression_spec num_chords t c))
      as ([chords2 label2] & c2 & E2 & Hl & _).
    rewrite E in E2. injection E2 as <- <- <-.
    replace (Z.to_nat num_chords) with O in Hl by lia.
    now destruct chords.
Qed.

Lemma X9_witness :
  (-2 <= 0)
  /\ exists label c',
      get_random_chord_progression (-2) zero_tape 0%nat
      = Ok (([], label), c').
Proof.
  assert (H : -2 <= 0) by lia.
  split; [exact H|].
  destruct (X9_progression_is_in_the_key_named_by_its_label (-2) zero_tape 0%nat)
    as (chords & label & c' & root & octave & mode & intervals & E & _ & _ & _
        & _ & _ & _ & _ & Hnil).
  exists label, c'. rewrite <- (Hnil H). exact E.
Defined.

Lemma build_scale_notes_app (root : Z) (intervals : list Z) :
  build_scale_notes root intervals
  = map (fun i => root + i) intervals ++ map (fun i => root + i + 12) intervals.
Proof.
  unfold build_scale_notes. cbn [flat_map]. rewrite app_nil_r.
  f_equal; apply map_ext; intro i; lia.
Qed.

(** X10. The scale built for the melody holds the chosen intervals
    above the root followed by the same an octave higher, so it is twice
    as long as the interval list and entry [k + len] is entry [k] plus
    12.  For each of the five interval lists the script chooses from, it
    has 10 or 14 entries, strictly increasing from the root itself, all
    below root + 24: no pitch occurs twice. *)
Theorem X10_scale_notes_span_two_octaves_strictly_increasing :
  forall (root : Z) (intervals : list Z),
    length (build_scale_notes root intervals) = (2 * length intervals)%nat
    /\ (forall k i,
          nth_error intervals k = Some i ->
          nth_error (build_scale_notes root intervals) k = Some (root + i)
          /\ nth_error (build_scale_notes root intervals)
               (length intervals + k) = Some (root + i + 12))
    /\ (In intervals scale_mode_choices ->
        (length (build_scale_notes root intervals) = 10%nat
         \/ length (build_scale_notes root intervals) = 14%nat)
        /\ StronglySorted Z.lt (build_scale_notes root intervals)
        /\ NoDup (build_scale_notes root intervals)
        /\ hd_error (build_scale_notes root intervals) = Some root
        /\ Forall (fun p => root <= p < root + 24)
             (build_scale_notes root intervals)).
Proof.
  intros root intervals. rewrite build_scale_notes_app.
  split; [rewrite length_app, !length_map; lia|]. split.
  - intros k i Hk. split.
    + rewrite nth_error_app1
        by (rewrite length_map; apply nth_error_Some; congruence).
      now rewrite nth_error_map, Hk.
    + rewrite nth_error_app2 by (rewrite length_map; lia).
      rewrite length_map.
      replace (length intervals + k - length intervals)%nat with k by lia.
      now rewrite nth_error_map, Hk.
  - intro Hin. cbn in Hin.
    assert (Hs : StronglySorted Z.lt
                   (map (fun i => root + i) intervals
                    ++ map (fun i => root + i + 12) intervals)
                 /\ (length intervals = 5%nat \/ length intervals = 7%nat)
                 /\ hd_error intervals = Some 0
                 /\ Forall (fun i => 0 <= i < 12) intervals).
    { repeat (destruct Hin as [<- | Hin];
              [split; [cbn; repeat constructor; lia|];
               split; [cbn; auto|]; split; [reflexivity|];
               repeat constructor; lia|]).
      destruct Hin. }
    destruct Hs as (Hs & Hlen & Hhd & Hrange).
    split; [rewrite length_app, !length_map; lia|].
    split; [exact Hs|]. split.
    + clear - Hs. induction Hs as [|x l Hs IH Hx]; constructor; [|exact IH].
      intro Hin. rewrite Forall_forall in Hx. specialize (Hx _ Hin). lia.
    + split.
      * destruct intervals as [|i0 l]; [discriminate|].
        cbn in Hhd |- *. injection Hhd as ->. f_equal. lia.
      * apply Forall_app. split; apply Forall_map;
          (eapply Forall_impl; [|exact Hrange]); cbn; intros; lia.
Qed.

Lemma X10_witness :
  In [0; 2; 4; 7; 9] scale_mode_choices
  /\ nth_error [0; 2; 4; 7; 9] 3 = Some 7
  /\ build_scale_notes 60 [0; 2; 4; 7; 9]
     = [60; 62; 64; 67; 69; 72; 74; 76; 79; 81]
  /\ NoDup (build_scale_notes 60 [0; 2; 4; 7; 9])
  /\ nth_error (build_scale_notes 60 [0; 2; 4; 7; 9]) (5 + 3) = Some (60 + 7 + 12).
Proof.
  assert (H1 : In [0; 2; 4; 7; 9] scale_mode_choices)
    by (cbn; tauto).
  assert (H2 : nth_error [0; 2; 4; 7; 9] 3 = Some 7) by reflexivity.
  split; [exact H1|]. split; [exact H2|]. split; [reflexivity|].
  destruct (X10_scale_notes_span_two_octaves_strictly_increasing
              60 [0; 2; 4; 7; 9]) as (_ & Hnth & Hmode).
  split; [exact (proj1 (proj2 (proj2 (Hmode H1))))|].
  exact (proj2 (Hnth _ _ H2)).
Defined.

(** ** The file that is written *)

Lemma bind_raises {A B} (m : Rand A) (k : A -> Rand B) (err : PyErr) t c :
  wpx False m (fun a c' => k a t c' = Raise err) t c ->
  bind m k t c = Raise err.
Proof.
  unfold wpx, bind. destruct (m t c) as [[a c']|e]; [auto | tauto].
Qed.

Lemma payload_notes (body : list Message) :
  forall evs,
    map msg_payload body = map ev_payload evs ->
    Forall (fun m => msg_payload m <> None) body.
Proof.
  induction body as [|m body IH]; intros [|e evs] E; try discriminate;
    constructor.
  - cbn [map] in E. injection E as Em _. rewrite Em. discriminate.
  - cbn [map] in E. injection E as _ E. exact (IH evs E).
Qed.

Lemma fix_end_of_track_notes (body : list Message) :
  Forall (fun m => msg_payload m <> None) body ->
  fix_end_of_track 0 (body ++ [end_of_track 0]) = body ++ [end_of_track 0].
Proof.
  induction 1 as [|m body Hm _ IH]; [reflexivity|].
  cbn [app fix_end_of_track]. rewrite IH.
  destruct m; cbn in Hm; try congruence; reflexivity.
Qed.

Lemma tick_deltas_nonneg_inv (ticks : list Z) :
  forall prev,
    0 <= prev -> Forall (fun d => 0 <= d) (tick_deltas prev ticks) ->
    Forall (fun x => 0 <= x) ticks.
Proof.
  induction ticks as [|x ticks IH]; intros prev Hprev Hd; [constructor|].
  cbn [tick_deltas] in Hd. inversion Hd as [|? ? Hx Hd']; subst.
  constructor; [lia|]. apply (IH x); [lia | exact Hd'].
Qed.

(** A track of the merger is written as it is when no event has a
    negative tick, and refused otherwise. *)
Lemma write_track_of (name : string) (events : list event)
  (track : list Message) :
  track_of (name, events) track ->
  (Forall (fun e => 0 <= ev_tick e) events -> write_track track = Ok track)
  /\ ((exists written, write_track track = Ok written) ->
      Forall (fun e => 0 <= ev_tick e) events).
Proof.
  intros (program & body & -> & _ & Hp & Ht).
  pose proof (payload_notes body _ Hp) as Hnotes.
  assert (Hfix :
    fix_end_of_track 0
      (program_change program (track_channel name) 0
       :: body ++ [end_of_track 0])
    = program_change program (track_channel name) 0
      :: body ++ [end_of_track 0]).
  { cbn [fix_end_of_track]. rewrite (fix_end_of_track_notes body Hnotes).
    reflexivity. }
  unfold write_track. rewrite Hfix. split.
  - intro Hpos.
    assert (Hd : Forall (fun d => 0 <= d) (map msg_time body)).
    { rewrite Ht. apply tick_deltas_nonneg. constructor.
      - apply key_sorted_map, sorted_key_sorted.
      - rewrite Forall_map.
        eapply Permutation_Forall; [apply sorted_perm | exact Hpos]. }
    rewrite Forall_map in Hd.
    replace (forallb _ _) with true; [reflexivity|].
    symmetry. apply forallb_forall. intros m Hm.
    destruct Hm as [<- | Hm]; [reflexivity|].
    apply in_app_or in Hm. destruct Hm as [Hm | [<- | []]]; [|reflexivity].
    rewrite Forall_forall in Hd. apply Z.leb_le, Hd, Hm.
  - intros (written & E).
    destruct (forallb _ _) eqn:Hall; [|discriminate].
    rewrite forallb_forall in Hall.
    assert (Hd : Forall (fun d => 0 <= d)
                   (tick_deltas 0 (map ev_tick (sorted ev_tick events)))).
    { rewrite <- Ht, Forall_map. apply Forall_forall. intros m Hm.
      apply Z.leb_le, Hall. right. apply in_or_app. now left. }
    apply tick_deltas_nonneg_inv in Hd; [|lia].
    rewrite Forall_map in Hd.
    eapply Permutation_Forall; [apply Permutation_sym, sorted_perm | exact Hd].
Qed.

Lemma write_tracks_of (tracks_dict : list (string * list event))
  (tracks : list (list Message)) :
  Forall2 track_of tracks_dict tracks ->
  (Forall entry_writable tracks_dict -> write_tracks tracks = Ok tracks)
  /\ ((exists written, write_tracks tracks = Ok written) ->
      Forall (fun entry => Forall (fun e => 0 <= ev_tick e) (snd entry))
        tracks_dict).
Proof.
  induction 1 as [|[name events] track d l Htr _ [IHa IHb]]; cbn [write_tracks].
  - split; [reflexivity | constructor].
  - destruct (write_track_of name events track Htr) as [Ha Hb]. split.
    + intro Hw. inversion Hw as [|? ? [_ Hpos] Hw']; subst. cbn [snd] in Hpos.
      rewrite (Ha Hpos). cbn [result_bind]. now rewrite (IHa Hw').
    + intros (written & E).
      destruct (write_track track) as [w|] eqn:Ew; [|discriminate].
      cbn [result_bind] in E.
      destruct (write_tracks l) as [ws|] eqn:Ews; [|discriminate].
      constructor; [cbn [snd]; apply Hb; eauto | apply IHb; eauto].
Qed.

(** What holds whenever the merger returns. *)
Lemma combine_and_write_midi_partial tracks_dict filename tempo_bpm t c :
  wpx True (combine_and_write_midi tracks_dict filename tempo_bpm)
    (fun '(name, mid) _ =>
       exists us tracks,
         microseconds_per_beat tempo_bpm = Ok us
         /\ 0 <= us <= 16777215
         /\ name = filename
         /\ mid = mk_MidiFile TICKS_PER_BEAT ([set_tempo us 0] :: tracks)
         /\ Forall2 track_of tracks_dict tracks
         /\ Forall entry_writable tracks_dict)
    t c.
Proof.
  unfold combine_and_write_midi.
  lift_any Eus.
  match type of Eus with _ = Ok ?x => rename x into us end.
  apply wpx_bind, wpx_lift. unfold MetaMessage_set_tempo.
  destruct (tempo_value us) eqn:Etv; [|exact I].
  assert (Hus : 0 <= us <= 16777215).
  { unfold tempo_value in Etv. apply andb_true_iff in Etv.
    destruct Etv as [H1 H2]. apply Z.leb_le in H1, H2. lia. }
  apply wpx_bind. eapply wpx_mono.
  - apply (wpx_for_each True _
             (fun k tracks =>
                exists ts,
                  tracks = [set_tempo us 0] :: ts
                  /\ Forall2 track_of (firstn k tracks_dict) ts
                  /\ Forall (fun entry => Forall event_bytes_valid (snd entry))
                       (firstn k tracks_dict))).
    { exists []. split; [reflexivity|]. split; constructor. }
    clear t c. intros k [name events] tracks t c Hnth (ts & -> & Hts & Hval).
    apply wpx_bind. eapply wpx_mono; [apply combine_track_partial|].
    intros track c1 [Hv Htrack]. apply wpx_ret.
    exists (ts ++ [track]). split; [reflexivity|].
    rewrite (firstn_succ_nth _ _ _ Hnth). split.
    + apply Forall2_app; [exact Hts|].
      constructor; [exact Htrack | constructor].
    + apply Forall_app. split; [exact Hval|]. now constructor.
  - intros tracks c1 (ts & -> & Hts & Hval). rewrite firstn_all in Hts, Hval.
    lift_any Es. apply wpx_ret.
    exists us, ts. split; [exact Eus|]. split; [exact Hus|].
    split; [reflexivity|]. split; [reflexivity|]. split; [exact Hts|].
    unfold save in Es. cbn [mid_tracks write_tracks] in Es.
    destruct (write_track [set_tempo us 0]) as [w|]; [|discriminate].
    cbn [result_bind] in Es.
    destruct (write_tracks ts) as [ws|] eqn:Ews; [|discriminate].
    pose proof (proj2 (write_tracks_of tracks_dict ts Hts)
                  (ex_intro _ ws Ews)) as Hpos.
    rewrite Forall_forall in Hval, Hpos. apply Forall_forall.
    intros entry Hin. split; [apply Hval | apply Hpos]; exact Hin.
Qed.

(** When the merger returns. *)
Lemma combine_and_write_midi_full tracks_dict filename tempo_bpm us t c :
  microseconds_per_beat tempo_bpm = Ok us ->
  0 <= us <= 16777215 ->
  Forall entry_writable tracks_dict ->
  wpx False (combine_and_write_midi tracks_dict filename tempo_bpm)
    (fun '(name, mid) _ =>
       exists tracks,
         name = filename
         /\ mid = mk_MidiFile TICKS_PER_BEAT ([set_tempo us 0] :: tracks)
         /\ Forall2 track_of tracks_dict tracks
         /\ save mid
            = Ok (mk_MidiFile TICKS_PER_BEAT
                    ([set_tempo us 0; end_of_track 0] :: tracks)))
    t c.
Proof.
  intros Eus Hus Hw. unfold combine_and_write_midi.
  apply wpx_bind. eapply wpx_lift_ok; [exact Eus|].
  apply wpx_bind. eapply wpx_lift_ok.
  { unfold MetaMessage_set_tempo, tempo_value.
    replace (0 <=? us) with true by (symmetry; apply Z.leb_le; lia).
    replace (us <=? 16777215) with true by (symmetry; apply Z.leb_le; lia).
    reflexivity. }
  apply wpx_bind. eapply wpx_mono.
  - apply (wpx_for_each False _
             (fun k tracks =>
                exists ts,
                  tracks = [set_tempo us 0] :: ts
                  /\ Forall2 track_of (firstn k tracks_dict) ts)).
    { exists []. split; [reflexivity | constructor]. }
    clear t c. intros k [name events] tracks t c Hnth (ts & -> & Hts).
    assert (Hv : Forall event_bytes_valid events).
    { rewrite Forall_forall in Hw.
      exact (proj1 (Hw _ (nth_error_In _ _ Hnth))). }
    apply wpx_bind. eapply wpx_mono; [apply combine_track_spec, Hv|].
    intros track c1 Htrack. apply wpx_ret.
    exists (ts ++ [track]). split; [reflexivity|].
    rewrite (firstn_succ_nth _ _ _ Hnth).
    apply Forall2_app; [exact Hts|]. constructor; [exact Htrack | constructor].
  - intros tracks c1 (ts & -> & Hts). rewrite firstn_all in Hts.
    assert (Es : save (mk_MidiFile TICKS_PER_BEAT ([set_tempo us 0] :: ts))
                 = Ok (mk_MidiFile TICKS_PER_BEAT
                         ([set_tempo us 0; end_of_track 0] :: ts))).
    { unfold save. cbn [mid_tracks mid_ticks_per_beat write_tracks].
      change (write_track [set_tempo us 0])
        with (Ok [set_tempo us 0; end_of_track 0] : result (list Message)).
      cbn [result_bind].
      now rewrite (proj1 (write_tracks_of tracks_dict ts Hts) Hw). }
    apply wpx_bind. eapply wpx_lift_ok; [exact Es|].
    apply wpx_ret. exists ts. auto.
Qed.

(** A tempo value that the tempo message refuses stops the merger
    before any track is built. *)
Lemma combine_and_write_midi_refuses_tempo tracks_dict filename tempo_bpm us t c :
  microseconds_per_beat tempo_bpm = Ok us ->
  tempo_value us = false ->
  combine_and_write_midi tracks_dict filename tempo_bpm t c = Raise ValueError.
Proof.
  intros Eus Etv. unfold combine_and_write_midi.
  apply bind_raises. eapply wpx_lift_ok; [exact Eus|].
  unfold bind, lift, MetaMessage_set_tempo. now rewrite Etv.
Qed.

(** X11. The merger returns exactly when everything it is given can be
    written.  Given a tempo that converts to a value [us] from 0 to
    16777215 microseconds per beat and a dict whose events carry data
    that fit a note message on non-negative ticks, it returns, under the
    file name it was given, a file of resolution 480 ticks per beat whose
    first track is the single tempo message [set_tempo us] at time 0 and
    which then has one track per entry of the dict, in the order of the
    entries.  Each such track is one program change at time 0 (program 0
    on channel 9 for "Drums"; otherwise one of the ten listed
    instruments, on channel 1 for "Bass", 2 for "Harmony" and 0 for any
    other name), then one note message per event, and the end-of-track
    marker at delta 0.  On disk the tempo track ends with an end-of-track
    marker of its own and the other tracks stand as they are.
    Conversely, whenever the merger returns, the tempo value is within
    0..16777215, every event fits a note message and no tick is
    negative. *)
Theorem X11_written_file_has_tempo_track_then_one_track_per_entry :
  forall tracks_dict filename tempo_bpm t c,
    (forall us,
        microseconds_per_beat tempo_bpm = Ok us ->
        0 <= us <= 16777215 ->
        Forall entry_writable tracks_dict ->
        exists tracks c',
          combine_and_write_midi tracks_dict filename tempo_bpm t c
          = Ok ((filename,
                 mk_MidiFile TICKS_PER_BEAT ([set_tempo us 0] :: tracks)), c')
          /\ length tracks = length tracks_dict
          /\ Forall2 track_of tracks_dict tracks
          /\ Forall2 (fun entry track =>
                        length track = (length (snd entry) + 2)%nat)
               tracks_dict tracks
          /\ save (mk_MidiFile TICKS_PER_BEAT ([set_tempo us 0] :: tracks))
             = Ok (mk_MidiFile TICKS_PER_BEAT
                     ([set_tempo us 0; end_of_track 0] :: tracks)))
    /\ (forall name mid c',
          combine_and_write_midi tracks_dict filename tempo_bpm t c
          = Ok ((name, mid), c') ->
          exists us,
            microseconds_per_beat tempo_bpm = Ok us
            /\ 0 <= us <= 16777215
            /\ Forall entry_writable tracks_dict).
Proof.
  intros tracks_dict filename tempo_bpm t c. split.
  - intros us Eus Hus Hw.
    destruct (wpx_total_inv _ _ _ _
                (combine_and_write_midi_full tracks_dict filename tempo_bpm us
                   t c Eus Hus Hw))
      as ([name mid] & c' & E & tracks & -> & -> & Htr & Hsave).
    exists tracks, c'. split; [exact E|].
    split; [symmetry; eapply Forall2_length; exact Htr|].
    split; [exact Htr|]. split; [|exact Hsave].
    clear E Hw Hsave.
    induction Htr as [|[name events] track d l Ht _ IH]; constructor;
      [|exact IH].
    destruct Ht as (program & body & -> & _ & Hp & _). cbn [snd length].
    rewrite length_app. cbn [length].
    assert (Hl : length body = length events).
    { rewrite <- (length_map msg_payload body), Hp, length_map.
      symmetry. apply Permutation_length, sorted_perm. }
    lia.
  - intros name mid c' E.
    pose proof (combine_and_write_midi_partial tracks_dict filename tempo_bpm
                  t c) as H.
    unfold wpx in H. rewrite E in H.
    destruct H as (us & tracks & Eus & Hus & _ & _ & _ & Hw). eauto.
Qed.

Lemma X11_witness :
  microseconds_per_beat 120 = Ok 500000
  /\ Forall entry_writable [("Bass"%string, sample_events)]
  /\ exists tracks c',
      combine_and_write_midi [("Bass"%string, sample_events)]
        "holy_random.mid" 120 zero_tape 0%nat
      = Ok (("holy_random.mid"%string,
             mk_MidiFile TICKS_PER_BEAT ([set_tempo 500000 0] :: tracks)), c')
      /\ length tracks = 1%nat.
Proof.
  assert (H : microseconds_per_beat 120 = Ok 500000) by reflexivity.
  assert (Hw : Forall entry_writable [("Bass"%string, sample_events)])
    by (repeat constructor; cbn; lia).
  split; [exact H|]. split; [exact Hw|].
  destruct (proj1 (X11_written_file_has_tempo_track_then_one_track_per_entry
                     [("Bass"%string, sample_events)] "holy_random.mid" 120
                     zero_tape 0%nat) 500000 H ltac:(lia) Hw)
    as (tracks & c' & E & Hlen & _).
  exists tracks, c'. split; [exact E | exact Hlen].
Defined.

Lemma tempo_exact_upto_1000 (tempo : Z) :
  1 <= tempo <= 1000 -> microseconds_per_beat tempo = Ok (60000000 / tempo).
Proof.
  intro Hb.
  assert (Hall : forallb tempo_exact (map Z.of_nat (seq 1 1000)) = true)
    by (vm_compute; reflexivity).
  rewrite forallb_forall in Hall.
  assert (Hin : In tempo (map Z.of_nat (seq 1 1000))).
  { apply in_map_iff. exists (Z.to_nat tempo). split; [lia|].
    apply in_seq. lia. }
  specialize (Hall tempo Hin). unfold tempo_exact in Hall.
  destruct (microseconds_per_beat tempo) as [us|]; [|discriminate].
  apply Z.eqb_eq in Hall. now subst us.
Qed.

Lemma tempo_refused_below_zero (tempo : Z) :
  -1000 <= tempo <= -1 ->
  exists us, microseconds_per_beat tempo = Ok us /\ tempo_value us = false.
Proof.
  intro Hb.
  assert (Hall : forallb tempo_refused
                   (map (fun k => - Z.of_nat k) (seq 1 1000)) = true)
    by (vm_compute; reflexivity).
  rewrite forallb_forall in Hall.
  assert (Hin : In tempo (map (fun k => - Z.of_nat k) (seq 1 1000))).
  { apply in_map_iff. exists (Z.to_nat (- tempo)). split; [lia|].
    apply in_seq. lia. }
  specialize (Hall tempo Hin). unfold tempo_refused in Hall.
  destruct (microseconds_per_beat tempo) as [us|]; [|discriminate].
  exists us. split; [reflexivity|]. now apply negb_true_iff.
Qed.

(** X12. A tempo of 0 makes the merger raise ZeroDivisionError,
    whatever the tracks and the draws, before any track is written.  For
    every tempo from 1 to 1000 beats per minute (checked by evaluation of
    the division) the tempo value is the integer quotient
    [60000000 // tempo] microseconds per beat.  For the tempos 1, 2 and
    3 that value exceeds 16777215 and for the tempos from -1000 to -1 it
    is negative: the tempo message refuses it and the merger raises
    ValueError, whatever the tracks.  From 4 to 1000 the value lies
    between 60000 and 15000000, and the merger writes it and returns for
    every dict whose events can be written. *)
Theorem X12_tempo_zero_raises_and_tempo_is_floor_of_quotient :
  (forall tracks_dict filename t c,
      combine_and_write_midi tracks_dict filename 0 t c
      = Raise ZeroDivisionError)
  /\ (forall tempo,
        1 <= tempo <= 1000 ->
        microseconds_per_beat tempo = Ok (60000000 / tempo))
  /\ (forall tempo,
        -1000 <= tempo <= -1 \/ 1 <= tempo <= 3 ->
        forall tracks_dict filename t c,
          combine_and_write_midi tracks_dict filename tempo t c
          = Raise ValueError)
  /\ (forall tempo,
        4 <= tempo <= 1000 ->
        60000 <= 60000000 / tempo <= 15000000
        /\ forall tracks_dict filename t c,
            Forall entry_writable tracks_dict ->
            exists tracks c',
              combine_and_write_midi tracks_dict filename tempo t c
              = Ok ((filename,
                     mk_MidiFile TICKS_PER_BEAT
                       ([set_tempo (60000000 / tempo) 0] :: tracks)), c')).
Proof.
  split; [reflexivity|].
  split; [exact tempo_exact_upto_1000|].
  split.
  - intros tempo [Hneg | Hsmall] tracks_dict filename t c.
    + destruct (tempo_refused_below_zero tempo Hneg) as (us & Eus & Etv).
      exact (combine_and_write_midi_refuses_tempo _ _ _ us t c Eus Etv).
    + apply (combine_and_write_midi_refuses_tempo _ _ _ (60000000 / tempo));
        [apply tempo_exact_upto_1000; lia|].
      assert (Hcases : tempo = 1 \/ tempo = 2 \/ tempo = 3) by lia.
      destruct Hcases as [-> | [-> | ->]]; reflexivity.
  - intros tempo Hb.
    assert (Hq : 60000 <= 60000000 / tempo <= 15000000).
    { split; [apply Z.div_le_lower_bound; lia|].
      assert (60000000 / tempo < 15000001); [|lia].
      apply Z.div_lt_upper_bound; lia. }
    split; [exact Hq|].
    intros tracks_dict filename t c Hw.
    destruct (wpx_total_inv _ _ _ _
                (combine_and_write_midi_full tracks_dict filename tempo
                   (60000000 / tempo) t c
                   (tempo_exact_upto_1000 tempo ltac:(lia)) ltac:(lia) Hw))
      as ([name mid] & c' & E & tracks & -> & -> & _).
    exists tracks, c'. exact E.
Qed.

Lemma X12_witness :
  1 <= 97 <= 1000 /\ microseconds_per_beat 97 = Ok 618556
  /\ combine_and_write_midi [] "holy_random.mid" 3 zero_tape 0%nat
     = Raise ValueError.
Proof.
  assert (H : 1 <= 97 <= 1000) by lia.
  split; [exact H|].
  split.
  - exact (proj1 (proj2 X12_tempo_zero_raises_and_tempo_is_floor_of_quotient)
             97 H).
  - apply (proj1 (proj2 (proj2
             X12_tempo_zero_raises_and_tempo_is_floor_of_quotient))).
    right. lia.
Defined.

(** ** Floats that stay finite *)

Lemma digits2_pos_bound (p : positive) :
  forall K, Z.pos p < 2 ^ K -> Z.pos (digits2_pos p) <= K.
Proof.
  induction p as [p IH|p IH|]; intros K HK.
  - assert (1 <= K).
    { destruct (Z_lt_le_dec K 1) as [Hlt|]; [|lia].
      assert (2 ^ K <= 1); [|lia].
      destruct (Z.eq_dec K 0) as [->|]; [cbn; lia|].
      rewrite Z.pow_neg_r; lia. }
    cbn [digits2_pos]. rewrite Pos2Z.inj_succ.
    assert (Z.pos p < 2 ^ (K - 1)); [|specialize (IH (K - 1)); lia].
    replace K with (Z.succ (K - 1)) in HK by lia.
    rewrite Z.pow_succ_r in HK by lia. lia.
  - assert (1 <= K).
    { destruct (Z_lt_le_dec K 1) as [Hlt|]; [|lia].
      assert (2 ^ K <= 1); [|lia].
      destruct (Z.eq_dec K 0) as [->|]; [cbn; lia|].
      rewrite Z.pow_neg_r; lia. }
    cbn [digits2_pos]. rewrite Pos2Z.inj_succ.
    assert (Z.pos p < 2 ^ (K - 1)); [|specialize (IH (K - 1)); lia].
    replace K with (Z.succ (K - 1)) in HK by lia.
    rewrite Z.pow_succ_r in HK by lia. lia.
  - cbn. destruct (Z_lt_le_dec K 1) as [Hlt|]; [|lia].
    assert (2 ^ K <= 1); [|lia].
    destruct (Z.eq_dec K 0) as [->|]; [cbn; lia|].
    rewrite Z.pow_neg_r; lia.
Qed.

Lemma Zdigits2_bound (m K : Z) :
  0 <= K -> 0 <= m < 2 ^ K -> 0 <= Zdigits2 m <= K.
Proof.
  intros HK [H0 Hm]. destruct m as [|p|p]; cbn; [lia| |lia].
  split; [lia|]. now apply digits2_pos_bound.
Qed.

Lemma shr_1_bound (mrs : shr_record) :
  0 <= shr_m mrs -> 0 <= shr_m (shr_1 mrs) <= shr_m mrs.
Proof.
  destruct mrs as [m r s]. cbn [shr_m]. intro H0.
  destruct m as [|[p|p|]|p]; cbn; lia.
Qed.

Lemma iter_pos_shr_1_bound (p : positive) :
  forall mrs, 0 <= shr_m mrs ->
              0 <= shr_m (iter_pos shr_1 p mrs) <= shr_m mrs.
Proof.
  induction p as [p IH|p IH|]; intros mrs H0; cbn [iter_pos].
  - pose proof (shr_1_bound mrs H0) as H1.
    pose proof (IH _ (proj1 H1)) as H2.
    pose proof (IH _ (proj1 H2)) as H3. lia.
  - pose proof (IH _ H0) as H2.
    pose proof (IH _ (proj1 H2)) as H3. lia.
  - now apply shr_1_bound.
Qed.

Lemma shr_record_of_loc_m (m : Z) (l : location) :
  shr_m (shr_record_of_loc m l) = m.
Proof. destruct l as [|[ | | ]]; reflexivity. Qed.

(** Shifting to the format's exponent: the mantissa does not grow, and
    the exponent rises at most to the exponent of the format. *)
Lemma shr_fexp_bound (m e : Z) (l : location) (K : Z) :
  0 <= K -> 0 <= m < 2 ^ K ->
  let '(mrs, e') := shr_fexp 53 1024 m e l in
  0 <= shr_m mrs <= m
  /\ e <= e' <= Z.max e (Z.max (K + e - 53) (-1074)).
Proof.
  intros HK Hm. unfold shr_fexp, shr.
  pose proof (Zdigits2_bound m K HK Hm) as Hd.
  assert (Hf : fexp 53 1024 (Zdigits2 m + e) <= Z.max (K + e - 53) (-1074)).
  { unfold fexp, emin. lia. }
  destruct (fexp 53 1024 (Zdigits2 m + e) - e) as [|p|p] eqn:En.
  - rewrite shr_record_of_loc_m. lia.
  - pose proof (iter_pos_shr_1_bound p (shr_record_of_loc m l)) as Hi.
    rewrite shr_record_of_loc_m in Hi. specialize (Hi (proj1 Hm)).
    split; [exact Hi|]. lia.
  - rewrite shr_record_of_loc_m. lia.
Qed.

Lemma round_nearest_even_bound (m : Z) (l : location) :
  0 <= m -> m <= round_nearest_even m l <= m + 1.
Proof.
  intro H0. destruct l as [|[ | | ]]; cbn [round_nearest_even]; try lia.
  destruct (Z.even m); lia.
Qed.

(** Rounding a mantissa below [2 ^ K] at exponent [ex]: no NaN, and no
    overflow while the exponent stays far enough from the largest one. *)
Lemma binary_round_aux_bounded (sx : bool) (mx ex : Z) (lx : location) (K E : Z) :
  0 <= K -> 0 <= mx < 2 ^ K ->
  -1074 <= E -> ex <= E ->
  E + 2 * Z.max 0 (K - 52) <= 971 ->
  float_bounded (K + 1) (E + 2 * Z.max 0 (K - 52))
    (binary_round_aux 53 1024 sx mx ex lx).
Proof.
  intros HK Hm HE Hex Hfit. unfold binary_round_aux.
  pose proof (shr_fexp_bound mx ex lx K HK Hm) as H1.
  destruct (shr_fexp 53 1024 mx ex lx) as [mrs' e'].
  destruct H1 as (Hm1 & He1).
  pose proof (round_nearest_even_bound (shr_m mrs') (loc_of_shr_record mrs')
                (proj1 Hm1)) as Hr.
  set (m1 := round_nearest_even (shr_m mrs') (loc_of_shr_record mrs')) in *.
  assert (Hm1' : 0 <= m1 < 2 ^ (K + 1)).
  { rewrite Z.pow_add_r by lia. change (2 ^ 1) with 2. lia. }
  pose proof (shr_fexp_bound m1 e' loc_Exact (K + 1) ltac:(lia) Hm1') as H2.
  destruct (shr_fexp 53 1024 m1 e' loc_Exact) as [mrs'' e''].
  destruct H2 as (Hm2 & He2).
  destruct (shr_m mrs'') as [|m|m] eqn:Em; [exact I| |lia].
  destruct (Z.leb_spec e'' (1024 - 53)) as [Hle|Hgt]; [|lia].
  unfold float_bounded. lia.
Qed.

Lemma fmul_bounded (a b : float) (Ka Ea Kb Eb : Z) :
  0 <= Ka -> 0 <= Kb ->
  float_bounded Ka Ea a -> float_bounded Kb Eb b ->
  -1074 <= Ea + Eb ->
  Ea + Eb + 2 * Z.max 0 (Ka + Kb - 52) <= 971 ->
  float_bounded (Ka + Kb + 1) (Ea + Eb + 2 * Z.max 0 (Ka + Kb - 52))
    (fmul a b).
Proof.
  intros HKa HKb Ha Hb HE Hfit. unfold fmul, SFmul.
  destruct a as [sa|sa| |sa ma ea], b as [sb|sb| |sb mb eb];
    cbn in Ha, Hb; try contradiction; try exact I.
  destruct Ha as [Hma Hea], Hb as [Hmb Heb].
  apply binary_round_aux_bounded; try lia.
  rewrite Pos2Z.inj_mul, Z.pow_add_r by lia.
  split; [lia|]. apply Z.mul_lt_mono_nonneg; lia.
Qed.

Lemma digits2_pos_gt (p : positive) : Z.pos p < 2 ^ Z.pos (digits2_pos p).
Proof.
  induction p as [p IH|p IH|]; cbn [digits2_pos];
    [rewrite Pos2Z.inj_succ, Z.pow_succ_r by lia; lia
    |rewrite Pos2Z.inj_succ, Z.pow_succ_r by lia; lia
    |reflexivity].
Qed.

Lemma iter_xO_shift (d p : positive) :
  Z.pos (Pos.iter xO p d) = Z.pos p * 2 ^ Z.pos d.
Proof.
  change (Pos.iter xO p d) with (shift_pos d p).
  rewrite shift_pos_correct. change (Z.pow_pos 2 d) with (2 ^ Z.pos d). lia.
Qed.

(** Bringing an integer mantissa into the format: as for a rounding,
    once the mantissa has been aligned. *)
Lemma binary_round_bounded (sx : bool) (p : positive) (e K E : Z) :
  53 <= K -> Z.pos p < 2 ^ K ->
  -1074 <= E -> e <= E ->
  E + 2 * (K - 52) <= 971 ->
  float_bounded (K + 1) (E + 2 * (K - 52)) (binary_round 53 1024 sx p e).
Proof.
  intros HK Hp HE He Hfit. unfold binary_round.
  assert (Hal : let '(mz, ez) :=
                  shl_align p e (fexp 53 1024 (Z.pos (digits2_pos p) + e)) in
                Z.pos mz < 2 ^ K /\ ez <= E).
  { unfold shl_align, fexp, emin.
    destruct (Z.max (Z.pos (digits2_pos p) + e - 53) (3 - 1024 - 53) - e)
      as [|d|d] eqn:Ed; [split; assumption | split; assumption |].
    split; [|lia].
    rewrite iter_xO_shift.
    pose proof (digits2_pos_gt p) as Hg.
    assert (Hd : Z.pos (digits2_pos p) + Z.pos d <= 53) by lia.
    apply Z.lt_le_trans with (2 ^ Z.pos (digits2_pos p) * 2 ^ Z.pos d).
    - apply Z.mul_lt_mono_pos_r; [apply Z.pow_pos_nonneg; lia | exact Hg].
    - rewrite <- Z.pow_add_r by lia. apply Z.pow_le_mono_r; lia. }
  destruct (shl_align p e _) as [mz ez]. destruct Hal as [Hmz Hez].
  replace (2 * (K - 52)) with (2 * Z.max 0 (K - 52)) by lia.
  apply binary_round_aux_bounded; lia.
Qed.

Lemma binary_normalize_bounded (z e K E : Z) :
  53 <= K -> Z.abs z < 2 ^ K ->
  -1074 <= E -> e <= E ->
  E + 2 * (K - 52) <= 971 ->
  float_bounded (K + 1) (E + 2 * (K - 52))
    (binary_normalize 53 1024 z e false).
Proof.
  intros HK Hz HE He Hfit.
  destruct z as [|p|p]; cbn [binary_normalize]; [exact I | |];
    apply binary_round_bounded; assumption || (cbn in Hz; lia).
Qed.

Lemma float_bounded_weaken (K E K' E' : Z) (f : float) :
  K <= K' -> E <= E' -> float_bounded K E f -> float_bounded K' E' f.
Proof.
  intros HK HE. destruct f as [s|s| |s m e]; cbn; auto.
  intros [Hm He]. split; [|lia].
  apply Z.lt_le_trans with (2 ^ K); [exact Hm|].
  destruct (Z_lt_le_dec K 0) as [Hn|Hn].
  - rewrite Z.pow_neg_r in Hm by lia. lia.
  - apply Z.pow_le_mono_r; lia.
Qed.

Lemma binary_normalize_nonneg (z e : Z) :
  0 <= z -> float_nonneg (binary_normalize 53 1024 z e false).
Proof.
  intro Hz. destruct z as [|p|p]; cbn [binary_normalize]; [exact I | |lia].
  unfold binary_round.
  destruct (shl_align p e _) as [mz ez].
  pose proof (binary_round_aux_sign false (Z.pos mz) ez loc_Exact) as Hs.
  destruct (binary_round_aux 53 1024 false (Z.pos mz) ez loc_Exact);
    exact Hs || exact I.
Qed.

Lemma random_at_bounded (t : tape) (c : nat) :
  float_bounded 54 (-51) (random_at t c) /\ float_nonneg (random_at t c).
Proof.
  unfold random_at.
  assert (Hk : 0 <= t c mod 2 ^ 53 < 2 ^ 53) by (apply Z.mod_pos_bound; lia).
  split; [|apply binary_normalize_nonneg; lia].
  apply (binary_normalize_bounded (t c mod 2 ^ 53) (-53) 53 (-53)); lia.
Qed.

Lemma float_of_int_bounded (z : Z) :
  Z.abs z < 2 ^ 53 ->
  exists f, float_of_int z = Ok f /\ float_bounded 54 2 f.
Proof.
  intro Hz. unfold float_of_int.
  pose proof (binary_normalize_bounded z 0 53 0 ltac:(lia) Hz
                ltac:(lia) ltac:(lia) ltac:(lia)) as Hb.
  destruct (binary_normalize 53 1024 z 0 false) as [s|s| |s m e];
    cbn in Hb; try contradiction; eexists; (split; [reflexivity | exact Hb]).
Qed.

Lemma int_of_float_returns (K E : Z) (f : float) :
  float_bounded K E f -> exists n, int_of_float f = Ok n.
Proof.
  destruct f as [s|s| |s m e]; cbn; try contradiction; eauto.
Qed.

(** [f * z] for a float [f] of moderate size and an integer [z] below
    [2 ^ 53] in absolute value is again a finite float. *)
Lemma float_mul_int_bounded (f : float) (z : Z) :
  float_bounded 109 63 f -> Z.abs z < 2 ^ 53 ->
  exists g, py_mul (PyFloat f) (PyInt z) = Ok (PyFloat g)
            /\ float_bounded 164 287 g.
Proof.
  intros Hf Hz. destruct (float_of_int_bounded z Hz) as (fz & Ez & Hfz).
  cbn [py_mul]. rewrite Ez. cbn [result_bind]. eexists. split; [reflexivity|].
  apply (fmul_bounded f fz 109 63 54 2); (exact Hf || exact Hfz || lia).
Qed.

(** [int(f * z)] returns. *)
Lemma mul_int_returns (f : float) (z : Z) :
  float_bounded 109 63 f -> Z.abs z < 2 ^ 53 ->
  exists n, result_bind (py_mul (PyFloat f) (PyInt z)) py_int = Ok n.
Proof.
  intros Hf Hz. destruct (float_mul_int_bounded f z Hf Hz) as (g & Eg & Hg).
  rewrite Eg. cbn [result_bind py_int]. exact (int_of_float_returns _ _ g Hg).
Qed.

Lemma tenth_of_beat_returns (tpb : Z) :
  Z.abs tpb < 2 ^ 53 -> exists d, tenth_of_beat tpb = Ok d.
Proof.
  intro Ht. apply mul_int_returns; [|exact Ht].
  unfold f_0_1, float_bounded. lia.
Qed.

Lemma nonneg_ticks_add_note evs note vel start dur chan :
  Forall (fun e => 0 <= ev_tick e) evs -> 0 <= start -> 0 <= dur ->
  Forall (fun e => 0 <= ev_tick e) (add_note evs note vel start dur chan).
Proof.
  intros He Hs Hd. rewrite add_note_app. apply Forall_app. split; [exact He|].
  repeat constructor; cbn; lia.
Qed.

Lemma drum_random_hit_returns ms bpm tpb evs t c :
  Z.abs bpm < 2 ^ 53 -> Z.abs tpb < 2 ^ 53 ->
  wpx False (drum_random_hit ms bpm tpb evs)
    (fun evs' _ =>
       exists note vel off dur,
         evs' = add_note evs note vel (ms + off) dur 9
         /\ (0 <= bpm -> 0 <= tpb -> 0 <= off /\ 0 <= dur))
    t c.
Proof.
  intros Hb Ht. unfold drum_random_hit.
  apply wpx_bind, wpx_choice; [discriminate|]. intros note _.
  apply wpx_bind, wpx_random.
  destruct (random_at_bounded t (S c)) as [Hr Hrn].
  set (r := random_at t (S c)) in *.
  destruct (float_of_int_bounded bpm Hb) as (fb & Efb & Hfb).
  assert (Eg : py_mul (PyFloat r) (PyInt bpm) = Ok (PyFloat (fmul r fb)))
    by (cbn [py_mul]; rewrite Efb; reflexivity).
  assert (Hg : float_bounded 109 63 (fmul r fb))
    by (apply (fmul_bounded r fb 54 (-51) 54 2); (exact Hr || exact Hfb || lia)).
  apply wpx_bind. eapply wpx_lift_ok; [exact Eg|].
  destruct (mul_int_returns (fmul r fb) tpb Hg Ht) as (off & Eoff).
  apply wpx_bind. eapply wpx_lift_ok; [exact Eoff|].
  destruct (tenth_of_beat_returns tpb Ht) as (dur & Edur).
  apply wpx_bind. eapply wpx_lift_ok; [exact Edur|].
  apply wpx_bind, wpx_randint; [lia|]. intros vel _.
  apply wpx_ret. exists note, vel, off, dur. split; [reflexivity|].
  intros Hb0 Ht0. split.
  - apply (mul_int_nonneg (PyFloat (fmul r fb)) tpb off); [|exact Ht0|exact Eoff].
    apply (py_mul_nonneg (PyFloat r) (PyInt bpm) _ Hrn Hb0 Eg).
  - exact (tenth_of_beat_nonneg tpb dur Ht0 Edur).
Qed.

Lemma drum_track_returns num_measures bpm tpb t c :
  Z.abs bpm < 2 ^ 53 -> Z.abs tpb < 2 ^ 53 ->
  wpx False (create_drum_track_chaos num_measures bpm tpb)
    (fun evs _ =>
       0 <= bpm -> 0 <= tpb -> Forall (fun e => 0 <= ev_tick e) evs)
    t c.
Proof.
  intros Hb Ht. unfold create_drum_track_chaos.
  pose (Inv := fun evs : list event =>
                 0 <= bpm -> 0 <= tpb -> Forall (fun e => 0 <= ev_tick e) evs).
  eapply wpx_mono.
  - apply (wpx_for_range_from_idx False _ (fun _ => Inv)
             (Z.to_nat num_measures) O 0).
    { intros _ _. constructor. }
    clear t c. intros k evs t c _ Hevs.
    rewrite Nat.sub_0_r, Z.add_0_l. unfold drum_measure.
    set (ms := Z.of_nat k * bpm * tpb).
    assert (Hms : 0 <= bpm -> 0 <= tpb -> 0 <= ms)
      by (intros; subst ms; apply Z.mul_nonneg_nonneg; [|assumption];
          apply Z.mul_nonneg_nonneg; lia).
    apply wpx_bind. apply wpx_mono with (Q := fun evs' _ => Inv evs').
    { destruct (bpm =? 4); [|now apply wpx_ret].
      destruct (tenth_of_beat_returns tpb Ht) as (d & Ed).
      apply wpx_bind. eapply wpx_lift_ok; [exact Ed|].
      apply wpx_bind. eapply wpx_lift_ok; [exact Ed|].
      apply wpx_ret. intros Hb0 Ht0.
      pose proof (tenth_of_beat_nonneg tpb d Ht0 Ed) as Hd.
      specialize (Hms Hb0 Ht0).
      repeat apply nonneg_ticks_add_note; try lia. now apply Hevs. }
    clear evs Hevs. intros evs c1 Hevs.
    apply wpx_bind, wpx_randint; [lia|]. intros hits _.
    apply wpx_for_range_inv; [exact Hevs|].
    clear - Hb Ht Hms. intros evs t c Hevs.
    eapply wpx_mono; [apply drum_random_hit_returns; assumption|].
    intros evs' _ (note & vel & off & dur & -> & Hod) Hb0 Ht0.
    destruct (Hod Hb0 Ht0) as [Ho Hd]. specialize (Hms Hb0 Ht0).
    apply nonneg_ticks_add_note; [now apply Hevs | lia | exact Hd].
  - intros evs c' Hevs. exact Hevs.
Qed.

(** X13. For a number of beats per measure and a resolution below
    [2 ^ 53] in absolute value, the drum generator returns a track for
    every number of measures and every sequence of draws: none of its
    float products overflows or is a NaN, so no [int(...)] raises.  When
    beats and resolution are not negative, no event of the track has a
    negative tick. *)
Theorem X13_drum_generator_returns_with_non_negative_ticks :
  forall num_measures bpm tpb t c,
    Z.abs bpm < 2 ^ 53 -> Z.abs tpb < 2 ^ 53 ->
    exists evs c',
      create_drum_track_chaos num_measures bpm tpb t c = Ok (evs, c')
      /\ (0 <= bpm -> 0 <= tpb -> Forall (fun e => 0 <= ev_tick e) evs).
Proof.
  intros num_measures bpm tpb t c Hb Ht.
  exact (wpx_total_inv _ _ _ _ (drum_track_returns num_measures bpm tpb t c Hb Ht)).
Qed.

Lemma X13_witness :
  Z.abs 7 < 2 ^ 53 /\ Z.abs 480 < 2 ^ 53
  /\ exists evs c',
      create_drum_track_chaos 2 7 480 zero_tape 0%nat = Ok (evs, c')
      /\ Forall (fun e => 0 <= ev_tick e) evs.
Proof.
  assert (H7 : Z.abs 7 < 2 ^ 53) by (cbn; lia).
  assert (H480 : Z.abs 480 < 2 ^ 53) by (cbn; lia).
  split; [exact H7|]. split; [exact H480|].
  destruct (X13_drum_generator_returns_with_non_negative_ticks
              2 7 480 zero_tape 0%nat H7 H480) as (evs & c' & E & Hn).
  exists evs, c'. split; [exact E|]. apply Hn; lia.
Defined.

(** ** The whole run *)

Lemma wpx_conj {A} (R : Prop) (m : Rand A) (Q1 Q2 : A -> nat -> Prop) t c :
  wpx R m Q1 t c -> wpx True m Q2 t c ->
  wpx R m (fun a c' => Q1 a c' /\ Q2 a c') t c.
Proof.
  unfold wpx. destruct (m t c) as [[a c']|e]; auto.
Qed.

Lemma body_valid (chan : Z) (body : list Message) :
  forall evs,
    map msg_payload body = map ev_payload evs ->
    Forall (event_valid chan) evs ->
    Forall (fun d => 0 <= d) (map msg_time body) ->
    Forall (note_msg_valid chan) body.
Proof.
  induction body as [|m body IH]; intros [|e evs] E Hevs Ht;
    try discriminate; [constructor|].
  cbn [map] in E, Ht. injection E as Em E.
  inversion Hevs as [|? ? He Hevs']; subst.
  inversion Ht as [|? ? Hd Ht']; subst.
  constructor; [|now apply (IH evs)].
  destruct He as (Hc & Hn & Hv & _). unfold ev_payload in Em.
  destruct m; cbn in Em; try discriminate; injection Em as _ -> -> ->;
    cbn in Hd |- *; auto.
Qed.

Lemma track_of_valid (name : string) (events : list event) (chan : Z)
  (track : list Message) :
  track_of (name, events) track ->
  track_channel name = chan ->
  Forall (event_valid chan) events ->
  track_valid chan (if String.eqb name "Drums" then [0] else RANDOM_INSTRUMENTS)
    track.
Proof.
  intros (program & body & -> & Hprog & Hp & Ht) <- Hev.
  exists program, body. split; [reflexivity|]. split.
  { destruct (String.eqb name "Drums"); [now left | exact Hprog]. }
  assert (Hsev : Forall (event_valid (track_channel name))
                   (sorted ev_tick events))
    by (eapply Permutation_Forall; [apply sorted_perm | exact Hev]).
  apply (body_valid _ body (sorted ev_tick events) Hp Hsev).
  rewrite Ht. apply tick_deltas_nonneg. constructor.
  - apply key_sorted_map, sorted_key_sorted.
  - rewrite Forall_map. eapply Forall_impl; [|exact Hsev].
    intros e (_ & _ & _ & He). exact He.
Qed.

Lemma events_valid (Q : Z -> Z -> Z -> Prop) (chan lo hi : Z)
  (evs : list event) :
  (forall note vel ch, Q note vel ch -> ch = chan /\ 0 <= vel <= 127) ->
  0 <= lo -> hi <= 127 ->
  events_carry Q evs -> pitches_within lo hi evs ->
  Forall (fun e => 0 <= ev_tick e) evs ->
  Forall (event_valid chan) evs.
Proof.
  intros HQ Hlo Hhi Hc Hp Ht. unfold events_carry, pitches_within in *.
  rewrite Forall_forall in *. intros e He.
  destruct (HQ _ _ _ (Hc e He)) as [Hch Hv].
  specialize (Hp e He). specialize (Ht e He). unfold event_valid. lia.
Qed.

Lemma sorted_upto_nonneg (evs : list event) :
  (exists ts, sorted_upto ts evs) -> Forall (fun e => 0 <= ev_tick e) evs.
Proof.
  intros (ts & _ & Hb). eapply Forall_impl; [|exact Hb]. cbn. intros; lia.
Qed.

Lemma scale_mode_choices_nonempty (root : Z) (intervals : list Z) :
  In intervals scale_mode_choices -> build_scale_notes root intervals <> [].
Proof.
  intro Hin. cbn in Hin.
  repeat (destruct Hin as [<- | Hin]; [discriminate|]). destruct Hin.
Qed.

Lemma bind_reaches {A B X} (m : Rand A) (k : A -> Rand B)
  (F : X -> result (B * nat)) (P : X -> Prop) t c :
  wpx False m (fun a c' => exists x, k a t c' = F x /\ P x) t c ->
  exists x, bind m k t c = F x /\ P x.
Proof.
  unfold wpx, bind. destruct (m t c) as [[a c']|e]; [auto | tauto].
Qed.

(** Up to the merger the run cannot fail: it comes to the call of the
    merger on four tracks whose events are all valid. *)
Lemma main_reaches_merger total_measures bpm tempo out_name t c :
  0 <= bpm < 2 ^ 53 ->
  exists x : list event * list event * list event * list event * nat,
    main total_measures bpm tempo out_name t c
    = (let '(drum_track, bass_track, harmony_track, melody_track, c') := x in
       combine_and_write_midi
         [("Drums", drum_track); ("Bass", bass_track);
          ("Harmony", harmony_track); ("Melody", melody_track)]%string
         out_name tempo t c')
    /\ (let '(drum_track, bass_track, harmony_track, melody_track, _) := x in
        Forall (event_valid 9) drum_track
        /\ Forall (event_valid 1) bass_track
        /\ Forall (event_valid 2) harmony_track
        /\ Forall (event_valid 0) melody_track).
Proof.
  intros Hbpm. unfold main.
  set (F := fun x : list event * list event * list event * list event * nat =>
              let '(drum_track, bass_track, harmony_track, melody_track, c') :=
                x in
              combine_and_write_midi
                [("Drums", drum_track); ("Bass", bass_track);
                 ("Harmony", harmony_track); ("Melody", melody_track)]%string
                out_name tempo t c').
  set (P := fun x : list event * list event * list event * list event * nat =>
              let '(drum_track, bass_track, harmony_track, melody_track, _) :=
                x in
              Forall (event_valid 9) drum_track
              /\ Forall (event_valid 1) bass_track
              /\ Forall (event_valid 2) harmony_track
              /\ Forall (event_valid 0) melody_track).
  assert (Hb53 : Z.abs bpm < 2 ^ 53) by lia.
  assert (Ht53 : Z.abs TICKS_PER_BEAT < 2 ^ 53) by (unfold TICKS_PER_BEAT; lia).
  assert (Ht0 : 0 <= TICKS_PER_BEAT) by (unfold TICKS_PER_BEAT; lia).
  apply (bind_reaches _ _ F P). eapply wpx_mono.
  { apply wpx_conj;
      [apply get_random_chord_progression_spec
      |apply wpx_weaken, progression_pitches]. }
  intros [chords scale_info] c1 [(_ & Htri & _) Hch].
  destruct (float_of_int_bounded bpm Hb53) as (fb & Efb & Hfb).
  pose proof (float_of_int_nonneg bpm fb (proj1 Hbpm) Efb) as Hfbn.
  apply (bind_reaches _ _ F P). eapply wpx_lift_ok; [exact Efb|].
  assert (Hfb' : float_bounded 109 63 fb)
    by (apply (float_bounded_weaken 54 2); [lia | lia | exact Hfb]).
  destruct (mul_int_returns fb TICKS_PER_BEAT Hfb' Ht53) as (L & EL).
  change (chord_length_ticks (PyFloat fb) TICKS_PER_BEAT = Ok L) in EL.
  pose proof (chord_length_ticks_nonneg (PyFloat fb) TICKS_PER_BEAT L
                Hfbn Ht0 EL) as HL.
  (* drums *)
  apply (bind_reaches _ _ F P). eapply wpx_mono.
  { apply wpx_conj;
      [apply (drum_track_returns total_measures bpm TICKS_PER_BEAT);
       assumption
      |apply drum_track_emits]. }
  intros drum_track c2 [Hdt (Hdc & _)].
  assert (Hdrum : Forall (event_valid 9) drum_track).
  { apply (events_valid drum_event_ok 9 35 57); try lia.
    - intros note vel ch (-> & Hv & _). split; [reflexivity | lia].
    - exact Hdc.
    - eapply Forall_impl; [|exact Hdc]. intros e (_ & _ & Hn). cbn in Hn.
      repeat (destruct Hn as [<- | Hn]; [lia|]). destruct Hn.
    - apply Hdt; lia. }
  (* bass *)
  apply (bind_reaches _ _ F P). eapply wpx_mono.
  { apply wpx_conj;
      [apply (bass_track_grid chords (PyFloat fb) TICKS_PER_BEAT L _ _ Htri EL HL)
      |apply wpx_conj;
         [apply wpx_conj;
            [apply bass_track_emits
            |apply (bass_pitches 36 101), Hch]
         |apply bass_track_in_order; assumption]]. }
  intros bass_track c3 (_ & ((Hbc & _) & Hbp) & Hbo).
  assert (Hbass : Forall (event_valid 1) bass_track).
  { apply (events_valid (bass_event_ok chords) 1 (36 - 12) (101 + 12));
      try lia; try assumption.
    - intros note vel ch (-> & Hv & _). split; [reflexivity | lia].
    - now apply sorted_upto_nonneg. }
  (* harmony *)
  apply (bind_reaches _ _ F P). eapply wpx_mono.
  { apply wpx_conj;
      [apply (harmony_track_grid chords (PyFloat fb) TICKS_PER_BEAT L _ _
                Htri EL HL)
      |apply wpx_conj;
         [apply wpx_conj;
            [apply harmony_track_emits
            |apply (harmony_pitches 36 101), Hch]
         |apply harmony_track_in_order; assumption]]. }
  intros harmony_track c4 (_ & ((Hhc & _) & Hhp) & Hho).
  assert (Hharm : Forall (event_valid 2) harmony_track).
  { apply (events_valid (harmony_event_ok chords) 2 36 101);
      try lia; try assumption.
    - intros note vel ch (-> & Hv & _). split; [reflexivity | lia].
    - now apply sorted_upto_nonneg. }
  (* melody *)
  apply (bind_reaches _ _ F P), wpx_choice; [discriminate|]. intros intervals Hint.
  apply (bind_reaches _ _ F P), wpx_choice; [discriminate|]. intros root_name Hroot.
  apply (bind_reaches _ _ F P), wpx_randint; [lia|]. intros root_oct Hoct.
  pose proof (note_name_to_midi_range root_name root_oct Hroot) as Hmidi.
  pose proof (build_scale_notes_range
                (note_name_to_midi root_name root_oct) intervals Hint) as Hsc.
  set (scale_notes :=
         build_scale_notes (note_name_to_midi root_name root_oct) intervals)
    in *.
  apply (bind_reaches _ _ F P). eapply wpx_mono.
  { apply wpx_conj;
      [apply (melody_track_returns chords scale_notes (PyFloat fb)
                TICKS_PER_BEAT L);
       [apply scale_mode_choices_nonempty, Hint
       |exact EL
       |exists 480; vm_compute; reflexivity
       |exists 240; vm_compute; reflexivity]
      |apply wpx_conj;
         [apply wpx_conj;
            [apply melody_track_emits
            |apply (melody_pitches 48 106);
             eapply Forall_impl; [|exact Hsc]; cbn; intros; lia]
         |apply melody_track_in_order; assumption]]. }
  intros melody_track c5 (_ & ((Hmc & _) & Hmp) & Hmo).
  assert (Hmel : Forall (event_valid 0) melody_track).
  { apply (events_valid (melody_event_ok scale_notes) 0 (48 - 12) (106 + 12));
      try lia; try assumption.
    - intros note vel ch (-> & Hv & _). split; [reflexivity | lia].
    - now apply sorted_upto_nonneg. }
  exists (drum_track, bass_track, harmony_track, melody_track, c5).
  split; [reflexivity|]. subst P. cbn beta iota. auto.
Qed.

Lemma event_valid_writable (chan : Z) (events : list event) (name : string) :
  0 <= chan <= 15 -> Forall (event_valid chan) events ->
  entry_writable (name, events).
Proof.
  intros Hchan Hev. split; cbn [snd]; (eapply Forall_impl; [|exact Hev]);
    intros e (Hc & Hn & Hv & Ht); [|exact Ht].
  unfold event_bytes_valid. lia.
Qed.

Lemma main_writes_valid_file total_measures bpm tempo out_name t c :
  0 <= bpm < 2 ^ 53 -> 4 <= tempo <= 1000 ->
  wpx False (main total_measures bpm tempo out_name)
    (fun '(name, mid) _ =>
       exists drums bass harmony melody,
         name = out_name
         /\ mid = mk_MidiFile 480
                    [[set_tempo (60000000 / tempo) 0];
                     drums; bass; harmony; melody]
         /\ track_valid 9 [0] drums
         /\ track_valid 1 RANDOM_INSTRUMENTS bass
         /\ track_valid 2 RANDOM_INSTRUMENTS harmony
         /\ track_valid 0 RANDOM_INSTRUMENTS melody)
    t c.
Proof.
  intros Hbpm Htempo.
  destruct (main_reaches_merger total_measures bpm tempo out_name t c Hbpm)
    as ([[[[drum_track bass_track] harmony_track] melody_track] c5]
        & E & Hdrum & Hbass & Hharm & Hmel).
  unfold wpx. rewrite E.
  assert (Hq : 0 <= 60000000 / tempo <= 16777215).
  { split; [apply Z.div_pos; lia|].
    assert (60000000 / tempo < 16777216); [|lia].
    apply Z.div_lt_upper_bound; lia. }
  assert (Hw : Forall entry_writable
                 [("Drums", drum_track); ("Bass", bass_track);
                  ("Harmony", harmony_track); ("Melody", melody_track)]%string).
  { repeat constructor; cbn [snd];
      match goal with
      | |- Forall event_bytes_valid ?evs =>
          refine (proj1 (event_valid_writable _ evs "" _ _));
          [|eassumption]; lia
      | |- Forall _ ?evs =>
          refine (proj2 (event_valid_writable _ evs "" _ _));
          [|eassumption]; lia
      end. }
  eapply wpx_mono.
  { apply (combine_and_write_midi_full _ out_name tempo (60000000 / tempo));
      [apply tempo_exact_upto_1000; lia | exact Hq | exact Hw]. }
  intros [name mid] c6 (tracks & -> & -> & Htr & _).
  inversion Htr as [|? drums ? tr1 Hd Htr1]; subst.
  inversion Htr1 as [|? bass ? tr2 Hb Htr2]; subst.
  inversion Htr2 as [|? harmony ? tr3 Hh Htr3]; subst.
  inversion Htr3 as [|? melody ? tr4 Hm Htr4]; subst.
  inversion Htr4; subst.
  exists drums, bass, harmony, melody.
  split; [reflexivity|]. split; [reflexivity|].
  split; [exact (track_of_valid "Drums" drum_track 9 drums Hd eq_refl Hdrum)|].
  split; [exact (track_of_valid "Bass" bass_track 1 bass Hb eq_refl Hbass)|].
  split;
    [exact (track_of_valid "Harmony" harmony_track 2 harmony Hh eq_refl Hharm)
    |exact (track_of_valid "Melody" melody_track 0 melody Hm eq_refl Hmel)].
Qed.

(** A tempo value that the tempo message refuses: the run builds its
    four tracks and then raises. *)
Lemma main_refuses_tempo total_measures bpm tempo out_name us t c :
  0 <= bpm < 2 ^ 53 ->
  microseconds_per_beat tempo = Ok us -> tempo_value us = false ->
  main total_measures bpm tempo out_name t c = Raise ValueError.
Proof.
  intros Hbpm Eus Etv.
  destruct (main_reaches_merger total_measures bpm tempo out_name t c Hbpm)
    as ([[[[drum_track bass_track] harmony_track] melody_track] c5] & E & _).
  rewrite E. exact (combine_and_write_midi_refuses_tempo _ _ _ us t c5 Eus Etv).
Qed.

(** X14. For a number of beats per measure from 0 to below [2 ^ 53]
    and a tempo from 4 to 1000, the run returns for every number of
    measures and every sequence of draws, and the file it writes under
    the given name has resolution 480 and five tracks: the tempo track,
    holding [60000000 // tempo], a value that fits the three bytes of a
    tempo message, then Drums on channel 9 with program 0, Bass on
    channel 1, Harmony on channel 2 and Melody on channel 0, each with one
    of the ten listed programs.  Every note message stays on its track's
    channel, has pitch and velocity between 0 and 127, and a delta time
    that is not negative. *)
Theorem X14_run_returns_a_file_of_five_valid_tracks :
  forall total_measures bpm tempo out_name t c,
    0 <= bpm < 2 ^ 53 -> 4 <= tempo <= 1000 ->
    exists drums bass harmony melody c',
      main total_measures bpm tempo out_name t c
      = Ok ((out_name,
             mk_MidiFile 480
               [[set_tempo (60000000 / tempo) 0];
                drums; bass; harmony; melody]), c')
      /\ 60000 <= 60000000 / tempo < 2 ^ 24
      /\ track_valid 9 [0] drums
      /\ track_valid 1 RANDOM_INSTRUMENTS bass
      /\ track_valid 2 RANDOM_INSTRUMENTS harmony
      /\ track_valid 0 RANDOM_INSTRUMENTS melody.
Proof.
  intros total_measures bpm tempo out_name t c Hbpm Htempo.
  destruct (wpx_total_inv _ _ _ _
              (main_writes_valid_file total_measures bpm tempo out_name t c
                 Hbpm ltac:(lia)))
    as ([name mid] & c' & E & drums & bass & harmony & melody & -> & ->
        & Hd & Hb & Hh & Hm).
  exists drums, bass, harmony, melody, c'.
  split; [exact E|]. split; [|tauto].
  split.
  - apply Z.div_le_lower_bound; lia.
  - apply Z.div_lt_upper_bound; lia.
Qed.

Lemma X14_witness :
  0 <= 4 < 2 ^ 53 /\ 4 <= 120 <= 1000
  /\ exists drums bass harmony melody c',
      main 4 4 120 "holy_random.mid" zero_tape 0%nat
      = Ok (("holy_random.mid"%string,
             mk_MidiFile 480
               [[set_tempo 500000 0]; drums; bass; harmony; melody]), c')
      /\ track_valid 9 [0] drums.
Proof.
  assert (Hb : 0 <= 4 < 2 ^ 53) by lia.
  assert (Ht : 4 <= 120 <= 1000) by lia.
  split; [exact Hb|]. split; [exact Ht|].
  destruct (X14_run_returns_a_file_of_five_valid_tracks
              4 4 120 "holy_random.mid" zero_tape 0%nat Hb Ht)
    as (drums & bass & harmony & melody & c' & E & _ & Hd & _).
  exists drums, bass, harmony, melody, c'. split; [exact E | exact Hd].
Defined.

(** ** The prompts *)

Lemma prompt_tempo_spec (typed : option Z) t c :
  wpx False (prompt_tempo typed)
    (fun tempo _ =>
       1 <= tempo
       /\ match typed with
          | Some n => if n <? 1 then 60 <= tempo <= 180 else tempo = n
          | None => 60 <= tempo <= 180
          end)
    t c.
Proof.
  unfold prompt_tempo. destruct typed as [n|].
  - destruct (Z.ltb_spec n 1).
    + apply wpx_randint; [lia|]. intros; lia.
    + apply wpx_ret. lia.
  - apply wpx_randint; [lia|]. intros; lia.
Qed.

Lemma prompt_measures_returns (typed : option Z) t c :
  wpx False (prompt_measures typed) (fun _ _ => True) t c.
Proof.
  unfold prompt_measures. destruct typed;
    [now apply wpx_ret | apply wpx_randint; [lia | auto]].
Qed.

Lemma prompt_beats_spec (typed : option Z) t c :
  (forall b, typed = Some b -> 0 <= b < 2 ^ 53) ->
  wpx False (prompt_beats typed) (fun b _ => 0 <= b < 2 ^ 53) t c.
Proof.
  intro Hbeats. unfold prompt_beats. destruct typed as [b|].
  - apply wpx_ret. now apply Hbeats.
  - apply wpx_randint; [lia|]. intros; lia.
Qed.

Lemma script_writes_valid_file typed_measures typed_beats typed_tempo
  out_name t c :
  (forall b, typed_beats = Some b -> 0 <= b < 2 ^ 53) ->
  (forall n, typed_tempo = Some n -> n < 1 \/ 4 <= n <= 1000) ->
  wpx False (script typed_measures typed_beats typed_tempo out_name)
    (fun '(name, mid) _ =>
       exists tempo drums bass harmony melody,
         name = out_name
         /\ mid = mk_MidiFile 480
                    [[set_tempo (60000000 / tempo) 0];
                     drums; bass; harmony; melody]
         /\ 4 <= tempo <= 1000
         /\ match typed_tempo with
            | Some n => if n <? 1 then 60 <= tempo <= 180 else tempo = n
            | None => 60 <= tempo <= 180
            end
         /\ track_valid 9 [0] drums
         /\ track_valid 1 RANDOM_INSTRUMENTS bass
         /\ track_valid 2 RANDOM_INSTRUMENTS harmony
         /\ track_valid 0 RANDOM_INSTRUMENTS melody)
    t c.
Proof.
  intros Hbeats Htempo. unfold script.
  apply wpx_bind. eapply wpx_mono; [apply prompt_measures_returns|].
  intros total_measures c1 _.
  apply wpx_bind. eapply wpx_mono; [apply prompt_beats_spec, Hbeats|].
  intros bpm c2 Hbpm.
  apply wpx_bind. eapply wpx_mono; [apply prompt_tempo_spec|].
  intros tempo c3 [H1 Htyped].
  assert (Hrange : 4 <= tempo <= 1000).
  { destruct typed_tempo as [n|]; [|lia].
    specialize (Htempo n eq_refl). destruct (Z.ltb_spec n 1); lia. }
  eapply wpx_mono;
    [apply (main_writes_valid_file total_measures bpm tempo out_name);
     [exact Hbpm | exact Hrange]|].
  intros [name mid] c4 (drums & bass & harmony & melody & -> & -> & Hv).
  exists tempo, drums, bass, harmony, melody.
  split; [reflexivity|]. split; [reflexivity|]. split; [exact Hrange|].
  split; [exact Htyped | exact Hv].
Qed.

Lemma script_refuses_tempo typed_measures typed_beats n out_name t c :
  (forall b, typed_beats = Some b -> 0 <= b < 2 ^ 53) ->
  1 <= n <= 3 ->
  script typed_measures typed_beats (Some n) out_name t c = Raise ValueError.
Proof.
  intros Hbeats Hn. unfold script.
  apply bind_raises. eapply wpx_mono; [apply prompt_measures_returns|].
  intros total_measures c1 _.
  apply bind_raises. eapply wpx_mono; [apply prompt_beats_spec, Hbeats|].
  intros bpm c2 Hbpm.
  apply bind_raises. eapply wpx_mono; [apply prompt_tempo_spec|].
  intros tempo c3 [_ Htyped].
  destruct (Z.ltb_spec n 1); [lia|]. subst tempo.
  apply (main_refuses_tempo _ _ _ _ (60000000 / n)); [exact Hbpm | |].
  - apply tempo_exact_upto_1000. lia.
  - assert (Hcases : n = 1 \/ n = 2 \/ n = 3) by lia.
    destruct Hcases as [-> | [-> | ->]]; reflexivity.
Qed.

(** X15. The tempo that the prompt hands on is never below 1: a typed
    number below 1 (the prompt offers 0), an empty line and a line that is
    not a number all give a draw from 60 to 180, and a typed number from 1
    up is kept.  Hence the merger's division by the tempo never raises.
    With the beats left to the draw or typed from 0 to below [2 ^ 53]:
    whatever is typed for the measures, when the tempo is left to the
    draw, typed below 1 or typed from 4 to 1000, the script returns, for
    every sequence of draws, a file of the tempo track and the four valid
    instrument tracks; but a typed tempo of 1, 2 or 3 is kept, its value
    [60000000 // tempo] exceeds what a tempo message holds, and the
    script builds its four tracks and then raises ValueError without
    writing a file. *)
Theorem X15_prompted_tempo_is_at_least_one_and_the_script_returns :
  forall typed_measures typed_beats typed_tempo out_name t c,
    (forall b, typed_beats = Some b -> 0 <= b < 2 ^ 53) ->
    (exists tempo c',
        prompt_tempo typed_tempo t c = Ok (tempo, c')
        /\ 1 <= tempo
        /\ match typed_tempo with
           | Some n => if n <? 1 then 60 <= tempo <= 180 else tempo = n
           | None => 60 <= tempo <= 180
           end)
    /\ ((forall n, typed_tempo = Some n -> n < 1 \/ 4 <= n <= 1000) ->
        exists tempo drums bass harmony melody c',
          script typed_measures typed_beats typed_tempo out_name t c
          = Ok ((out_name,
                 mk_MidiFile 480
                   [[set_tempo (60000000 / tempo) 0];
                    drums; bass; harmony; melody]), c')
          /\ 4 <= tempo <= 1000
          /\ match typed_tempo with
             | Some n => if n <? 1 then 60 <= tempo <= 180 else tempo = n
             | None => 60 <= tempo <= 180
             end
          /\ track_valid 9 [0] drums
          /\ track_valid 1 RANDOM_INSTRUMENTS bass
          /\ track_valid 2 RANDOM_INSTRUMENTS harmony
          /\ track_valid 0 RANDOM_INSTRUMENTS melody)
    /\ (forall n,
          typed_tempo = Some n -> 1 <= n <= 3 ->
          script typed_measures typed_beats typed_tempo out_name t c
          = Raise ValueError).
Proof.
  intros typed_measures typed_beats typed_tempo out_name t c Hbeats.
  split; [|split].
  - destruct (wpx_total_inv _ _ _ _ (prompt_tempo_spec typed_tempo t c))
      as (tempo & c' & E & H1 & Htyped).
    exists tempo, c'. auto.
  - intro Htempo.
    destruct (wpx_total_inv _ _ _ _
                (script_writes_valid_file typed_measures typed_beats
                   typed_tempo out_name t c Hbeats Htempo))
      as ([name mid] & c' & E & tempo & drums & bass & harmony & melody
          & -> & -> & Hv).
    exists tempo, drums, bass, harmony, melody, c'.
    split; [exact E | exact Hv].
  - intros n -> Hn. now apply script_refuses_tempo.
Qed.

Lemma X15_witness :
  (forall b, Some 7 = Some b -> 0 <= b < 2 ^ 53)
  /\ (exists tempo drums bass harmony melody c',
        script None (Some 7) (Some 0) "holy_random.mid" zero_tape 0%nat
        = Ok (("holy_random.mid"%string,
               mk_MidiFile 480
                 [[set_tempo (60000000 / tempo) 0];
                  drums; bass; harmony; melody]), c')
        /\ 60 <= tempo <= 180)
  /\ script None (Some 7) (Some 3) "holy_random.mid" zero_tape 0%nat
     = Raise ValueError.
Proof.
  assert (Hb : forall b, Some 7 = Some b -> 0 <= b < 2 ^ 53)
    by (intros b [= <-]; lia).
  split; [exact Hb|]. split.
  - assert (Ht : forall n, Some 0 = Some n -> n < 1 \/ 4 <= n <= 1000)
      by (intros n [= <-]; lia).
    destruct (proj1 (proj2
                (X15_prompted_tempo_is_at_least_one_and_the_script_returns
                   None (Some 7) (Some 0) "holy_random.mid" zero_tape 0%nat
                   Hb)) Ht)
      as (tempo & drums & bass & harmony & melody & c' & E & _ & Hty & _).
    exists tempo, drums, bass, harmony, melody, c'.
    split; [exact E | exact Hty].
  - apply (proj2 (proj2
             (X15_prompted_tempo_is_at_least_one_and_the_script_returns
                None (Some 7) (Some 3) "holy_random.mid" zero_tape 0%nat
                Hb)) 3 eq_refl).
    lia.
Defined.

(** ** What the generators ask of the chords *)

Lemma bass_chord_short bpc tpb (chord : list Z) st t c :
  (length chord < 3)%nat -> bass_chord bpc tpb chord st t c = Raise IndexError.
Proof.
  intro H. destruct st as [evs cur]. unfold bass_chord, bind, lift.
  destruct chord as [|a [|b [|x rest]]]; cbn in H |- *; try reflexivity; lia.
Qed.

Lemma bass_chord_returns bpc tpb L (chord : list Z) st t c :
  chord_length_ticks bpc tpb = Ok L -> (3 <= length chord)%nat ->
  wpx False (bass_chord bpc tpb chord st) (fun _ _ => True) t c.
Proof.
  intros EL Hlen. destruct st as [evs cur]. unfold bass_chord.
  destruct (py_index_ok chord 0 ltac:(lia)) as (root & E0 & _).
  destruct (py_index_ok chord 2 ltac:(lia)) as (fifth & E2 & _).
  apply wpx_bind. eapply wpx_lift_ok; [exact E0|].
  apply wpx_bind. eapply wpx_lift_ok; [exact E2|].
  apply wpx_bind. eapply wpx_lift_ok; [exact EL|].
  apply wpx_bind, wpx_randint; [lia|]. intros subdivs Hs.
  apply wpx_bind. eapply wpx_lift_ok.
  { unfold bass_sub_tick_length, py_floordiv.
    destruct (Z.gtb_spec subdivs 0); [|lia].
    destruct (Z.eqb_spec subdivs 0); [lia | reflexivity]. }
  apply wpx_bind. eapply wpx_mono.
  - apply (wpx_for_range_inv False _ (fun _ => True)); [exact I|].
    intros [evs' ts] t0 c0 _.
    eapply wpx_mono; [apply bass_slot_full | auto].
  - intros [evs' ts] c1 _. now apply wpx_ret.
Qed.

Lemma bass_chords_loop bpc tpb L (chords : list (list Z)) :
  chord_length_ticks bpc tpb = Ok L ->
  forall st t c,
    (Forall (fun chord => (3 <= length chord)%nat) chords ->
     exists st' c', for_each chords (bass_chord bpc tpb) st t c = Ok (st', c'))
    /\ (Exists (fun chord => (length chord < 3)%nat) chords ->
        for_each chords (bass_chord bpc tpb) st t c = Raise IndexError).
Proof.
  intro EL. induction chords as [|chord chords IH]; intros st t c;
    cbn [for_each].
  - split; [intros _; unfold ret; eauto | intro H; inversion H].
  - unfold bind. destruct (lt_dec (length chord) 3) as [Hshort|Hlong].
    + rewrite (bass_chord_short bpc tpb chord st t c Hshort).
      split; [|reflexivity].
      intro HF. inversion HF; subst. lia.
    + destruct (wpx_total_inv _ _ _ _
                  (bass_chord_returns bpc tpb L chord st t c EL ltac:(lia)))
        as (st1 & c1 & E1 & _).
      rewrite E1. destruct (IH st1 t c1) as [IHa IHb].
      split; intro H; inversion H; subst; [now apply IHa | lia | now apply IHb].
Qed.

Lemma harmony_track_returns chords bpc tpb L t c :
  chord_length_ticks bpc tpb = Ok L ->
  wpx False (create_harmony_track_chaos chords bpc tpb) (fun _ _ => True) t c.
Proof.
  intro EL. unfold create_harmony_track_chaos.
  apply wpx_bind. eapply wpx_mono.
  - apply (wpx_for_each_inv False _ (fun _ => True)); [exact I|].
    clear t c. intros chord [evs cur] t c _ _. unfold harmony_chord.
    apply wpx_bind. eapply wpx_lift_ok; [exact EL|].
    apply wpx_bind, wpx_randint; [lia|]. intros presses Hp.
    apply wpx_bind. eapply wpx_lift_ok.
    { unfold harmony_press_length, py_floordiv.
      destruct (Z.eqb_spec presses 0); [lia | reflexivity]. }
    apply wpx_bind. eapply wpx_mono.
    + apply (wpx_for_range_inv False _ (fun _ => True)); [exact I|].
      clear t c. intros st t c _. unfold harmony_press.
      apply wpx_bind. eapply wpx_mono; [apply shuffle_spec|].
      cbn beta. intros chord_notes c1 _.
      apply wpx_for_each_inv; [exact I|].
      clear t c c1. intros note [evs' ts] t c Hin _. unfold harmony_note.
      apply wpx_bind, wpx_randint; [lia|]. intros vel _.
      apply wpx_bind. eapply wpx_lift_ok.
      { unfold py_floordiv.
        destruct (Z.eqb_spec (Z.of_nat (length chord_notes)) 0) as [E|];
          [|reflexivity].
        destruct chord_notes; [destruct Hin | cbn [length] in E; lia]. }
      now apply wpx_ret.
    + intros [evs' ts] c1 _. now apply wpx_ret.
  - intros [evs cur] c1 _. now apply wpx_ret.
Qed.

(** X16. Bass reads [chord[0]] and [chord[2]] before anything else of
    a chord: given a chord length that can be computed, it returns when
    every chord has at least three entries, and raises IndexError, for
    every sequence of draws, as soon as one chord has fewer.  Harmony
    walks over the entries of each chord and returns for chords of any
    length, empty ones included. *)
Theorem X16_bass_needs_three_notes_per_chord_harmony_takes_any :
  forall chords bpc tpb L t c,
    chord_length_ticks bpc tpb = Ok L ->
    (Forall (fun chord => (3 <= length chord)%nat) chords ->
     exists evs c', create_bass_track_chaos chords bpc tpb t c = Ok (evs, c'))
    /\ (Exists (fun chord => (length chord < 3)%nat) chords ->
        create_bass_track_chaos chords bpc tpb t c = Raise IndexError)
    /\ exists evs c',
        create_harmony_track_chaos chords bpc tpb t c = Ok (evs, c').
Proof.
  intros chords bpc tpb L t c EL.
  destruct (bass_chords_loop bpc tpb L chords EL ([], 0) t c) as [Hok Hraise].
  split; [|split].
  - intro HF. destruct (Hok HF) as ([evs cur] & c' & E).
    exists evs, c'. unfold create_bass_track_chaos, bind. now rewrite E.
  - intro HE. unfold create_bass_track_chaos, bind. now rewrite (Hraise HE).
  - destruct (wpx_total_inv _ _ _ _
                (harmony_track_returns chords bpc tpb L t c EL))
      as (evs & c' & E & _).
    eauto.
Qed.

Lemma X16_witness :
  chord_length_ticks (PyInt 4) 480 = Ok 1920
  /\ create_bass_track_chaos [[60; 64; 67]; [60; 64]] (PyInt 4) 480
       zero_tape 0%nat
     = Raise IndexError
  /\ exists evs c',
      create_harmony_track_chaos [[60; 64; 67]; [60; 64]] (PyInt 4) 480
        zero_tape 0%nat
      = Ok (evs, c').
Proof.
  assert (EL : chord_length_ticks (PyInt 4) 480 = Ok 1920) by reflexivity.
  split; [exact EL|].
  destruct (X16_bass_needs_three_notes_per_chord_harmony_takes_any
              [[60; 64; 67]; [60; 64]] (PyInt 4) 480 1920 zero_tape 0%nat EL)
    as (_ & Hraise & Hh).
  split; [|exact Hh].
  apply Hraise. apply Exists_cons_tl, Exists_cons_hd. cbn. lia.
Defined.

Lemma for_each_ignores {A S} (body : A -> S -> Rand S) (xs : list A) :
  (forall x y, body x = body y) ->
  forall ys, length xs = length ys -> for_each xs body = for_each ys body.
Proof.
  intro Hbody. induction xs as [|x xs IH]; intros [|y ys] Hlen;
    try discriminate; [reflexivity|].
  cbn [for_each]. rewrite (Hbody x y), (IH ys); [reflexivity|].
  now injection Hlen.
Qed.

Lemma list_comp_raises {A} (m : Rand A) (e : PyErr) (n : nat) t c :
  (0 < n)%nat -> (forall t c, m t c = Raise e) ->
  list_comp n m t c = Raise e.
Proof.
  intros Hn Hm. destruct n as [|n]; [lia|].
  cbn [list_comp]. unfold bind. now rewrite Hm.
Qed.

(** X17. Melody never looks into a chord: two progressions with the
    same number of chords give, on the same draws, the same Melody track
    (or the same error), whatever their notes.  With an empty scale it
    raises ValueError for every progression and every sequence of draws,
    when it draws the first index of its phrase. *)
Theorem X17_melody_uses_only_the_number_of_chords :
  (forall chords chords' scale_notes bpc tpb t c,
      length chords = length chords' ->
      create_melody_track_chaos chords scale_notes bpc tpb t c
      = create_melody_track_chaos chords' scale_notes bpc tpb t c)
  /\ (forall chords bpc tpb t c,
        create_melody_track_chaos chords [] bpc tpb t c = Raise ValueError).
Proof.
  split.
  - intros chords chords' scale_notes bpc tpb t c Hlen.
    unfold create_melody_track_chaos, bind.
    destruct (randint 2 5 t c) as [[depth c1]|]; [|reflexivity].
    destruct (randint 3 7 t c1) as [[phrase_length c2]|]; [|reflexivity].
    destruct (list_comp _ _ t c2) as [[phrase c3]|]; [|reflexivity].
    rewrite (for_each_ignores
               (melody_chord scale_notes phrase (lsystem_durations depth)
                  bpc tpb)
               chords (fun _ _ => eq_refl) chords' Hlen).
    reflexivity.
  - intros chords bpc tpb t c.
    unfold create_melody_track_chaos.
    destruct (wpx_total_inv _ _ _ _
                (wpx_randint False 2 5 (fun _ _ => True) t c ltac:(lia)
                   (fun _ _ => I)))
      as (depth & c1 & E1 & _).
    unfold bind at 1. rewrite E1.
    destruct (wpx_total_inv _ _ _ _
                (wpx_randint False 3 7 (fun k _ => 3 <= k <= 7) t c1
                   ltac:(lia) (fun _ H => H)))
      as (phrase_length & c2 & E2 & Hpl).
    unfold bind at 1. rewrite E2.
    unfold bind at 1.
    rewrite (list_comp_raises _ ValueError); [reflexivity | lia |].
    intros t0 c0. reflexivity.
Qed.

Lemma X17_witness :
  length one_chord = length [[0; 0; 0]]
  /\ create_melody_track_chaos one_chord high_scale (PyInt 4) 480
       zero_tape 0%nat
     = create_melody_track_chaos [[0; 0; 0]] high_scale (PyInt 4) 480
         zero_tape 0%nat.
Proof.
  assert (H : length one_chord = length [[0; 0; 0]]) by reflexivity.
  split; [exact H|].
  exact (proj1 X17_melody_uses_only_the_number_of_chords
           one_chord [[0; 0; 0]] high_scale (PyInt 4) 480 zero_tape 0%nat H).
Defined.

(** ** The name of the file *)

Lemma endswith_spec (s suffix : string) :
  endswith s suffix = true <-> exists p, s = (p ++ suffix)%string.
Proof.
  split.
  - induction s as [|ch s IH]; cbn [endswith]; intro H;
      apply orb_true_iff in H; destruct H as [H|H].
    + apply String.eqb_eq in H. subst. now exists ""%string.
    + discriminate.
    + apply String.eqb_eq in H. subst. now exists ""%string.
    + destruct (IH H) as (p & ->). now exists (String ch p).
  - intros (p & ->). induction p as [|ch p IH].
    + cbn [String.append]. destruct suffix; cbn [endswith];
        rewrite String.eqb_refl; reflexivity.
    + cbn [String.append endswith]. rewrite IH. apply orb_true_r.
Qed.

Lemma lower_app (s1 s2 : string) :
  lower (s1 ++ s2) = (lower s1 ++ lower s2)%string.
Proof.
  induction s1 as [|ch s1 IH]; cbn [String.append lower];
    [reflexivity | now rewrite IH].
Qed.

Lemma out_name_of_extension (user_input_name : string) :
  endswith (lower (out_name_of user_input_name)) ".mid" = true.
Proof.
  unfold out_name_of. destruct user_input_name as [|ch s]; [reflexivity|].
  destruct (endswith (lower (String ch s)) ".mid") eqn:E; cbn [negb];
    [exact E|].
  apply endswith_spec. exists (lower (String ch s)).
  now rewrite lower_app.
Qed.

(** X18. The file name always carries the extension: whatever is
    typed, the lower-cased name ends in [.mid].  An empty line gives
    [holy_random.mid]; a name that already ends in [.mid] in any mix of
    upper and lower case is kept as typed; any other name gets [.mid]
    appended.  The name is never empty, and giving the resulting name
    again returns it unchanged. *)
Theorem X18_file_name_always_ends_in_mid :
  forall user_input_name,
    let out_name := out_name_of user_input_name in
    (exists stem, lower out_name = (stem ++ ".mid")%string)
    /\ out_name <> ""%string
    /\ out_name_of out_name = out_name
    /\ (user_input_name = ""%string -> out_name = "holy_random.mid"%string)
    /\ (user_input_name <> ""%string ->
        if endswith (lower user_input_name) ".mid"
        then out_name = user_input_name
        else out_name = (user_input_name ++ ".mid")%string).
Proof.
  intros user_input_name out_name.
  pose proof (out_name_of_extension user_input_name) as Hext.
  fold out_name in Hext.
  assert (Hne : out_name <> ""%string).
  { intro E. rewrite E in Hext. discriminate. }
  split; [now apply endswith_spec|].
  split; [exact Hne|].
  split; [|split].
  - unfold out_name_of at 1. destruct out_name as [|ch s]; [congruence|].
    now rewrite Hext.
  - intros ->. reflexivity.
  - intro Hu. subst out_name. unfold out_name_of.
    destruct user_input_name as [|ch s]; [congruence|].
    destruct (endswith (lower (String ch s)) ".mid"); reflexivity.
Qed.

(* ================================================================== *)
(** * Part IV: zero counts, and pitches out of range *)
(* ================================================================== *)

(** ** Zero counts *)




(** ** Pitches out of range *)

Lemma combine_and_write_midi_rejects tracks_dict filename tempo_bpm t c :
  Exists (fun entry => Exists (fun e => ~ event_bytes_valid e) (snd entry))
    tracks_dict ->
  exists err,
    combine_and_write_midi tracks_dict filename tempo_bpm t c = Raise err.
Proof.
  intro Hex.
  pose proof (combine_and_write_midi_partial tracks_dict filename tempo_bpm
                t c) as H.
  unfold wpx in H.
  destruct (combine_and_write_midi tracks_dict filename tempo_bpm t c)
    as [[[name mid] c']|err]; [|eauto].
  destruct H as (us & tracks & _ & _ & _ & _ & _ & Hw).
  apply Exists_exists in Hex. destruct Hex as (entry & Hin & Hbad).
  rewrite Forall_forall in Hw.
  destruct (not_all_valid _ (proj1 (Hw entry Hin)) Hbad).
Qed.

(** C9. The generators clamp no pitch: on a triad of valid MIDI
    pitches, 120-124-127, there are draws for which the Bass generator
    shifts the root an octave up and emits the pitch 132, and on a scale
    of valid MIDI pitches there are draws for which the Melody generator
    emits the pitch 138.  Such an event is not passed on: the note
    message of any event whose pitch is outside 0..127 is refused with
    ValueError, so the track is not built and the merger writes no file.
    In a run of the script this does not happen: the run comes to the
    merger with four tracks whose pitches are all within 0..127, and the
    note messages of a file it writes have pitches from 24 to 118. *)
Theorem C9_generators_clamp_no_pitch_and_the_merger_refuses_it :
  Forall is_triad high_chords
  /\ Forall (Forall midi_pitch) high_chords
  /\ Forall midi_pitch high_scale
  /\ (exists evs c',
        create_bass_track_chaos high_chords (PyFloat f_4_0) TICKS_PER_BEAT
          high_bass_tape 0%nat = Ok (evs, c')
        /\ In (mk_event 0 note_on 132 50 1) evs
        /\ ~ midi_pitch 132)
  /\ (exists evs c',
        create_melody_track_chaos high_chords high_scale (PyFloat f_4_0)
          TICKS_PER_BEAT high_melody_tape 0%nat = Ok (evs, c')
        /\ In (mk_event 0 note_on 138 60 0) evs
        /\ ~ midi_pitch 138)
  /\ (forall name events t c,
        Exists (fun e => ~ midi_pitch (ev_note e)) events ->
        combine_track name events t c = Raise ValueError)
  /\ (forall tracks_dict filename tempo_bpm t c,
        Exists (fun entry =>
                  Exists (fun e => ~ midi_pitch (ev_note e)) (snd entry))
          tracks_dict ->
        exists err,
          combine_and_write_midi tracks_dict filename tempo_bpm t c
          = Raise err)
  /\ (forall total_measures bpm tempo out_name t c,
        0 <= bpm < 2 ^ 53 ->
        exists drum_track bass_track harmony_track melody_track c',
          main total_measures bpm tempo out_name t c
          = combine_and_write_midi
              [("Drums", drum_track); ("Bass", bass_track);
               ("Harmony", harmony_track); ("Melody", melody_track)]%string
              out_name tempo t c'
          /\ Forall (fun e => midi_pitch (ev_note e))
               (drum_track ++ bass_track ++ harmony_track ++ melody_track))
  /\ (forall total_measures bpm tempo out_name t c,
        wpx True (main total_measures bpm tempo out_name)
          (fun '(_, mid) _ =>
             Forall (Forall (msg_pitch_within 24 118)) (mid_tracks mid))
          t c).
Proof.
  split; [repeat constructor; exists 120; auto|].
  split; [repeat constructor; unfold midi_pitch; lia|].
  split; [unfold high_scale, midi_pitch; cbn; repeat constructor; lia|].
  split.
  { eexists _, _.
    split; [vm_compute; reflexivity|].
    split; [now left|].
    unfold midi_pitch; lia. }
  split.
  { eexists _, _.
    split; [vm_compute; reflexivity|].
    split; [now left|].
    unfold midi_pitch; lia. }
  split.
  { intros name events t c Hex.
    apply combine_track_rejects, out_of_range_pitch_is_not_valid, Hex. }
  split.
  { intros tracks_dict filename tempo_bpm t c Hex.
    apply combine_and_write_midi_rejects.
    eapply Exists_impl; [|exact Hex].
    intros entry. apply out_of_range_pitch_is_not_valid. }
  split.
  { intros total_measures bpm tempo out_name t c Hbpm.
    destruct (main_reaches_merger total_measures bpm tempo out_name t c Hbpm)
      as ([[[[drum_track bass_track] harmony_track] melody_track] c5]
          & E & Hdrum & Hbass & Hharm & Hmel).
    exists drum_track, bass_track, harmony_track, melody_track, c5.
    split; [exact E|].
    repeat (apply Forall_app; split);
      (eapply Forall_impl; [|eassumption]);
      intros e (_ & Hn & _); exact Hn. }
  intros total_measures bpm tempo out_name t c.
  apply main_pitches_stay_valid.
Qed.

(** C9 as first stated fails at its last part: the Bass event
    of pitch 132 is refused by the merger. *)
Lemma C9_merger_refuses_the_bass_event_of_pitch_132 :
  exists evs c',
    create_bass_track_chaos high_chords (PyFloat f_4_0) TICKS_PER_BEAT
      high_bass_tape 0%nat = Ok (evs, c')
    /\ In (mk_event 0 note_on 132 50 1) evs
    /\ combine_track "Bass" evs high_bass_tape c' = Raise ValueError
    /\ combine_and_write_midi [("Bass"%string, evs)] "holy_random.mid" 120
         high_bass_tape c'
       = Raise ValueError.
Proof.
  eexists _, _.
  split; [vm_compute; reflexivity|].
  split; [now left|].
  split; vm_compute; reflexivity.
Qed.
